(** * Historical sync orchestrator of ponder (packages/core/src/sync-historical/service.ts)

    A shallow embedding of [HistoricalSyncService]: the per-source progress
    trackers, the block-callback map, the task queue, the workers and
    [enqueueBlockTasks], followed by the properties the specification states
    about them.

    Conventions.
    - Block numbers are JavaScript numbers holding integers; they are [Z].
      The one non-integer value the service computes, [Math.min()] of no
      argument ([Infinity]), is kept by the type [jsnum].
    - A JavaScript object used as a dictionary is a [gmap].
    - The closures pushed on [blockCallbacks] are records of what they
      capture ([BlockCallback]); running one is [runCallback].
    - The RPC client and the sync store are external: they are an oracle
      ([World]) indexed by the number of external calls made so far, and the
      inserts the service performs are kept in a trace.
    - Metrics are write-only sinks and are left out. *)

From Stdlib Require Import ZArith List Lia.
From stdpp Require Import gmap strings list fin_maps sorting.

Open Scope Z_scope.

(** ** JavaScript numbers that may be [Infinity] *)

Inductive jsnum : Type :=
  | Fin (z : Z)
  | PInf.

(** [a > b] on numbers. *)
Definition js_gt (a b : jsnum) : bool :=
  match a, b with
  | Fin x, Fin y => bool_decide (y < x)
  | Fin _, PInf => false
  | PInf, Fin _ => true
  | PInf, PInf => false
  end.

(** [n <= t] for an integer [n]. *)
Definition js_le (n : Z) (t : jsnum) : bool :=
  match t with
  | Fin y => bool_decide (n <= y)
  | PInf => true
  end.

(** [Math.min(...xs)]: [Infinity] when there is no argument. *)
Fixpoint Math_min (xs : list Z) : jsnum :=
  match xs with
  | [] => PInf
  | x :: r =>
      match Math_min r with
      | PInf => Fin x
      | Fin m => Fin (Z.min x m)
      end
  end.

Definition MAX_SAFE_INTEGER : Z := 9007199254740991.

(** ** Interval algebra ([@/utils/interval.js]) *)

Module Interval.

(** Closed integer interval [[a, b]]. *)
Definition interval : Type := Z * Z.

Definition contains (i : interval) (n : Z) : Prop := i.1 <= n <= i.2.

Definition covers (l : list interval) (n : Z) : Prop :=
  Exists (fun i => contains i n) l.

(** Modelled from the spec: [intervalSum], "sum(A): the sum of
    (b - a + 1)"; utils/interval.ts, which defines it, is absent. *)
Definition intervalSum (l : list interval) : Z :=
  foldr (fun i acc => i.2 - i.1 + 1 + acc) 0 l.

(** Modelled from the spec: the step of [intervalUnion], absent like the
    rest of utils/interval.ts. One interval is put in a sorted, disjoint,
    maximally merged list and merged with every interval it overlaps or
    touches. *)
Fixpoint insertInterval (i : interval) (l : list interval) : list interval :=
  match l with
  | [] => [i]
  | j :: r =>
      if bool_decide (i.2 + 1 < j.1) then i :: j :: r
      else if bool_decide (j.2 + 1 < i.1) then j :: insertInterval i r
      else insertInterval (Z.min i.1 j.1, Z.max i.2 j.2) r
  end.

(** Modelled from the spec: [intervalUnion], "standard set operations,
    output canonical" (sorted, disjoint, maximally merged). *)
Definition intervalUnion (l : list interval) : list interval :=
  foldr insertInterval [] l.

(** Modelled from the spec: the step of [intervalDifference]. What is left of
    [i] once [r] is removed: at most two pieces. *)
Definition minusOne (i r : interval) : list interval :=
  (if bool_decide (i.1 <= Z.min i.2 (r.1 - 1)) then [(i.1, Z.min i.2 (r.1 - 1))] else [])
  ++ (if bool_decide (Z.max i.1 (r.2 + 1) <= i.2) then [(Z.max i.1 (r.2 + 1), i.2)] else []).

(** Modelled from the spec: [intervalDifference(initial, remove)], the set
    difference of two canonical interval sets. *)
Definition intervalDifference (initial remove : list interval) : list interval :=
  fold_left (fun acc r => flat_map (fun i => minusOne i r) acc) remove initial.

(** Modelled from the spec: the step of [intervalIntersection], the blocks
    that [i] and [r] share. *)
Definition capOne (i r : interval) : list interval :=
  if bool_decide (Z.max i.1 r.1 <= Z.min i.2 r.2)
  then [(Z.max i.1 r.1, Z.min i.2 r.2)] else [].

(** Modelled from the spec: [intervalIntersection(a, b)], the set
    intersection of two canonical interval sets. *)
Definition intervalIntersection (a b : list interval) : list interval :=
  flat_map (fun i => flat_map (fun r => capOne i r) b) a.

(** Modelled from the spec: the chunks of one interval in [getChunks],
    [[a, a+k-1]], [[a+k, a+2k-1]], ... There are at most [b - a + 1] of them
    when [k >= 1]; [fuel] bounds their number. *)
Fixpoint chunkInterval (fuel : nat) (a b k : Z) : list interval :=
  match fuel with
  | O => []
  | S f =>
      if bool_decide (a <= b)
      then let t := Z.min (a + k - 1) b in (a, t) :: chunkInterval f (t + 1) b k
      else []
  end.

(** Modelled from the spec: [getChunks({intervals, maxChunkSize})], "for
    each interval, split into consecutive sub-intervals of length at most
    maxChunkSize; preserves order". *)
Definition getChunks (intervals : list interval) (maxChunkSize : Z) : list interval :=
  flat_map (fun i => chunkInterval (Z.to_nat (i.2 - i.1 + 1)) i.1 i.2 maxChunkSize) intervals.

End Interval.

Import Interval.

(** ** Progress trackers ([@/utils/interval.js]) *)

(** Modelled from the spec: the state of a [ProgressTracker], "a target
    interval and the set of completed intervals"; the class is absent. *)
Record ProgressTracker : Type := mkTracker {
  target : interval;
  completed : list interval;
}.

(** Modelled from the spec: [getRequired()] is [difference(target, completed)]. *)
Definition getRequired (t : ProgressTracker) : list interval :=
  intervalDifference [target t] (completed t).

(** Modelled from the spec: [getCheckpoint()] is [target.start - 1] if no
    completed interval contains [target.start], else the upper bound of the
    completed interval that does. *)
Definition getCheckpoint (t : ProgressTracker) : Z :=
  match List.find (fun i => bool_decide (i.1 <= (target t).1 <= i.2)) (completed t) with
  | Some i => i.2
  | None => (target t).1 - 1
  end.

Record CompletedResult : Type := mkCompletedResult {
  isUpdated : bool;
  prevCheckpoint : Z;
  newCheckpoint : Z;
}.

(** Modelled from the spec: [addCompletedInterval([a,b])] merges the interval
    into [completed] and reports the checkpoints before and after. *)
Definition addCompletedInterval (i : interval) (t : ProgressTracker)
  : ProgressTracker * CompletedResult :=
  let t' := {| target := target t; completed := intervalUnion (completed t ++ [i]) |} in
  (t', {| isUpdated := bool_decide (getCheckpoint t < getCheckpoint t');
          prevCheckpoint := getCheckpoint t;
          newCheckpoint := getCheckpoint t' |}).

Record CompletedBlock : Type := mkCompletedBlock {
  cbNumber : Z;
  cbTimestamp : Z;
}.

(** Modelled from the spec: the state of the [BlockProgressTracker], which
    "tracks pending block numbers added for fetching and blocks whose fetch
    has completed"; the class is absent. *)
Record BlockProgressTracker : Type := mkBlockTracker {
  pendingBlocks : list Z;
  completedBlocks : list CompletedBlock;
  frontier : option CompletedBlock;
}.

Definition newBlockProgressTracker : BlockProgressTracker :=
  {| pendingBlocks := []; completedBlocks := []; frontier := None |}.

(** Modelled from the spec: [addPendingBlocks({blockNumbers})] "appends to
    the pending sequence". What the tracker does with blocks that do not
    meet its requirement is not in the spec: here they are appended all the
    same, and the requirement is the predicate [addPendingBlocks_pre] below,
    a hypothesis wherever what follows the call is at stake. *)
Definition addPendingBlocks (blockNumbers : list Z) (t : BlockProgressTracker)
  : BlockProgressTracker :=
  {| pendingBlocks := pendingBlocks t ++ blockNumbers;
     completedBlocks := completedBlocks t;
     frontier := frontier t |}.

(** Modelled from the spec: the requirement on the caller of
    [addPendingBlocks], "must be strictly greater than any existing pending
    block", for a sequence that is itself ascending. *)
Definition addPendingBlocks_pre (blockNumbers : list Z) (t : BlockProgressTracker) : Prop :=
  StronglySorted Z.lt blockNumbers
  ∧ ∀ p b, p ∈ pendingBlocks t → b ∈ blockNumbers → p < b.

(** Modelled from the spec: the step of [addCompletedBlock]. The longest
    prefix of the pending sequence whose blocks are completed; the result is
    the last block of that prefix. *)
Fixpoint completedPrefix (pending : list Z) (done : list CompletedBlock)
    (acc : option CompletedBlock) : option CompletedBlock :=
  match pending with
  | [] => acc
  | p :: r =>
      match List.find (fun c => bool_decide (cbNumber c = p)) done with
      | Some c => completedPrefix r done (Some c)
      | None => acc
      end
  end.

(** Modelled from the spec: [addCompletedBlock] "records completion; advances
    an internal frontier pointer across the longest prefix of the pending
    sequence whose completions are now known. Returns the new frontier tail
    iff the frontier advanced; otherwise null". *)
Definition addCompletedBlock (blockNumber blockTimestamp : Z) (t : BlockProgressTracker)
  : BlockProgressTracker * option CompletedBlock :=
  let done := completedBlocks t ++ [{| cbNumber := blockNumber; cbTimestamp := blockTimestamp |}] in
  let f := completedPrefix (pendingBlocks t) done None in
  let advanced :=
    match f, frontier t with
    | Some c, Some c0 => bool_decide (cbNumber c0 < cbNumber c)
    | Some _, None => true
    | None, _ => false
    end in
  ({| pendingBlocks := pendingBlocks t; completedBlocks := done;
      frontier := if advanced then f else frontier t |},
   if advanced then f else None).

(** ** Sources, logs, blocks *)

Abbreviation Address := string (only parsing).
Abbreviation Hex := string (only parsing).
Abbreviation Hash := string (only parsing).

(** [source.criteria]; its constructor is [source.type]: "log", "factory",
    "block" or "function". *)
Inductive Criteria : Type :=
  | LogFilterCriteria (address : list Address) (topics : list Hex)
      (includeTransactionReceipts : bool)
  | FactoryCriteria (address : Address) (eventSelector : Hex) (topics : list Hex)
      (includeTransactionReceipts : bool)
  | BlockFilterCriteria (every : Z) (offset : Z)
  | TraceFilterCriteria (toAddress : list Address).

Module Source.
(** [EventSource]; [contractName] is [sourceName] for a block source. *)
Record t : Type := mk {
  id : string;
  chainId : Z;
  contractName : string;
  startBlock : Z;
  endBlock : option Z;
  maxBlockRange : option Z;
  criteria : Criteria;
}.
End Source.

Record Network : Type := mkNetwork {
  networkName : string;
  networkChainId : Z;
  defaultMaxBlockRange : Z;
  maxHistoricalTaskConcurrency : Z;
}.

(** [RpcLog], with [blockNumber] already read by [hexToNumber]. *)
Record RpcLog : Type := mkLog {
  blockNumber : Z;
  transactionHash : Hash;
  logIndex : Z;
}.

(** [HistoricalBlock], with the hashes of its transactions. *)
Record HistoricalBlock : Type := mkBlock {
  number : Z;
  timestamp : Z;
  transactions : list Hash;
}.

Record LogInterval : Type := mkLogInterval {
  startBlock : Z;
  endBlock : Z;
  logs : list RpcLog;
  transactionHashes : gset string;
}.

(** The functions pushed on [blockCallbacks], as the data each closure
    captures. *)
Inductive BlockCallback : Type :=
  | LogFilterCallback (logFilter : Source.t) (logInterval : LogInterval)
  | FactoryChildAddressCallback (factory : Source.t) (logInterval : LogInterval)
  | FactoryLogFilterCallback (factory : Source.t) (logInterval : LogInterval)
  | BlockFilterCallback (blockFilter : Source.t) (startBlock endBlock : Z).

Inductive HistoricalSyncTask : Type :=
  | LOG_FILTER (logFilter : Source.t) (fromBlock toBlock : Z)
  | FACTORY_CHILD_ADDRESS (factory : Source.t) (fromBlock toBlock : Z)
  | FACTORY_LOG_FILTER (factory : Source.t) (fromBlock toBlock : Z)
  | BLOCK_FILTER (blockFilter : Source.t) (fromBlock toBlock : Z)
  | TRACE_FILTER (traceFilter : Source.t) (fromBlock toBlock : Z)
  | BLOCK (blockNumber : Z) (callbacks : list BlockCallback).

(** ** External collaborators *)

Inductive Error : Type :=
  | RpcError (msg : string)
  | BlockNotFoundError (blockNumber : Z)
  | TransactionReceiptNotFoundError (hash : Hash)
  | StoreError (msg : string)
  | TypeError (msg : string).

(** The inserts the service asks of the sync store. *)
Inductive StoreInsert : Type :=
  | insertLogFilterInterval (chainId : Z) (logFilter : Criteria) (block : HistoricalBlock)
      (transactions : list Hash) (transactionReceipts : list Hash) (logs : list RpcLog)
      (interval : Z * Z)
  | insertFactoryChildAddressLogs (chainId : Z) (logs : list RpcLog)
  | insertFactoryLogFilterInterval (chainId : Z) (factory : Criteria) (block : HistoricalBlock)
      (transactions : list Hash) (transactionReceipts : list Hash) (logs : list RpcLog)
      (interval : Z * Z)
  | insertBlockFilterInterval (chainId : Z) (blockFilter : Criteria)
      (block : option HistoricalBlock) (interval : Z * Z).

(** The RPC client and the sync store. The first argument of a call that can
    fail is the number of external calls made before it, so that the same
    request may fail once and succeed later. A receipt is identified by the
    hash of its transaction. *)
Record World : Type := mkWorld {
  eth_getLogs : nat → list Address → list Hex → Z → Z → Error + list RpcLog;
  eth_getBlockByNumber : nat → Z → Error + option HistoricalBlock;
  eth_getTransactionReceipt : nat → Hash → Error + option Hash;
  getLogFilterIntervals : Z → Criteria → list interval;
  getFactoryLogFilterIntervals : Z → Criteria → list interval;
  getBlockFilterIntervals : Z → Criteria → list interval;
  getTraceFilterIntervals : Z → Criteria → list interval;
  getFactoryChildAddresses : nat → Z → Criteria → Z → Z → Error + list (list Address);
  getBlock : nat → Z → Z → Error + bool;
  insertFails : nat → StoreInsert → option Error;
}.

(** ** The task queue ([@/utils/queue.js]) *)

(** Modelled from the spec: the queue of [createQueue], absent, with the
    tasks that wait in the order they will run, the number of tasks in
    flight ([pending]) and whether the queue is paused. *)
Record Queue : Type := mkQueue {
  tasks : list (HistoricalSyncTask * Z);
  pending : nat;
  isPaused : bool;
}.

Definition emptyQueue : Queue := {| tasks := []; pending := 0; isPaused := true |}.

(** Modelled from the spec: the step of [addTask]; the task goes before the
    first task of lower priority. *)
Fixpoint insertByPriority (x : HistoricalSyncTask * Z) (l : list (HistoricalSyncTask * Z))
  : list (HistoricalSyncTask * Z) :=
  match l with
  | [] => [x]
  | y :: r => if bool_decide (y.2 < x.2) then x :: y :: r else y :: insertByPriority x r
  end.

(** Modelled from the spec: [addTask(task, {priority})] "inserts with the
    given priority. Highest priority runs first; ties FIFO". *)
Definition addTask (task : HistoricalSyncTask) (priority : Z) (q : Queue) : Queue :=
  {| tasks := insertByPriority (task, priority) (tasks q);
     pending := pending q; isPaused := isPaused q |}.

(** Modelled from the spec: [queue.size], the number of tasks that wait. *)
Definition queue_size (q : Queue) : nat := length (tasks q).

(** Modelled from the spec: [pause()] and [clear()] of the queue. *)
Definition queue_pause (q : Queue) : Queue :=
  {| tasks := tasks q; pending := pending q; isPaused := true |}.

Definition queue_clear (q : Queue) : Queue :=
  {| tasks := []; pending := pending q; isPaused := isPaused q |}.

(** ** The service *)

Inductive LogMessage : Type :=
  | SkippingHistoricalSync (source : string)
  | AddedTasks (kind : string) (total : Z) (source : string)
  | StartedSync (source : string)
  | TaskFailedRetrying (task : HistoricalSyncTask) (error : Error)
  | CompletedTask (task : HistoricalSyncTask)
  | EnqueuedBlockTasks (count : nat) (fromCheckpoint : jsnum) (upTo : jsnum)
  | CompletedSync
  | KilledService.

Inductive LogLevel : Type := trace_ | debug_ | info_ | warn_.

(** What the service does to the outside, in order. *)
Inductive Effect : Type :=
  | Logged (level : LogLevel) (msg : LogMessage)
  | Emitted_syncComplete
  | DebouncedCheckpoint (blockTimestamp chainId blockNumber : Z)
  | ClearedProgressLogInterval
  | Inserted (insert : StoreInsert).

Record Service : Type := mkService {
  network : Network;
  sources : list Source.t;
  logFilterProgressTrackers : gmap string ProgressTracker;
  factoryChildAddressProgressTrackers : gmap string ProgressTracker;
  factoryLogFilterProgressTrackers : gmap string ProgressTracker;
  blockFilterProgressTrackers : gmap string ProgressTracker;
  traceFilterProgressTrackers : gmap string ProgressTracker;
  blockProgressTracker : BlockProgressTracker;
  blockCallbacks : gmap Z (list BlockCallback);
  blockTasksEnqueuedCheckpoint : jsnum;
  queue : Queue;
  isShuttingDown : bool;
  effects : list Effect;
  externalCalls : nat;
}.

(** The constructor: every field at its initialiser. *)
Definition newService (network : Network) (sources : list Source.t) : Service :=
  mkService network sources ∅ ∅ ∅ ∅ ∅ newBlockProgressTracker ∅ (Fin 0) emptyQueue false [] 0.

Definition set_logFilterProgressTrackers v (s : Service) : Service :=
  let 'mkService a b _ d e f g h i j k l m n := s in mkService a b v d e f g h i j k l m n.
Definition set_factoryChildAddressProgressTrackers v (s : Service) : Service :=
  let 'mkService a b c _ e f g h i j k l m n := s in mkService a b c v e f g h i j k l m n.
Definition set_factoryLogFilterProgressTrackers v (s : Service) : Service :=
  let 'mkService a b c d _ f g h i j k l m n := s in mkService a b c d v f g h i j k l m n.
Definition set_blockFilterProgressTrackers v (s : Service) : Service :=
  let 'mkService a b c d e _ g h i j k l m n := s in mkService a b c d e v g h i j k l m n.
Definition set_traceFilterProgressTrackers v (s : Service) : Service :=
  let 'mkService a b c d e f _ h i j k l m n := s in mkService a b c d e f v h i j k l m n.
Definition set_blockProgressTracker v (s : Service) : Service :=
  let 'mkService a b c d e f g _ i j k l m n := s in mkService a b c d e f g v i j k l m n.
Definition set_blockCallbacks v (s : Service) : Service :=
  let 'mkService a b c d e f g h _ j k l m n := s in mkService a b c d e f g h v j k l m n.
Definition set_blockTasksEnqueuedCheckpoint v (s : Service) : Service :=
  let 'mkService a b c d e f g h i _ k l m n := s in mkService a b c d e f g h i v k l m n.
Definition set_queue v (s : Service) : Service :=
  let 'mkService a b c d e f g h i j _ l m n := s in mkService a b c d e f g h i j v l m n.
Definition set_isShuttingDown v (s : Service) : Service :=
  let 'mkService a b c d e f g h i j k _ m n := s in mkService a b c d e f g h i j k v m n.
Definition set_effects v (s : Service) : Service :=
  let 'mkService a b c d e f g h i j k l _ n := s in mkService a b c d e f g h i j k l v n.
Definition set_externalCalls v (s : Service) : Service :=
  let 'mkService a b c d e f g h i j k l m _ := s in mkService a b c d e f g h i j k l m v.

Definition perform (e : Effect) (s : Service) : Service :=
  set_effects (effects s ++ [e]) s.

Definition queue_addTask (task : HistoricalSyncTask) (priority : Z) (s : Service) : Service :=
  set_queue (addTask task priority (queue s)) s.

(** ** Computations that change the service and may throw *)

Definition M (A : Type) : Type := Service → (Error + A) * Service.

Global Instance M_ret : MRet M := λ A (a : A) s, (inr a, s).
Global Instance M_bind : MBind M := λ A B (f : A → M B) (c : M A) s,
  match c s with
  | (inl e, s') => (inl e, s')
  | (inr a, s') => f a s'
  end.

Definition throw {A : Type} (e : Error) : M A := λ s, (inl e, s).
Definition get : M Service := λ s, (inr s, s).
Definition modify (f : Service → Service) : M unit := λ s, (inr tt, f s).

(** [for (const x of l) await f(x)]. *)
Fixpoint forEach {A : Type} (f : A → M unit) (l : list A) : M unit :=
  match l with
  | [] => mret tt
  | x :: r => f x ;; forEach f r
  end.

(** [Promise.all(l.map(f))], the requests taken in order. *)
Fixpoint mapAll {A B : Type} (f : A → M B) (l : list A) : M (list B) :=
  match l with
  | [] => mret []
  | x :: r => y ← f x; ys ← mapAll f r; mret (y :: ys)
  end.

(** One call to an external collaborator whose answer depends on when it is
    made. *)
Definition external {A : Type} (call : nat → Error + A) : M A :=
  s ← get;
  modify (set_externalCalls (S (externalCalls s)));;
  match call (externalCalls s) with
  | inl e => throw e
  | inr a => mret a
  end.

(** ** [buildLogIntervals] *)

(** The body of [logs.forEach]: the hash joins the set of the log's block and
    the log is pushed on the list of the log's block. *)
Definition groupLog (acc : gmap Z (gset string) * gmap Z (list RpcLog)) (log : RpcLog)
  : gmap Z (gset string) * gmap Z (list RpcLog) :=
  let blockNumber := blockNumber log in
  (<[blockNumber := default ∅ (acc.1 !! blockNumber) ∪ {[transactionHash log]}]> acc.1,
   <[blockNumber := default [] (acc.2 !! blockNumber) ++ [log]]> acc.2).

Definition groupLogs (logs : list RpcLog) : gmap Z (gset string) * gmap Z (list RpcLog) :=
  fold_left groupLog logs (∅, ∅).

(** [Object.keys(o).map(Number).sort((a, b) => a - b)]. *)
Definition sortedKeys {V : Type} (o : gmap Z V) : list Z :=
  merge_sort Z.le (map_to_list o).*1.

(** The loop over [requiredBlocks], [prev] being the start of the next
    interval. *)
Fixpoint walkRequiredBlocks (txHashesByBlockNumber : gmap Z (gset string))
    (logsByBlockNumber : gmap Z (list RpcLog)) (prev : Z) (requiredBlocks : list Z)
  : list LogInterval :=
  match requiredBlocks with
  | [] => []
  | blockNumber :: rest =>
      {| startBlock := prev;
         endBlock := blockNumber;
         logs := default [] (logsByBlockNumber !! blockNumber);
         transactionHashes := default ∅ (txHashesByBlockNumber !! blockNumber) |}
      :: walkRequiredBlocks txHashesByBlockNumber logsByBlockNumber (blockNumber + 1) rest
  end.

Definition logRequiredBlocks (toBlock : Z) (logs : list RpcLog) : list Z :=
  let requiredBlocks := sortedKeys (groupLogs logs).1 in
  if bool_decide (toBlock ∈ requiredBlocks) then requiredBlocks
  else requiredBlocks ++ [toBlock].

Definition buildLogIntervals (fromBlock toBlock : Z) (logs : list RpcLog) : list LogInterval :=
  let '(txHashesByBlockNumber, logsByBlockNumber) := groupLogs logs in
  walkRequiredBlocks txHashesByBlockNumber logsByBlockNumber fromBlock
    (logRequiredBlocks toBlock logs).

(** ** The blocks of a BLOCK_FILTER task *)

(** The [for] loop of [blockFilterTaskWorker]; [None] when [fuel] runs out
    before the loop ends. *)
Fixpoint blockFilterLoop (fuel : nat) (blockNumber toBlock every : Z) : option (list Z) :=
  if bool_decide (blockNumber <= toBlock) then
    match fuel with
    | O => None
    | S f => cons blockNumber <$> blockFilterLoop f (blockNumber + every) toBlock every
    end
  else Some [].

(** [requiredBlocks] of [blockFilterTaskWorker]. [%] is the remainder of
    JavaScript, which has the sign of the dividend: [Z.rem]. For an interval
    ([every]) of 0 the remainder is [NaN], and so are the offset and the
    first block of the loop: [NaN <= toBlock] is false, the loop is skipped
    and [toBlock] alone is pushed. *)
Definition blockFilterRequiredBlocks (fuel : nat) (every offset fromBlock toBlock : Z)
  : option (list Z) :=
  if bool_decide (every = 0) then Some [toBlock]
  else
    let baseOffset := Z.rem (fromBlock - offset) every in
    let offset' := if bool_decide (baseOffset = 0) then 0 else every - baseOffset in
    requiredBlocks ← blockFilterLoop fuel (fromBlock + offset') toBlock every;
    if bool_decide (toBlock ∈ requiredBlocks) then Some requiredBlocks
    else Some (requiredBlocks ++ [toBlock]).

(** Fuel that lets the loop end whenever [every >= 1]. *)
Definition blockFilterFuel (fromBlock toBlock : Z) : nat := Z.to_nat (toBlock - fromBlock + 1).

(** ** [enqueueBlockTasks] *)

(** [Object.values] of a tracker record. *)
Definition Object_values (o : gmap string ProgressTracker) : list ProgressTracker :=
  (map_to_list o).*2.

Definition allProgressTrackers (s : Service) : list ProgressTracker :=
  Object_values (logFilterProgressTrackers s)
  ++ Object_values (factoryChildAddressProgressTrackers s)
  ++ Object_values (factoryLogFilterProgressTrackers s)
  ++ Object_values (blockFilterProgressTrackers s)
  ++ Object_values (traceFilterProgressTrackers s).

Definition hasRequired (t : ProgressTracker) : bool :=
  bool_decide (0 < length (getRequired t))%nat.

Definition blockTasksCanBeEnqueuedTo (s : Service) : jsnum :=
  Math_min (getCheckpoint <$> List.filter hasRequired (allProgressTrackers s)).

(** [Object.keys(this.blockCallbacks).map(Number)]: block numbers are array
    indices, which an object enumerates in ascending order. *)
Definition Object_keys (o : gmap Z (list BlockCallback)) : list Z := sortedKeys o.

Definition newBlocks (s : Service) : list Z :=
  List.filter (fun blockNumber => js_le blockNumber (blockTasksCanBeEnqueuedTo s))
    (Object_keys (blockCallbacks s)).

(** The body of the loop over [newBlocks]: one BLOCK task is added and the
    entry is deleted. *)
Definition enqueueBlockTask (s : Service) (blockNumber : Z) : Service :=
  let s1 :=
    queue_addTask (BLOCK blockNumber (default [] (blockCallbacks s !! blockNumber)))
      (MAX_SAFE_INTEGER - blockNumber) s in
  set_blockCallbacks (delete blockNumber (blockCallbacks s1)) s1.

Definition enqueueBlockTasks (s : Service) : Service :=
  let blockTasksCanBeEnqueuedTo := blockTasksCanBeEnqueuedTo s in
  if js_gt blockTasksCanBeEnqueuedTo (blockTasksEnqueuedCheckpoint s) then
    let newBlocks := newBlocks s in
    let s1 := set_blockProgressTracker (addPendingBlocks newBlocks (blockProgressTracker s)) s in
    let s2 := fold_left enqueueBlockTask newBlocks s1 in
    let s3 := perform (Logged trace_ (EnqueuedBlockTasks (length newBlocks)
                (blockTasksEnqueuedCheckpoint s) blockTasksCanBeEnqueuedTo)) s2 in
    set_blockTasksEnqueuedCheckpoint blockTasksCanBeEnqueuedTo s3
  else s.

(** ** Workers *)

(** [if (this.blockCallbacks[n] === undefined) this.blockCallbacks[n] = [];
    this.blockCallbacks[n].push(callback)]. *)
Definition pushBlockCallback (blockNumber : Z) (callback : BlockCallback) (s : Service) : Service :=
  set_blockCallbacks
    (<[blockNumber := default [] (blockCallbacks s !! blockNumber) ++ [callback]]> (blockCallbacks s)) s.

(** [trackers[id].addCompletedInterval(i)]; reading a tracker that was never
    set up is a [TypeError]. *)
Definition markCompleted (trackers : Service → gmap string ProgressTracker)
    (set_trackers : gmap string ProgressTracker → Service → Service)
    (id : string) (i : interval) : M CompletedResult :=
  s ← get;
  match trackers s !! id with
  | None => throw (TypeError "undefined tracker")
  | Some t =>
      let '(t', r) := addCompletedInterval i t in
      modify (set_trackers (<[id := t']> (trackers s)));; mret r
  end.

(** [for (const [fromBlock, toBlock] of chunks) this.queue.addTask(task,
    {priority: Number.MAX_SAFE_INTEGER - fromBlock})]. *)
Definition addChunkTasks (task : Z → Z → HistoricalSyncTask) (chunks : list interval)
    (s : Service) : Service :=
  fold_left (fun s c => queue_addTask (task c.1 c.2) (MAX_SAFE_INTEGER - c.1) s) chunks s.

Definition maxChunkSizeOf (source : Source.t) (s : Service) : Z :=
  default (defaultMaxBlockRange (network s)) (Source.maxBlockRange source).

Section Workers.

Variable w : World.

Definition _eth_getLogs (address : list Address) (topics : list Hex) (fromBlock toBlock : Z)
  : M (list RpcLog) :=
  external (λ t, eth_getLogs w t address topics fromBlock toBlock).

Definition _eth_getBlockByNumber (blockNumber : Z) : M HistoricalBlock :=
  block ← external (λ t, eth_getBlockByNumber w t blockNumber);
  match block with
  | None => throw (BlockNotFoundError blockNumber)
  | Some b => mret b
  end.

Definition _eth_getTransactionReceipt (hash : Hash) : M Hash :=
  receipt ← external (λ t, eth_getTransactionReceipt w t hash);
  match receipt with
  | None => throw (TransactionReceiptNotFoundError hash)
  | Some r => mret r
  end.

(** A call to one of the [insert...] operations of the sync store. *)
Definition storeInsert (i : StoreInsert) : M unit :=
  external (λ t, match insertFails w t i with Some e => inl e | None => inr tt end);;
  modify (perform (Inserted i)).

Definition transactionsIn (block : HistoricalBlock) (hashes : gset string) : list Hash :=
  List.filter (λ h, bool_decide (h ∈ hashes)) (transactions block).

(** The call of one block callback on the fetched block. *)
Definition runCallback (block : HistoricalBlock) (callback : BlockCallback) : M unit :=
  match callback with
  | LogFilterCallback logFilter logInterval =>
      match Source.criteria logFilter with
      | LogFilterCriteria _ _ includeTransactionReceipts =>
          let transactions := transactionsIn block (transactionHashes logInterval) in
          transactionReceipts ←
            (if includeTransactionReceipts
             then mapAll _eth_getTransactionReceipt transactions else mret []);
          storeInsert (insertLogFilterInterval (Source.chainId logFilter)
            (Source.criteria logFilter) block transactions transactionReceipts
            (logs logInterval) (startBlock logInterval, endBlock logInterval))
      | _ => throw (TypeError "not a log source")
      end
  | FactoryChildAddressCallback factory logInterval =>
      match Source.criteria factory with
      | FactoryCriteria address eventSelector _ _ =>
          let transactions := transactionsIn block (transactionHashes logInterval) in
          storeInsert (insertLogFilterInterval (Source.chainId factory)
            (LogFilterCriteria [address] [eventSelector] false) block transactions []
            (logs logInterval) (startBlock logInterval, endBlock logInterval))
      | _ => throw (TypeError "not a factory source")
      end
  | FactoryLogFilterCallback factory logInterval =>
      match Source.criteria factory with
      | FactoryCriteria _ _ _ includeTransactionReceipts =>
          let transactions := transactionsIn block (transactionHashes logInterval) in
          transactionReceipts ←
            (if includeTransactionReceipts
             then mapAll _eth_getTransactionReceipt transactions else mret []);
          storeInsert (insertFactoryLogFilterInterval (Source.chainId factory)
            (Source.criteria factory) block transactions transactionReceipts
            (logs logInterval) (startBlock logInterval, endBlock logInterval))
      | _ => throw (TypeError "not a factory source")
      end
  | BlockFilterCallback blockFilter startBlock endBlock =>
      storeInsert (insertBlockFilterInterval (Source.chainId blockFilter)
        (Source.criteria blockFilter) (Some block) (startBlock, endBlock))
  end.

Definition logFilterTaskWorker (logFilter : Source.t) (fromBlock toBlock : Z) : M unit :=
  match Source.criteria logFilter with
  | LogFilterCriteria address topics _ =>
      logs ← _eth_getLogs address topics fromBlock toBlock;
      let logIntervals := buildLogIntervals fromBlock toBlock logs in
      forEach (λ logInterval,
        modify (pushBlockCallback (endBlock logInterval)
                  (LogFilterCallback logFilter logInterval))) logIntervals;;
      markCompleted logFilterProgressTrackers set_logFilterProgressTrackers
        (Source.id logFilter) (fromBlock, toBlock);;
      modify enqueueBlockTasks;;
      modify (perform (Logged trace_ (CompletedTask (LOG_FILTER logFilter fromBlock toBlock))))
  | _ => throw (TypeError "not a log source")
  end.

Definition factoryLogFilterTaskWorker (factory : Source.t) (fromBlock toBlock : Z) : M unit :=
  match Source.criteria factory with
  | FactoryCriteria _ _ topics _ =>
      batches ← external (λ t, getFactoryChildAddresses w t (Source.chainId factory)
                   (Source.criteria factory) (Source.startBlock factory) toBlock);
      logss ← mapAll (λ childContractAddressBatch,
                 _eth_getLogs childContractAddressBatch topics fromBlock toBlock) batches;
      let logs := concat logss in
      let logIntervals := buildLogIntervals fromBlock toBlock logs in
      forEach (λ logInterval,
        modify (pushBlockCallback (endBlock logInterval)
                  (FactoryLogFilterCallback factory logInterval))) logIntervals;;
      markCompleted factoryLogFilterProgressTrackers set_factoryLogFilterProgressTrackers
        (Source.id factory) (fromBlock, toBlock);;
      modify enqueueBlockTasks;;
      modify (perform (Logged trace_
                (CompletedTask (FACTORY_LOG_FILTER factory fromBlock toBlock))))
  | _ => throw (TypeError "not a factory source")
  end.

Definition factoryChildAddressTaskWorker (factory : Source.t) (fromBlock toBlock : Z) : M unit :=
  match Source.criteria factory with
  | FactoryCriteria address eventSelector _ _ =>
      logs ← _eth_getLogs [address] [eventSelector] fromBlock toBlock;
      storeInsert (insertFactoryChildAddressLogs (Source.chainId factory) logs);;
      let logIntervals := buildLogIntervals fromBlock toBlock logs in
      forEach (λ logInterval,
        modify (pushBlockCallback (endBlock logInterval)
                  (FactoryChildAddressCallback factory logInterval))) logIntervals;;
      r ← markCompleted factoryChildAddressProgressTrackers
             set_factoryChildAddressProgressTrackers (Source.id factory) (fromBlock, toBlock);
      (if isUpdated r then
         s ← get;
         match factoryLogFilterProgressTrackers s !! Source.id factory with
         | None => throw (TypeError "undefined tracker")
         | Some t =>
             let requiredIntervals :=
               intervalIntersection [(prevCheckpoint r + 1, newCheckpoint r)] (getRequired t) in
             let factoryLogFilterChunks :=
               getChunks requiredIntervals (maxChunkSizeOf factory s) in
             modify (addChunkTasks (FACTORY_LOG_FILTER factory) factoryLogFilterChunks)
         end
       else mret tt);;
      modify (perform (Logged trace_
                (CompletedTask (FACTORY_CHILD_ADDRESS factory fromBlock toBlock))))
  | _ => throw (TypeError "not a factory source")
  end.

(** The loop over [requiredBlocks] of [blockFilterTaskWorker]. *)
Fixpoint blockFilterWalk (blockFilter : Source.t) (prevBlockNumber : Z)
    (requiredBlocks : list Z) : M unit :=
  match requiredBlocks with
  | [] => mret tt
  | blockNumber :: rest =>
      hasBlock ← external (λ t, getBlock w t (Source.chainId blockFilter) blockNumber);
      (if hasBlock : bool then
         storeInsert (insertBlockFilterInterval (Source.chainId blockFilter)
           (Source.criteria blockFilter) None (prevBlockNumber, blockNumber))
       else
         modify (pushBlockCallback blockNumber
                   (BlockFilterCallback blockFilter prevBlockNumber blockNumber)));;
      blockFilterWalk blockFilter (blockNumber + 1) rest
  end.

(** A loop that does not end (an interval below 0) pushes blocks until
    memory runs out: it is kept as the error [RpcError "does not return"]. *)
Definition blockFilterTaskWorker (blockFilter : Source.t) (fromBlock toBlock : Z) : M unit :=
  match Source.criteria blockFilter with
  | BlockFilterCriteria every offset =>
      match blockFilterRequiredBlocks (blockFilterFuel fromBlock toBlock)
              every offset fromBlock toBlock with
      | None => throw (RpcError "does not return")
      | Some requiredBlocks =>
          blockFilterWalk blockFilter fromBlock requiredBlocks;;
          markCompleted blockFilterProgressTrackers set_blockFilterProgressTrackers
            (Source.id blockFilter) (fromBlock, toBlock);;
          modify enqueueBlockTasks;;
          modify (perform (Logged trace_
                    (CompletedTask (BLOCK_FILTER blockFilter fromBlock toBlock))))
      end
  | _ => throw (TypeError "not a block source")
  end.

Definition blockTaskWorker (blockNumber : Z) (callbacks : list BlockCallback) : M unit :=
  block ← _eth_getBlockByNumber blockNumber;
  forEach (runCallback block) callbacks;;
  s ← get;
  let '(tracker, newBlockCheckpoint) :=
    addCompletedBlock blockNumber (timestamp block) (blockProgressTracker s) in
  modify (set_blockProgressTracker tracker);;
  match newBlockCheckpoint with
  | Some c =>
      modify (perform (DebouncedCheckpoint (cbTimestamp c) (networkChainId (network s))
                         (cbNumber c)))
  | None => mret tt
  end;;
  modify (perform (Logged trace_ (CompletedTask (BLOCK blockNumber callbacks)))).

(** The [worker] of [buildQueue]. *)
Definition worker (task : HistoricalSyncTask) : M unit :=
  match task with
  | LOG_FILTER logFilter fromBlock toBlock => logFilterTaskWorker logFilter fromBlock toBlock
  | FACTORY_CHILD_ADDRESS factory fromBlock toBlock =>
      factoryChildAddressTaskWorker factory fromBlock toBlock
  | FACTORY_LOG_FILTER factory fromBlock toBlock =>
      factoryLogFilterTaskWorker factory fromBlock toBlock
  | BLOCK_FILTER blockFilter fromBlock toBlock =>
      blockFilterTaskWorker blockFilter fromBlock toBlock
  | BLOCK blockNumber callbacks => blockTaskWorker blockNumber callbacks
  | TRACE_FILTER _ _ _ => mret tt
  end;;
  s ← get;
  if bool_decide (0 < queue_size (queue s))%nat || bool_decide (1 < pending (queue s))%nat
  then mret tt
  else if isShuttingDown s then mret tt
  else
    modify (perform ClearedProgressLogInterval);;
    modify (perform (Logged info_ CompletedSync));;
    modify (perform Emitted_syncComplete).

End Workers.

(** ** [onError] and [kill] *)

(** The [onError] of [buildQueue]: one case per kind of task, each logging a
    warning and adding a copy of the task. *)
Definition onError (error : Error) (task : HistoricalSyncTask) (s : Service) : Service :=
  if isShuttingDown s then s
  else
    match task with
    | LOG_FILTER logFilter fromBlock toBlock =>
        let s1 := perform (Logged warn_ (TaskFailedRetrying task error)) s in
        let priority := MAX_SAFE_INTEGER - fromBlock in
        queue_addTask (LOG_FILTER logFilter fromBlock toBlock) priority s1
    | FACTORY_CHILD_ADDRESS factory fromBlock toBlock =>
        let s1 := perform (Logged warn_ (TaskFailedRetrying task error)) s in
        let priority := MAX_SAFE_INTEGER - fromBlock in
        queue_addTask (FACTORY_CHILD_ADDRESS factory fromBlock toBlock) priority s1
    | FACTORY_LOG_FILTER factory fromBlock toBlock =>
        let s1 := perform (Logged warn_ (TaskFailedRetrying task error)) s in
        let priority := MAX_SAFE_INTEGER - fromBlock in
        queue_addTask (FACTORY_LOG_FILTER factory fromBlock toBlock) priority s1
    | BLOCK blockNumber callbacks =>
        let s1 := perform (Logged warn_ (TaskFailedRetrying task error)) s in
        let priority := MAX_SAFE_INTEGER - blockNumber in
        queue_addTask (BLOCK blockNumber callbacks) priority s1
    | BLOCK_FILTER blockFilter fromBlock toBlock =>
        let s1 := perform (Logged warn_ (TaskFailedRetrying task error)) s in
        let priority := MAX_SAFE_INTEGER - fromBlock in
        queue_addTask (BLOCK_FILTER blockFilter fromBlock toBlock) priority s1
    | TRACE_FILTER traceFilter fromBlock toBlock =>
        let s1 := perform (Logged warn_ (TaskFailedRetrying task error)) s in
        let priority := MAX_SAFE_INTEGER - fromBlock in
        queue_addTask (TRACE_FILTER traceFilter fromBlock toBlock) priority s1
    end.

Definition kill (s : Service) : Service :=
  let s1 := set_isShuttingDown true s in
  let s2 := perform ClearedProgressLogInterval s1 in
  let s3 := set_queue (queue_pause (queue s2)) s2 in
  let s4 := set_queue (queue_clear (queue s3)) s3 in
  perform (Logged debug_ KilledService) s4.

(** The priority a task is first added with: [setup] and the child-address
    worker use [fromBlock], [enqueueBlockTasks] uses [blockNumber]. *)
Definition originalPriority (task : HistoricalSyncTask) : Z :=
  match task with
  | LOG_FILTER _ fromBlock _ | FACTORY_CHILD_ADDRESS _ fromBlock _
  | FACTORY_LOG_FILTER _ fromBlock _ | BLOCK_FILTER _ fromBlock _
  | TRACE_FILTER _ fromBlock _ => MAX_SAFE_INTEGER - fromBlock
  | BLOCK blockNumber _ => MAX_SAFE_INTEGER - blockNumber
  end.

(** ** [setup] *)

Record ValidatedRange : Type := mkValidatedRange {
  isHistoricalSyncRequired : bool;
  validStartBlock : Z;
  validEndBlock : Z;
}.

(** Modelled from the spec: [validateHistoricalBlockRange], "a source is
    skippable (no historical work) if its effective start block is above the
    finalized block number"; otherwise the end is "min(endBlock ?? infinity,
    finalizedBlockNumber)". *)
Definition validateHistoricalBlockRange (startBlock : Z) (endBlock : option Z)
    (finalizedBlockNumber latestBlockNumber : Z) : ValidatedRange :=
  if bool_decide (finalizedBlockNumber < startBlock)
  then {| isHistoricalSyncRequired := false; validStartBlock := startBlock;
          validEndBlock := default finalizedBlockNumber endBlock |}
  else {| isHistoricalSyncRequired := true; validStartBlock := startBlock;
          validEndBlock := Z.min (default finalizedBlockNumber endBlock) finalizedBlockNumber |}.

Definition setTracker (trackers : Service → gmap string ProgressTracker)
    (set_trackers : gmap string ProgressTracker → Service → Service)
    (id : string) (t : ProgressTracker) (s : Service) : Service :=
  set_trackers (<[id := t]> (trackers s)) s.

(** [if (chunks.length > 0) this.common.logger.debug(...)]. *)
Definition logAddedTasks (kind : string) (chunks required : list interval) (source : string)
    (s : Service) : Service :=
  if bool_decide (0 < length chunks)%nat
  then perform (Logged debug_ (AddedTasks kind (intervalSum required) source)) s
  else s.

Section Setup.

Variable w : World.
Variables latestBlockNumber finalizedBlockNumber : Z.

(** The source is skipped: its tracker is created complete. *)
Definition finishedTracker (startBlock : Z) : ProgressTracker :=
  {| target := (startBlock, finalizedBlockNumber);
     completed := [(startBlock, finalizedBlockNumber)] |}.

(** A source whose tasks are the chunks of the required intervals of its
    one tracker: the "log", "block" and "function" cases. *)
Definition setupSimple (trackers : Service → gmap string ProgressTracker)
    (set_trackers : gmap string ProgressTracker → Service → Service)
    (completedIntervals : list interval) (task : Z → Z → HistoricalSyncTask)
    (kind : string) (maxChunkSize : Z) (source : Source.t) (s : Service) : Service :=
  let v := validateHistoricalBlockRange (Source.startBlock source) (Source.endBlock source)
             finalizedBlockNumber latestBlockNumber in
  if negb (isHistoricalSyncRequired v) then
    let s1 := setTracker trackers set_trackers (Source.id source)
                (finishedTracker (validStartBlock v)) s in
    perform (Logged warn_ (SkippingHistoricalSync (Source.id source))) s1
  else
    let tracker := {| target := (validStartBlock v, validEndBlock v);
                      completed := completedIntervals |} in
    let s1 := setTracker trackers set_trackers (Source.id source) tracker s in
    let required := getRequired tracker in
    let chunks := getChunks required maxChunkSize in
    let s2 := addChunkTasks task chunks s1 in
    let s3 := logAddedTasks kind chunks required (Source.contractName source) s2 in
    perform (Logged info_ (StartedSync (Source.contractName source))) s3.

(** The "factory" case. *)
Definition setupFactory (address : Address) (eventSelector : Hex) (source : Source.t)
    (s : Service) : Service :=
  let v := validateHistoricalBlockRange (Source.startBlock source) (Source.endBlock source)
             finalizedBlockNumber latestBlockNumber in
  if negb (isHistoricalSyncRequired v) then
    let s1 := setTracker factoryChildAddressProgressTrackers
                set_factoryChildAddressProgressTrackers (Source.id source)
                (finishedTracker (validStartBlock v)) s in
    let s2 := setTracker factoryLogFilterProgressTrackers
                set_factoryLogFilterProgressTrackers (Source.id source)
                (finishedTracker (validStartBlock v)) s1 in
    perform (Logged warn_ (SkippingHistoricalSync (Source.contractName source))) s2
  else
    let completedFactoryChildAddressIntervals :=
      getLogFilterIntervals w (Source.chainId source)
        (LogFilterCriteria [address] [eventSelector] false) in
    let factoryChildAddressProgressTracker :=
      {| target := (validStartBlock v, validEndBlock v);
         completed := completedFactoryChildAddressIntervals |} in
    let s1 := setTracker factoryChildAddressProgressTrackers
                set_factoryChildAddressProgressTrackers (Source.id source)
                factoryChildAddressProgressTracker s in
    let requiredFactoryChildAddressIntervals :=
      getRequired factoryChildAddressProgressTracker in
    let factoryChildAddressTaskChunks :=
      getChunks requiredFactoryChildAddressIntervals (maxChunkSizeOf source s1) in
    let s2 := addChunkTasks (FACTORY_CHILD_ADDRESS source) factoryChildAddressTaskChunks s1 in
    let s3 := logAddedTasks "FACTORY_CHILD_ADDRESS" factoryChildAddressTaskChunks
                requiredFactoryChildAddressIntervals (Source.id source) s2 in
    let completedFactoryLogFilterIntervals :=
      getFactoryLogFilterIntervals w (Source.chainId source) (Source.criteria source) in
    let factoryLogFilterProgressTracker :=
      {| target := (validStartBlock v, validEndBlock v);
         completed := completedFactoryLogFilterIntervals |} in
    let s4 := setTracker factoryLogFilterProgressTrackers
                set_factoryLogFilterProgressTrackers (Source.id source)
                factoryLogFilterProgressTracker s3 in
    let requiredFactoryLogFilterIntervals := getRequired factoryLogFilterProgressTracker in
    let missingFactoryLogFilterIntervals :=
      intervalDifference requiredFactoryLogFilterIntervals
        requiredFactoryChildAddressIntervals in
    let missingFactoryLogFilterTaskChunks :=
      getChunks missingFactoryLogFilterIntervals (maxChunkSizeOf source s4) in
    let s5 := addChunkTasks (FACTORY_LOG_FILTER source) missingFactoryLogFilterTaskChunks s4 in
    let s6 := logAddedTasks "FACTORY_LOG_FILTER" missingFactoryLogFilterTaskChunks
                missingFactoryLogFilterIntervals (Source.contractName source) s5 in
    perform (Logged info_ (StartedSync (Source.contractName source))) s6.

(** The body of [this.sources.map]: [switch (source.type)]. *)
Definition setupSource (s : Service) (source : Source.t) : Service :=
  match Source.criteria source with
  | LogFilterCriteria _ _ _ =>
      setupSimple logFilterProgressTrackers set_logFilterProgressTrackers
        (getLogFilterIntervals w (Source.chainId source) (Source.criteria source))
        (LOG_FILTER source) "LOG_FILTER" (maxChunkSizeOf source s) source s
  | FactoryCriteria address eventSelector _ _ => setupFactory address eventSelector source s
  | BlockFilterCriteria _ _ =>
      setupSimple blockFilterProgressTrackers set_blockFilterProgressTrackers
        (getBlockFilterIntervals w (Source.chainId source) (Source.criteria source))
        (BLOCK_FILTER source) "BLOCK_FILTER" (defaultMaxBlockRange (network s)) source s
  | TraceFilterCriteria _ =>
      setupSimple traceFilterProgressTrackers set_traceFilterProgressTrackers
        (getTraceFilterIntervals w (Source.chainId source) (Source.criteria source))
        (TRACE_FILTER source) "TRACE_FILTER" (maxChunkSizeOf source s) source s
  end.

(** [setup]: the sources are taken in order. *)
Definition setup (s : Service) : Service :=
  let s1 := set_isShuttingDown false s in
  let s2 := set_blockTasksEnqueuedCheckpoint (Fin 0) s1 in
  fold_left setupSource (sources s2) s2.

End Setup.

(** ** The queue at work, one task at a time *)

(** Modelled from the spec: [queue.pending] becomes [n]. *)
Definition set_pending (n : nat) (q : Queue) : Queue :=
  {| tasks := tasks q; pending := n; isPaused := isPaused q |}.

(** Modelled from the spec: the queue with [concurrency = 1]. The task of
    highest priority is taken off the queue and given to the worker; "on
    worker exception: onError({error, task, queue}) is invoked". The result
    is the task that ran and the service after it. *)
Definition runNextTask (w : World) (s : Service) : option (HistoricalSyncTask * Service) :=
  if isPaused (queue s) then None
  else
    match tasks (queue s) with
    | [] => None
    | (task, _) :: rest =>
        let s1 := set_queue {| tasks := rest; pending := 1; isPaused := false |} s in
        let '(r, s2) := worker w task s1 in
        let s3 := match r with inl e => onError e task s2 | inr _ => s2 end in
        Some (task, set_queue (set_pending 0 (queue s3)) s3)
    end.

(** At most [n] tasks are run; the tasks that ran are listed in order. *)
Fixpoint runTasks (w : World) (n : nat) (s : Service) : list HistoricalSyncTask * Service :=
  match n with
  | O => ([], s)
  | S n' =>
      match runNextTask w s with
      | None => ([], s)
      | Some (task, s') => let '(ts, s'') := runTasks w n' s' in (task :: ts, s'')
      end
  end.

(** [start()]: completion is declared at once when no task was added, and
    the queue is started. *)
Definition start (s : Service) : Service :=
  let s1 :=
    if bool_decide (queue_size (queue s) = 0)%nat
    then perform Emitted_syncComplete
           (perform (Logged info_ CompletedSync) (perform ClearedProgressLogInterval s))
    else s in
  set_queue {| tasks := tasks (queue s1); pending := pending (queue s1); isPaused := false |} s1.

Definition blockNumbersOf (ts : list HistoricalSyncTask) : list Z :=
  omap (λ t, match t with BLOCK n _ => Some n | _ => None end) ts.


Definition insertCount (es : list Effect) : nat :=
  length (List.filter (λ e, match e with Inserted _ => true | _ => false end) es).

(** What the service keeps of its progress: everything but the trace of
    effects and the count of external calls. *)
Definition progressOf (s : Service) :=
  (logFilterProgressTrackers s, factoryChildAddressProgressTrackers s,
   factoryLogFilterProgressTrackers s, blockFilterProgressTrackers s,
   traceFilterProgressTrackers s, blockProgressTracker s, blockCallbacks s,
   blockTasksEnqueuedCheckpoint s, queue s, isShuttingDown s).

(** The kind and the range (or the block and the number of callbacks) of a
    task. *)
Definition taskSummary (t : HistoricalSyncTask) : string * Z * Z :=
  match t with
  | LOG_FILTER _ a b => ("LOG_FILTER", a, b)
  | FACTORY_CHILD_ADDRESS _ a b => ("FACTORY_CHILD_ADDRESS", a, b)
  | FACTORY_LOG_FILTER _ a b => ("FACTORY_LOG_FILTER", a, b)
  | BLOCK_FILTER _ a b => ("BLOCK_FILTER", a, b)
  | TRACE_FILTER _ a b => ("TRACE_FILTER", a, b)
  | BLOCK n callbacks => ("BLOCK", n, Z.of_nat (length callbacks))
  end.

(** ** Concrete services *)

Module Example.

Definition mainnet : Network :=
  {| networkName := "mainnet"; networkChainId := 1; defaultMaxBlockRange := 200;
     maxHistoricalTaskConcurrency := 1 |}.

Definition blockAt (n : Z) : HistoricalBlock :=
  {| number := n; timestamp := n; transactions := [] |}.

(** A chain without any log, and an empty sync store except for
    [cachedLogFilterIntervals]. Nothing fails. *)
Definition quietWorld (cachedLogFilterIntervals : Criteria → list interval) : World :=
  {| eth_getLogs := λ _ _ _ _ _, inr [];
     eth_getBlockByNumber := λ _ n, inr (Some (blockAt n));
     eth_getTransactionReceipt := λ _ h, inr (Some h);
     getLogFilterIntervals := λ _ c, cachedLogFilterIntervals c;
     getFactoryLogFilterIntervals := λ _ _, [];
     getBlockFilterIntervals := λ _ _, [];
     getTraceFilterIntervals := λ _ _, [];
     getFactoryChildAddresses := λ _ _ _ _ _, inr [];
     getBlock := λ _ _ _, inr false;
     insertFails := λ _ _, None |}.

(** A factory on blocks 0 to 100 and a log filter on blocks 0 to 399. *)
Definition F : Source.t :=
  Source.mk "factory_F" 1 "F" 0 (Some 100) None
    (FactoryCriteria "0xfactory" "0xcreated" [] false).

Definition X : Source.t :=
  Source.mk "log_X" 1 "X" 0 (Some 399) None (LogFilterCriteria ["0xa"] [] false).

(** The store already holds the factory's creation logs of blocks 51 to
    100, kept as a log filter on the factory address, and nothing else. *)
Definition halfDiscovered : World :=
  quietWorld (λ c,
    match c with
    | LogFilterCriteria a _ _ => if bool_decide (a = ["0xfactory"]) then [(51, 100)] else []
    | _ => []
    end).

Definition ready : Service := start (setup halfDiscovered 1010 1000 (newService mainnet [F; X])).

(** The ten tasks of the whole run, and the service at its end. *)
Definition ran : list HistoricalSyncTask * Service := runTasks halfDiscovered 10 ready.


(** A service whose only tracker has nothing left to do. *)
Definition allDone : Service :=
  set_logFilterProgressTrackers
    {[ "log_X" := {| target := (0, 100); completed := [(0, 100)] |} ]}
    (newService mainnet [X]).

(** A function-call source on blocks 0 to 100. *)
Definition T : Source.t :=
  Source.mk "function_T" 1 "T" 0 (Some 100) None (TraceFilterCriteria ["0xb"]).

Definition emptyStore : World := quietWorld (λ _, []).

Definition tracing : Service := start (setup emptyStore 1010 1000 (newService mainnet [T])).

(** Two block-filter callbacks for block 7, and a store whose second
    insert (the third external call) fails. *)
Definition B : Source.t :=
  Source.mk "block_B" 1 "B" 0 (Some 100) None (BlockFilterCriteria 1 0).

Definition twoCallbacks : list BlockCallback :=
  [BlockFilterCallback B 6 7; BlockFilterCallback B 7 7].

Definition failsOnce : World :=
  {| eth_getLogs := λ _ _ _ _ _, inr [];
     eth_getBlockByNumber := λ _ n, inr (Some (blockAt n));
     eth_getTransactionReceipt := λ _ h, inr (Some h);
     getLogFilterIntervals := λ _ _, [];
     getFactoryLogFilterIntervals := λ _ _, [];
     getBlockFilterIntervals := λ _ _, [];
     getTraceFilterIntervals := λ _ _, [];
     getFactoryChildAddresses := λ _ _ _ _ _, inr [];
     getBlock := λ _ _ _, inr false;
     insertFails := λ t _, if bool_decide (t = 2%nat) then Some (StoreError "busy") else None |}.

Definition idle : Service := newService mainnet [B].

Definition someLogs : list RpcLog :=
  [ {| blockNumber := 57; transactionHash := "0x02"; logIndex := 0 |};
    {| blockNumber := 45; transactionHash := "0x01"; logIndex := 3 |};
    {| blockNumber := 57; transactionHash := "0x03"; logIndex := 1 |} ].

End Example.

(** ** Measures and invariants of the service *)

(** The number of callbacks that wait in [blockCallbacks]. *)
Definition waitingCallbacks (o : gmap Z (list BlockCallback)) : nat :=
  sum_list_with (λ entry, length entry.2) (map_to_list o).

(** The number of callbacks carried by the BLOCK tasks of the queue. *)
Definition queuedCallbacks (ts : list (HistoricalSyncTask * Z)) : nat :=
  sum_list_with
    (λ x, match x.1 with BLOCK _ callbacks => length callbacks | _ => 0%nat end) ts.

(** The first block of a task: [fromBlock], or [blockNumber] for a BLOCK
    task. *)
Definition firstBlock (task : HistoricalSyncTask) : Z :=
  match task with
  | LOG_FILTER _ fromBlock _ | FACTORY_CHILD_ADDRESS _ fromBlock _
  | FACTORY_LOG_FILTER _ fromBlock _ | BLOCK_FILTER _ fromBlock _
  | TRACE_FILTER _ fromBlock _ => fromBlock
  | BLOCK blockNumber _ => blockNumber
  end.

(** The tasks wait in the order of their priorities, and the priority of
    each is [Number.MAX_SAFE_INTEGER] minus its first block. *)
Definition queueInOrder (s : Service) : Prop :=
  StronglySorted (λ x y, y.2 <= x.2) (tasks (queue s))
  ∧ Forall (λ x, x.2 = MAX_SAFE_INTEGER - firstBlock x.1) (tasks (queue s)).

(** The number of [syncComplete] events emitted. *)
Definition syncCompleteCount (es : list Effect) : nat :=
  length (List.filter (λ e, match e with Emitted_syncComplete => true | _ => false end) es).

(** [a <= b] on numbers that may be [Infinity]. *)
Definition js_leq (a b : jsnum) : Prop :=
  match a, b with
  | Fin x, Fin y => x <= y
  | _, PInf => True
  | PInf, Fin _ => False
  end.

(** A computation keeps [P] when [P] holds after it, whether it returns or
    throws, if [P] held before. *)
Definition preserves {A : Type} (P : Service → Prop) (c : M A) : Prop :=
  ∀ s r s', P s → c s = (r, s') → P s'.

(** The sync store leaves nothing to fetch for a source: historical sync is
    not required, or the tracker (both trackers of a factory) built from the
    intervals of the store has no required interval. *)
Definition nothingRequired (w : World) (latestBlockNumber finalizedBlockNumber : Z)
    (source : Source.t) : Prop :=
  let v := validateHistoricalBlockRange (Source.startBlock source) (Source.endBlock source)
             finalizedBlockNumber latestBlockNumber in
  let required completed :=
    getRequired {| target := (validStartBlock v, validEndBlock v); completed := completed |} in
  isHistoricalSyncRequired v = true →
  match Source.criteria source with
  | LogFilterCriteria _ _ _ =>
      required (getLogFilterIntervals w (Source.chainId source) (Source.criteria source)) = []
  | FactoryCriteria address eventSelector _ _ =>
      required (getLogFilterIntervals w (Source.chainId source)
                  (LogFilterCriteria [address] [eventSelector] false)) = []
      ∧ required (getFactoryLogFilterIntervals w (Source.chainId source)
                    (Source.criteria source)) = []
  | BlockFilterCriteria _ _ =>
      required (getBlockFilterIntervals w (Source.chainId source) (Source.criteria source)) = []
  | TraceFilterCriteria _ =>
      required (getTraceFilterIntervals w (Source.chainId source) (Source.criteria source)) = []
  end.






(** ** More concrete services *)

Module Cases.

(** The store has the whole range of the log filter [Example.X]. *)
Definition cached : World := Example.quietWorld (λ _, [(0, 399)]).

(** An RPC that has no block, and one whose [eth_getLogs] fails. *)
Definition noBlock : World :=
  {| eth_getLogs := λ _ _ _ _ _, inr [];
     eth_getBlockByNumber := λ _ _, inr None;
     eth_getTransactionReceipt := λ _ h, inr (Some h);
     getLogFilterIntervals := λ _ _, [];
     getFactoryLogFilterIntervals := λ _ _, [];
     getBlockFilterIntervals := λ _ _, [];
     getTraceFilterIntervals := λ _ _, [];
     getFactoryChildAddresses := λ _ _ _ _ _, inr [];
     getBlock := λ _ _ _, inr false;
     insertFails := λ _ _, None |}.

Definition rpcDown : World :=
  {| eth_getLogs := λ _ _ _ _ _, inl (RpcError "timeout");
     eth_getBlockByNumber := λ _ n, inr (Some (Example.blockAt n));
     eth_getTransactionReceipt := λ _ h, inr (Some h);
     getLogFilterIntervals := λ _ _, [];
     getFactoryLogFilterIntervals := λ _ _, [];
     getBlockFilterIntervals := λ _ _, [];
     getTraceFilterIntervals := λ _ _, [];
     getFactoryChildAddresses := λ _ _ _ _ _, inr [];
     getBlock := λ _ _ _, inr false;
     insertFails := λ _ _, None |}.

(** The log filter [Example.X] alone, after [setup] on an empty store. *)
Definition logOnly : Service :=
  setup Example.emptyStore 1010 1000 (newService Example.mainnet [Example.X]).

(** A BLOCK task for block 7 waits alone in a started queue. *)
Definition oneBlockTask : Service :=
  start (queue_addTask (BLOCK 7 Example.twoCallbacks) (MAX_SAFE_INTEGER - 7) Example.idle).

(** The service while its last task, a TRACE_FILTER task, is in flight. *)
Definition lastTaskInFlight : Service :=
  set_queue {| tasks := []; pending := 1; isPaused := false |} Example.tracing.

Definition emptyInterval : LogInterval :=
  {| startBlock := 0; endBlock := 7; logs := []; transactionHashes := ∅ |}.

(** The log filter [Example.X] alone, with an RPC whose [eth_getLogs] fails,
    after [setup], [start] and two tasks, which both failed. *)
Definition retried : Service :=
  (runTasks rpcDown 2
     (start (setup rpcDown 1010 1000 (newService Example.mainnet [Example.X])))).2.

End Cases.

(** * Properties *)

(** ** Sorted lists of block numbers *)

Lemma StronglySorted_le_NoDup_lt (l : list Z) :
  StronglySorted Z.le l → NoDup l → StronglySorted Z.lt l.
Proof.
  induction 1 as [|x l Hs IH Hall]; intros Hnd; [constructor|].
  apply NoDup_cons in Hnd as [Hx Hnd]. constructor; [by apply IH|].
  apply Forall_forall. intros y Hy.
  rewrite Forall_forall in Hall. specialize (Hall y Hy).
  assert (x ≠ y) by (intros ->; done). lia.
Qed.

Lemma StronglySorted_lt_snoc (l : list Z) (x : Z) :
  StronglySorted Z.lt l → (∀ y, y ∈ l → y < x) → StronglySorted Z.lt (l ++ [x]).
Proof.
  induction 1 as [|y l Hs IH Hall]; intros Hlt; simpl.
  - repeat constructor.
  - constructor.
    + apply IH. intros z Hz. apply Hlt. by right.
    + apply Forall_app. split; [done|]. constructor; [|constructor].
      apply Hlt. by left.
Qed.

Lemma StronglySorted_lt_last (l : list Z) (x : Z) :
  StronglySorted Z.lt l → x ∈ l → (∀ y, y ∈ l → y <= x) → last l = Some x.
Proof.
  induction 1 as [|y l Hs IH Hall]; intros Hx Hmax.
  - by apply elem_of_nil in Hx.
  - destruct l as [|z l'].
    + apply list_elem_of_singleton in Hx as ->. done.
    + change (last (y :: z :: l')) with (last (z :: l')).
      apply IH.
      * apply elem_of_cons in Hx as [->|Hx]; [|done].
        rewrite Forall_forall in Hall.
        assert (y < z) by (apply Hall; by left).
        assert (z <= y) by (apply Hmax; right; by left). lia.
      * intros w Hw. apply Hmax. by right.
Qed.

Lemma sortedKeys_elem_of {V : Type} (o : gmap Z V) (k : Z) :
  k ∈ sortedKeys o ↔ is_Some (o !! k).
Proof.
  unfold sortedKeys. rewrite merge_sort_Permutation.
  rewrite list_elem_of_fmap. split.
  - intros [[k' v] [-> Hin]]. apply elem_of_map_to_list in Hin. by exists v.
  - intros [v Hv]. exists (k, v). split; [done|]. by apply elem_of_map_to_list.
Qed.

Lemma sortedKeys_sorted {V : Type} (o : gmap Z V) : StronglySorted Z.lt (sortedKeys o).
Proof.
  apply StronglySorted_le_NoDup_lt.
  - apply (StronglySorted_merge_sort Z.le).
  - unfold sortedKeys. rewrite merge_sort_Permutation. apply NoDup_fst_map_to_list.
Qed.

(** ** [buildLogIntervals] *)

Lemma groupLogs_logs_default (ls : list RpcLog) acc (b : Z) :
  default [] ((fold_left groupLog ls acc).2 !! b)
  = default [] (acc.2 !! b) ++ filter (λ l, blockNumber l = b) ls.
Proof.
  revert acc. induction ls as [|a ls IH]; intros acc; simpl.
  - by rewrite app_nil_r.
  - rewrite IH. unfold groupLog at 1. simpl. rewrite filter_cons.
    destruct (decide (blockNumber a = b)) as [->|Hne].
    + rewrite lookup_insert_eq. simpl. by rewrite <- app_assoc.
    + by rewrite lookup_insert_ne.
Qed.

Lemma groupLogs_hashes_default (ls : list RpcLog) acc (b : Z) :
  default ∅ ((fold_left groupLog ls acc).1 !! b)
  = default ∅ (acc.1 !! b)
    ∪ list_to_set (transactionHash <$> filter (λ l, blockNumber l = b) ls).
Proof.
  revert acc. induction ls as [|a ls IH]; intros acc; simpl.
  - cbn. by rewrite union_empty_r_L.
  - rewrite IH. unfold groupLog at 1. simpl. rewrite filter_cons.
    destruct (decide (blockNumber a = b)) as [->|Hne].
    + rewrite lookup_insert_eq. cbn. by rewrite (assoc_L (∪)).
    + by rewrite lookup_insert_ne.
Qed.

Lemma groupLogs_hashes_is_Some (ls : list RpcLog) acc (b : Z) :
  is_Some ((fold_left groupLog ls acc).1 !! b)
  ↔ is_Some (acc.1 !! b) ∨ ∃ l, l ∈ ls ∧ blockNumber l = b.
Proof.
  revert acc. induction ls as [|a ls IH]; intros acc; simpl.
  - split; [by left|]. intros [?|(l & Hl & _)]; [done|]. by apply elem_of_nil in Hl.
  - rewrite IH. unfold groupLog at 1. simpl. split.
    + intros [Hs|(l & Hl & Hb)].
      * destruct (decide (blockNumber a = b)) as [<-|Hne].
        -- right. exists a. split; [by left|done].
        -- rewrite lookup_insert_ne in Hs by done. by left.
      * right. exists l. split; [by right|done].
    + intros [Hs|(l & Hl & Hb)].
      * left. destruct (decide (blockNumber a = b)) as [<-|Hne].
        -- rewrite lookup_insert_eq. by eexists.
        -- by rewrite lookup_insert_ne.
      * apply elem_of_cons in Hl as [->|Hl].
        -- left. rewrite Hb, lookup_insert_eq. by eexists.
        -- right. by exists l.
Qed.

Lemma logRequiredBlocks_elem_of (toBlock : Z) (ls : list RpcLog) (b : Z) :
  b ∈ logRequiredBlocks toBlock ls ↔ b = toBlock ∨ ∃ l, l ∈ ls ∧ blockNumber l = b.
Proof.
  unfold logRequiredBlocks, groupLogs.
  assert (Hk : ∀ k, k ∈ sortedKeys (fold_left groupLog ls (∅, ∅)).1
                 ↔ ∃ l, l ∈ ls ∧ blockNumber l = k).
  { intros k. rewrite sortedKeys_elem_of, groupLogs_hashes_is_Some. simpl.
    rewrite lookup_empty. split; [|by right].
    intros [[? ?]|?]; [done|done]. }
  case_bool_decide as Hin.
  - rewrite Hk. split; [by right|]. intros [->|?]; [by apply Hk|done].
  - rewrite elem_of_app, list_elem_of_singleton, Hk. tauto.
Qed.

Lemma logRequiredBlocks_sorted (fromBlock toBlock : Z) (ls : list RpcLog) :
  (∀ l, l ∈ ls → fromBlock <= blockNumber l <= toBlock) →
  StronglySorted Z.lt (logRequiredBlocks toBlock ls).
Proof.
  intros Hrange. unfold logRequiredBlocks.
  pose proof (sortedKeys_sorted (groupLogs ls).1) as Hs.
  case_bool_decide as Hin; [done|].
  apply StronglySorted_lt_snoc; [done|]. intros y Hy.
  assert (y ≠ toBlock) by (intros ->; done).
  apply sortedKeys_elem_of in Hy. unfold groupLogs in Hy.
  apply groupLogs_hashes_is_Some in Hy as [Hy|(l & Hl & <-)].
  - simpl in Hy. rewrite lookup_empty in Hy. by destruct Hy.
  - specialize (Hrange l Hl). lia.
Qed.

Lemma logRequiredBlocks_last (fromBlock toBlock : Z) (ls : list RpcLog) :
  (∀ l, l ∈ ls → fromBlock <= blockNumber l <= toBlock) →
  last (logRequiredBlocks toBlock ls) = Some toBlock.
Proof.
  intros Hrange.
  apply StronglySorted_lt_last.
  - by eapply logRequiredBlocks_sorted.
  - apply logRequiredBlocks_elem_of. by left.
  - intros y Hy. apply logRequiredBlocks_elem_of in Hy as [->|(l & Hl & <-)]; [lia|].
    specialize (Hrange l Hl). lia.
Qed.

Lemma walkRequiredBlocks_endBlock tx lg (prev : Z) (bs : list Z) :
  endBlock <$> walkRequiredBlocks tx lg prev bs = bs.
Proof. revert prev. induction bs as [|b bs IH]; intros prev; simpl; [done|]. by rewrite IH. Qed.

Lemma walkRequiredBlocks_next tx lg (prev : Z) (bs : list Z) (i : nat) (a b : LogInterval) :
  walkRequiredBlocks tx lg prev bs !! i = Some a →
  walkRequiredBlocks tx lg prev bs !! S i = Some b →
  startBlock b = endBlock a + 1.
Proof.
  revert prev i. induction bs as [|x bs IH]; intros prev i Ha Hb; simpl in *; [done|].
  destruct i as [|i].
  - simpl in Ha. injection Ha as <-. simpl in Hb.
    destruct bs as [|y bs]; simpl in Hb; [done|]. by injection Hb as <-.
  - simpl in Ha, Hb. by eapply IH.
Qed.

Lemma walkRequiredBlocks_elem tx lg (prev : Z) (bs : list Z) (a : LogInterval) :
  StronglySorted Z.lt bs → Forall (λ b, prev <= b) bs →
  a ∈ walkRequiredBlocks tx lg prev bs →
  startBlock a <= endBlock a
  ∧ endBlock a ∈ bs
  ∧ logs a = default [] (lg !! endBlock a)
  ∧ transactionHashes a = default ∅ (tx !! endBlock a).
Proof.
  revert prev. induction bs as [|x bs IH]; intros prev Hs Hge Ha; simpl in Ha.
  - by apply elem_of_nil in Ha.
  - apply StronglySorted_inv in Hs as [Hs Hall].
    apply Forall_cons in Hge as [Hx Hge].
    apply elem_of_cons in Ha as [->|Ha]; simpl.
    + split; [done|]. split; [by left|done].
    + assert (Hge' : Forall (λ b, x + 1 <= b) bs).
      { eapply Forall_impl; [exact Hall|]. simpl. intros; lia. }
      destruct (IH (x + 1) Hs Hge' Ha) as (H1 & H2 & H3 & H4).
      split; [done|]. split; [by right|done].
Qed.

(** C7. For [fromBlock <= toBlock] and logs whose block numbers lie in the
    range, the intervals of [buildLogIntervals] tile [[fromBlock, toBlock]]:
    the first starts at [fromBlock], each next one starts one block after
    the end of the one before, the last ends at [toBlock] (with no log and no
    hash when no log is at [toBlock]), no interval is empty, and the logs of
    an interval are the logs of its end block, every log being in one. *)
Theorem buildLogIntervals_tiles (fromBlock toBlock : Z) (ls : list RpcLog) :
  fromBlock <= toBlock →
  (∀ l, l ∈ ls → fromBlock <= blockNumber l <= toBlock) →
  let r := buildLogIntervals fromBlock toBlock ls in
  startBlock <$> head r = Some fromBlock
  ∧ endBlock <$> last r = Some toBlock
  ∧ (∀ i a b, r !! i = Some a → r !! S i = Some b → startBlock b = endBlock a + 1)
  ∧ (∀ a, a ∈ r →
       startBlock a <= endBlock a
       ∧ logs a = filter (λ l, blockNumber l = endBlock a) ls
       ∧ transactionHashes a = list_to_set (transactionHash <$> logs a))
  ∧ (∀ l, l ∈ ls → ∃ a, a ∈ r ∧ l ∈ logs a)
  ∧ ((∀ l, l ∈ ls → blockNumber l ≠ toBlock) →
       ∃ a, last r = Some a ∧ logs a = [] ∧ transactionHashes a = ∅).
Proof.
  intros Hle Hrange r.
  assert (Hr : r = walkRequiredBlocks (groupLogs ls).1 (groupLogs ls).2 fromBlock
                     (logRequiredBlocks toBlock ls)).
  { subst r. unfold buildLogIntervals. by destruct (groupLogs ls). }
  pose proof (logRequiredBlocks_sorted fromBlock toBlock ls Hrange) as Hsorted.
  pose proof (logRequiredBlocks_last fromBlock toBlock ls Hrange) as Hlast.
  assert (Hge : Forall (λ b, fromBlock <= b) (logRequiredBlocks toBlock ls)).
  { apply Forall_forall. intros b Hb.
    apply logRequiredBlocks_elem_of in Hb as [->|(l & Hl & <-)]; [done|].
    specialize (Hrange l Hl). lia. }
  assert (Hends : endBlock <$> r = logRequiredBlocks toBlock ls).
  { rewrite Hr. apply walkRequiredBlocks_endBlock. }
  assert (Helem : ∀ a, a ∈ r →
       startBlock a <= endBlock a
       ∧ logs a = filter (λ l, blockNumber l = endBlock a) ls
       ∧ transactionHashes a = list_to_set (transactionHash <$> logs a)).
  { intros a Ha. rewrite Hr in Ha.
    apply walkRequiredBlocks_elem in Ha as (H1 & _ & H3 & H4); [|done..].
    assert (Hlogs : logs a = filter (λ l, blockNumber l = endBlock a) ls).
    { rewrite H3. unfold groupLogs. rewrite groupLogs_logs_default. simpl.
      by rewrite lookup_empty. }
    split; [done|]. split; [done|].
    rewrite H4, Hlogs. unfold groupLogs. rewrite groupLogs_hashes_default. simpl.
    rewrite lookup_empty. simpl. by rewrite union_empty_l_L. }
  split; [|split; [|split; [|split; [|split]]]].
  - rewrite Hr. destruct (logRequiredBlocks toBlock ls); [done|done].
  - rewrite <- fmap_last, Hends. done.
  - intros i a b Ha Hb. rewrite Hr in Ha, Hb. by eapply walkRequiredBlocks_next.
  - exact Helem.
  - intros l Hl.
    assert (Hb : blockNumber l ∈ endBlock <$> r).
    { rewrite Hends. apply logRequiredBlocks_elem_of. right. by exists l. }
    apply list_elem_of_fmap in Hb as (a & Hab & Ha).
    exists a. split; [done|].
    destruct (Helem a Ha) as (_ & -> & _).
    apply list_elem_of_filter. split; [done|done].
  - intros Hnone.
    assert (Hl : endBlock <$> last r = Some toBlock) by (rewrite <- fmap_last, Hends; done).
    destruct (last r) as [a|] eqn:Ea; [|done].
    simpl in Hl. injection Hl as Hl.
    exists a. split; [done|].
    assert (Ha : a ∈ r) by (by apply last_Some_elem_of).
    destruct (Helem a Ha) as (_ & Hlogs & Hh).
    assert (logs a = []) as Hnil.
    { rewrite Hlogs, Hl. clear -Hnone. induction ls as [|l ls IH]; [done|].
      rewrite filter_cons. destruct (decide (blockNumber l = toBlock)) as [E|_].
      - exfalso. apply (Hnone l); [by left|done].
      - apply IH. intros l' Hl'. apply Hnone. by right. }
    split; [done|]. rewrite Hh, Hnil. done.
Qed.

(** ** The blocks of a BLOCK_FILTER task *)

Lemma mod_zero_step (n first every : Z) :
  1 <= every → first < n → (n - first) mod every = 0 →
  first + every <= n ∧ (n - (first + every)) mod every = 0.
Proof.
  intros He Hlt Hm.
  apply Z.mod_divide in Hm; [|lia]. destruct Hm as [q Hq].
  assert (1 <= q).
  { destruct (Z_le_gt_dec q 0) as [Hq0|?]; [|lia].
    assert (q * every <= 0) by (apply Z.mul_nonpos_nonneg; lia). lia. }
  split; [nia|].
  apply Z.mod_divide; [lia|]. exists (q - 1). lia.
Qed.

Lemma mod_zero_back (n first every : Z) :
  1 <= every → (n - (first + every)) mod every = 0 → (n - first) mod every = 0.
Proof.
  intros He Hm.
  apply Z.mod_divide in Hm; [|lia]. destruct Hm as [q Hq].
  apply Z.mod_divide; [lia|]. exists (q + 1). lia.
Qed.

(** The loop returns when [every >= 1], and lists, in ascending order, the
    blocks from [first] to [toBlock] that are a multiple of [every] away from
    [first]. *)
Lemma blockFilterLoop_spec (every toBlock : Z) (fuel : nat) (first : Z) :
  1 <= every → (Z.to_nat (toBlock - first + 1) <= fuel)%nat →
  ∃ bs, blockFilterLoop fuel first toBlock every = Some bs
    ∧ StronglySorted Z.lt bs
    ∧ ∀ n, n ∈ bs ↔ first <= n <= toBlock ∧ (n - first) mod every = 0.
Proof.
  intros He. revert first. induction fuel as [|fuel IH]; intros first Hfuel.
  - exists []. assert (toBlock < first) by lia.
    split; [|split; [constructor|]].
    + simpl. by rewrite bool_decide_eq_false_2 by lia.
    + intros n. split; [by intros ?%elem_of_nil|lia].
  - destruct (decide (first <= toBlock)) as [Hle|Hgt].
    + destruct (IH (first + every)) as (bs & Hbs & Hs & Hin); [lia|].
      exists (first :: bs). split; [|split].
      * simpl. rewrite bool_decide_eq_true_2 by done. by rewrite Hbs.
      * constructor; [done|]. apply Forall_forall. intros y Hy.
        apply Hin in Hy. lia.
      * intros n. rewrite elem_of_cons, Hin. split.
        -- intros [->|[Hr Hm]].
           ++ split; [lia|]. by rewrite Z.sub_diag.
           ++ split; [lia|]. by apply mod_zero_back.
        -- intros [Hr Hm]. destruct (decide (n = first)) as [->|Hne]; [by left|].
           right. destruct (mod_zero_step n first every) as [? ?]; [lia..|done|].
           split; [lia|done].
    + exists []. split; [|split; [constructor|]].
      * simpl. by rewrite bool_decide_eq_false_2 by lia.
      * intros n. split; [by intros ?%elem_of_nil|lia].
Qed.

(** Where the filter's [offset] is not above [fromBlock], the worker returns
    and its [requiredBlocks] are the blocks [n] of the range with
    [(n - offset) mod every = 0], and [toBlock]. *)
Lemma blockFilterRequiredBlocks_offset_below (every offset fromBlock toBlock : Z) :
  1 <= every → offset <= fromBlock →
  ∃ bs, blockFilterRequiredBlocks (blockFilterFuel fromBlock toBlock)
          every offset fromBlock toBlock = Some bs
    ∧ ∀ n, n ∈ bs ↔
        (fromBlock <= n <= toBlock ∧ (n - offset) mod every = 0) ∨ n = toBlock.
Proof.
  intros He Hoff. unfold blockFilterRequiredBlocks.
  rewrite (bool_decide_eq_false_2 (every = 0)) by lia.
  set (d := fromBlock - offset).
  assert (Hrem : Z.rem d every = d mod every) by (apply Z.rem_mod_nonneg; lia).
  rewrite Hrem.
  set (off := if bool_decide (d mod every = 0) then 0 else every - d mod every).
  pose proof (Z.mod_pos_bound d every ltac:(lia)) as Hb.
  assert (Hoff' : 0 <= off < every) by (subst off; case_bool_decide; lia).
  assert (Hfirst : (fromBlock + off - offset) mod every = 0).
  { subst off. case_bool_decide as E.
    - by replace (fromBlock + 0 - offset) with d by lia.
    - replace (fromBlock + (every - d mod every) - offset)
        with (d - d mod every + 1 * every) by lia.
      rewrite Z.mod_add by lia.
      rewrite Zminus_mod, Z.mod_mod, Z.sub_diag by lia. done. }
  destruct (blockFilterLoop_spec every toBlock (blockFilterFuel fromBlock toBlock)
              (fromBlock + off)) as (bs & Hbs & _ & Hin).
  { done. } { unfold blockFilterFuel. lia. }
  rewrite Hbs. simpl.
  assert (Hmatch : ∀ n, n ∈ bs ↔ fromBlock <= n <= toBlock ∧ (n - offset) mod every = 0).
  { intros n. rewrite Hin.
    apply Z.mod_divide in Hfirst; [|lia]. destruct Hfirst as [q Hq].
    split.
    - intros [Hr Hm]. split; [lia|].
      apply Z.mod_divide in Hm; [|lia]. destruct Hm as [p Hp].
      apply Z.mod_divide; [lia|]. exists (p + q). lia.
    - intros [Hr Hm].
      apply Z.mod_divide in Hm; [|lia]. destruct Hm as [p Hp].
      assert (q <= p) by nia.
      split; [nia|]. apply Z.mod_divide; [lia|]. exists (p - q). lia. }
  case_bool_decide as Hto.
  - exists bs. split; [done|]. intros n. rewrite Hmatch.
    split; [by left|]. intros [? | ->]; [done|]. by apply Hmatch.
  - exists (bs ++ [toBlock]). split; [done|]. intros n.
    rewrite elem_of_app, list_elem_of_singleton, Hmatch. done.
Qed.

(** C8. A filter with [every = 10] and [offset = 3] on the range
    [[0, 30]]: block 3 is in the range and [(3 - 3) mod 10 = 0], yet the
    worker's [requiredBlocks] are 13, 23 and 30. *)
Theorem blockFilterRequiredBlocks_offset_above :
  blockFilterRequiredBlocks (blockFilterFuel 0 30) 10 3 0 30 = Some [13; 23; 30]
  ∧ (0 <= 3 <= 30 ∧ (3 - 3) mod 10 = 0)
  ∧ 3 ∉ [13; 23; 30].
Proof.
  split; [by vm_compute|]. split; [split; [lia|done]|].
  intros H. by repeat (apply elem_of_cons in H as [?|H]; [done|]); apply elem_of_nil in H.
Qed.

(** ** [enqueueBlockTasks] *)

Lemma Math_min_nil_iff (xs : list Z) : Math_min xs = PInf ↔ xs = [].
Proof.
  destruct xs as [|x r]; [done|]. simpl. by destruct (Math_min r).
Qed.



Lemma insertByPriority_perm x (l : list (HistoricalSyncTask * Z)) :
  insertByPriority x l ≡ₚ x :: l.
Proof.
  induction l as [|y l IH]; simpl; [done|].
  case_bool_decide; [done|]. rewrite IH. apply perm_swap.
Qed.

Lemma queue_addTask_tasks task priority (s : Service) :
  tasks (queue (queue_addTask task priority s)) ≡ₚ tasks (queue s) ++ [(task, priority)].
Proof.
  destruct s. simpl. rewrite insertByPriority_perm. by rewrite <- Permutation_cons_append.
Qed.

Lemma enqueueBlockTask_tasks (s : Service) (n : Z) :
  tasks (queue (enqueueBlockTask s n))
  ≡ₚ tasks (queue s)
     ++ [(BLOCK n (default [] (blockCallbacks s !! n)), MAX_SAFE_INTEGER - n)].
Proof.
  destruct s. simpl. rewrite insertByPriority_perm. by rewrite <- Permutation_cons_append.
Qed.

Lemma enqueueBlockTask_blockCallbacks (s : Service) (n : Z) :
  blockCallbacks (enqueueBlockTask s n) = delete n (blockCallbacks s).
Proof. by destruct s. Qed.

(** The loop over [newBlocks]: one BLOCK task per block, holding the callbacks
    the block had, and the blocks' entries are deleted. *)
Lemma fold_enqueueBlockTask (l : list Z) (s : Service) :
  NoDup l →
  tasks (queue (fold_left enqueueBlockTask l s))
  ≡ₚ tasks (queue s)
     ++ ((λ n, (BLOCK n (default [] (blockCallbacks s !! n)), MAX_SAFE_INTEGER - n)) <$> l)
  ∧ ∀ n, blockCallbacks (fold_left enqueueBlockTask l s) !! n
         = if bool_decide (n ∈ l) then None else blockCallbacks s !! n.
Proof.
  revert s. induction l as [|a l IH]; intros s Hnd; cbn [fold_left].
  - split; [by rewrite fmap_nil, app_nil_r|]. intros n.
    rewrite bool_decide_eq_false_2; [done|]. apply not_elem_of_nil.
  - apply NoDup_cons in Hnd as [Ha Hnd].
    destruct (IH (enqueueBlockTask s a) Hnd) as [Hq Hc]. split.
    + rewrite Hq, enqueueBlockTask_tasks, <- app_assoc, fmap_cons.
      rewrite enqueueBlockTask_blockCallbacks. cbn [app].
      apply Permutation_app_head. constructor.
      assert (∀ n, n ∈ l → delete a (blockCallbacks s) !! n = blockCallbacks s !! n) as Hdel.
      { intros n Hn. apply lookup_delete_ne. by intros ->. }
      clear -Hdel. induction l as [|b l IH]; [done|]. rewrite !fmap_cons.
      rewrite Hdel by (by left). rewrite IH; [done|].
      intros n Hn. apply Hdel. by right.
    + intros n. rewrite Hc, enqueueBlockTask_blockCallbacks.
      destruct (decide (n = a)) as [->|Hne].
      * rewrite (bool_decide_eq_true_2 (a ∈ a :: l)) by (by left).
        rewrite lookup_delete_eq. by case_bool_decide.
      * rewrite lookup_delete_ne by done.
        destruct (decide (n ∈ l)) as [Hin|Hnin].
        -- rewrite !bool_decide_eq_true_2; [done|by right|done].
        -- rewrite !bool_decide_eq_false_2; [done| |done].
           intros [?|?]%elem_of_cons; done.
Qed.

Lemma newBlocks_elem_of (s : Service) (n : Z) :
  n ∈ newBlocks s
  ↔ is_Some (blockCallbacks s !! n) ∧ js_le n (blockTasksCanBeEnqueuedTo s) = true.
Proof.
  unfold newBlocks, Object_keys.
  rewrite list_elem_of_In, filter_In, <- list_elem_of_In, sortedKeys_elem_of. tauto.
Qed.

Lemma newBlocks_sorted (s : Service) : StronglySorted Z.lt (newBlocks s).
Proof.
  unfold newBlocks, Object_keys.
  pose proof (sortedKeys_sorted (blockCallbacks s)) as Hs.
  induction Hs as [|x l Hs IH Hall]; simpl; [constructor|].
  destruct (js_le x _); [|done].
  constructor; [done|]. apply Forall_forall. intros y Hy.
  apply list_elem_of_In, filter_In in Hy as [Hy _]. apply list_elem_of_In in Hy.
  rewrite Forall_forall in Hall. by apply Hall.
Qed.

Lemma StronglySorted_lt_NoDup (l : list Z) : StronglySorted Z.lt l → NoDup l.
Proof.
  induction 1 as [|x l Hs IH Hall]; constructor; [|done].
  intros Hx. rewrite Forall_forall in Hall. specialize (Hall x Hx). lia.
Qed.

(** What a call that passes the test does to the queue, to [blockCallbacks]
    and to the checkpoint, whatever the threshold is. *)
Lemma enqueueBlockTasks_enqueues (s : Service) :
  js_gt (blockTasksCanBeEnqueuedTo s) (blockTasksEnqueuedCheckpoint s) = true →
  tasks (queue (enqueueBlockTasks s))
  ≡ₚ tasks (queue s)
     ++ ((λ n, (BLOCK n (default [] (blockCallbacks s !! n)), MAX_SAFE_INTEGER - n))
           <$> newBlocks s)
  ∧ (∀ n, blockCallbacks (enqueueBlockTasks s) !! n
          = if bool_decide (n ∈ newBlocks s) then None else blockCallbacks s !! n)
  ∧ pendingBlocks (blockProgressTracker (enqueueBlockTasks s))
    = pendingBlocks (blockProgressTracker s) ++ newBlocks s
  ∧ blockTasksEnqueuedCheckpoint (enqueueBlockTasks s) = blockTasksCanBeEnqueuedTo s.
Proof.
  intros Hgt. unfold enqueueBlockTasks. rewrite Hgt.
  set (s1 := set_blockProgressTracker _ s).
  destruct (fold_enqueueBlockTask (newBlocks s) s1) as [Hq Hc].
  { apply StronglySorted_lt_NoDup, newBlocks_sorted. }
  assert (Hs1q : queue s1 = queue s) by (subst s1; by destruct s).
  assert (Hs1c : blockCallbacks s1 = blockCallbacks s) by (subst s1; by destruct s).
  assert (Hp : blockProgressTracker (fold_left enqueueBlockTask (newBlocks s) s1)
               = blockProgressTracker s1).
  { generalize (newBlocks s) as l. intros l. generalize s1 as s0. clear.
    induction l as [|a l IH]; intros s0; simpl; [done|].
    rewrite IH. by destruct s0. }
  rewrite Hs1q, Hs1c in Hq. rewrite Hs1c in Hc.
  destruct (fold_left enqueueBlockTask (newBlocks s) s1) eqn:E. simpl in *.
  split; [done|]. split; [done|]. split; [|done].
  rewrite Hp. subst s1. by destruct s.
Qed.

Lemma enqueueBlockTasks_unchanged (s : Service) :
  js_gt (blockTasksCanBeEnqueuedTo s) (blockTasksEnqueuedCheckpoint s) = false →
  enqueueBlockTasks s = s.
Proof. intros Hgt. unfold enqueueBlockTasks. by rewrite Hgt. Qed.


(** C3, as stated, fails: with one tracker, complete up to block 100, no
    tracker has required work, the greatest checkpoint is 100, and the
    threshold is not 100. *)
Lemma enqueueBlockTasks_done_not_max_checkpoint :
  List.filter hasRequired (allProgressTrackers Example.allDone) = []
  ∧ getCheckpoint <$> allProgressTrackers Example.allDone = [100]
  ∧ blockTasksCanBeEnqueuedTo Example.allDone ≠ Fin 100.
Proof. split; [by vm_compute|]. split; [by vm_compute|]. by vm_compute. Qed.

(** C3, amended. When no tracker has required intervals left, the threshold
    of [enqueueBlockTasks] is [Infinity]: every key of [blockCallbacks] is
    taken, and, the checkpoint being finite, a BLOCK task is added for each,
    [blockCallbacks] is left empty and the checkpoint becomes [Infinity]. *)
Theorem enqueueBlockTasks_threshold_done (s : Service) :
  List.filter hasRequired (allProgressTrackers s) = [] →
  blockTasksCanBeEnqueuedTo s = PInf
  ∧ (∀ n, n ∈ newBlocks s ↔ is_Some (blockCallbacks s !! n))
  ∧ match blockTasksEnqueuedCheckpoint s with
    | Fin _ =>
        tasks (queue (enqueueBlockTasks s))
        ≡ₚ tasks (queue s)
           ++ ((λ n, (BLOCK n (default [] (blockCallbacks s !! n)), MAX_SAFE_INTEGER - n))
                 <$> newBlocks s)
        ∧ blockCallbacks (enqueueBlockTasks s) = ∅
        ∧ blockTasksEnqueuedCheckpoint (enqueueBlockTasks s) = PInf
    | PInf => enqueueBlockTasks s = s
    end.
Proof.
  intros Hnone.
  assert (Ht : blockTasksCanBeEnqueuedTo s = PInf).
  { unfold blockTasksCanBeEnqueuedTo. by rewrite Hnone. }
  assert (Hnew : ∀ n, n ∈ newBlocks s ↔ is_Some (blockCallbacks s !! n)).
  { intros n. rewrite newBlocks_elem_of, Ht. simpl. tauto. }
  split; [done|]. split; [done|].
  destruct (blockTasksEnqueuedCheckpoint s) as [c|] eqn:Hc.
  - destruct (enqueueBlockTasks_enqueues s) as (Hq & Hbc & _ & Hcp).
    { by rewrite Ht, Hc. }
    split; [done|]. split; [|by rewrite Hcp].
    apply map_eq. intros n. rewrite Hbc, lookup_empty.
    case_bool_decide as Hn; [done|].
    destruct (blockCallbacks s !! n) eqn:E; [|done].
    exfalso. apply Hn, Hnew. by eexists.
  - apply enqueueBlockTasks_unchanged. by rewrite Ht, Hc.
Qed.

(** ** The TRACE_FILTER worker *)

(** The worker of a TRACE_FILTER task touches no tracker. *)
Lemma worker_TRACE_FILTER_trackers (w : World) (traceFilter : Source.t)
    (fromBlock toBlock : Z) (s : Service) :
  traceFilterProgressTrackers (worker w (TRACE_FILTER traceFilter fromBlock toBlock) s).2
  = traceFilterProgressTrackers s.
Proof.
  destruct s as [? ? ? ? ? ? ? ? ? ? q sd ? ?].
  unfold worker, mbind, M_bind, mret, M_ret, get, modify. simpl.
  destruct (bool_decide (0 < queue_size q)%nat || bool_decide (1 < pending q)%nat); [done|].
  by destruct sd.
Qed.

(** C4. A function-call source on blocks 0 to 100: [setup] adds the task
    TRACE_FILTER [[0, 100]]; once the worker has run it, the source's tracker
    is as [setup] made it, with checkpoint -1 and [[0, 100]] still required,
    where a call of [addCompletedInterval([0, 100])] would have left the
    checkpoint at 100 and nothing required. *)
Theorem traceFilter_task_leaves_tracker :
  let after := runTasks Example.emptyStore 1 Example.tracing in
  after.1 = [TRACE_FILTER Example.T 0 100]
  ∧ traceFilterProgressTrackers after.2 = traceFilterProgressTrackers Example.tracing
  ∧ (λ t, (getCheckpoint t, getRequired t)) <$> (traceFilterProgressTrackers after.2 !! "function_T")
    = Some (-1, [(0, 100)])
  ∧ (λ t, let t' := (addCompletedInterval (0, 100) t).1 in (getCheckpoint t', getRequired t'))
      <$> (traceFilterProgressTrackers Example.tracing !! "function_T")
    = Some (100, []).
Proof. by vm_compute. Qed.

(** ** Interval algebra *)

Lemma covers_cons (i : interval) (l : list interval) (n : Z) :
  covers (i :: l) n ↔ contains i n ∨ covers l n.
Proof. unfold covers. apply Exists_cons. Qed.

Lemma covers_app (l1 l2 : list interval) (n : Z) :
  covers (l1 ++ l2) n ↔ covers l1 n ∨ covers l2 n.
Proof. unfold covers. apply Exists_app. Qed.

Lemma covers_nil (n : Z) : ¬ covers [] n.
Proof. unfold covers. by intros ?%Exists_nil. Qed.




Lemma chunkInterval_sub (fuel : nat) (a b k : Z) (c : interval) :
  c ∈ chunkInterval fuel a b k → c.2 <= b ∧ (1 <= k → a <= c.1) ∧ (k <= 0 → c.2 < c.1).
Proof.
  revert a. induction fuel as [|fuel IH]; intros a Hc; simpl in Hc.
  - by apply elem_of_nil in Hc.
  - case_bool_decide as Hab; [|by apply elem_of_nil in Hc].
    apply elem_of_cons in Hc as [->|Hc]; simpl.
    + lia.
    + destruct (IH _ Hc) as (H1 & H2 & H3). split; [done|]. split; [|done].
      intros Hk. specialize (H2 Hk). lia.
Qed.

(** Every block of a chunk is a block of the chunked intervals. *)
Lemma getChunks_sub (l : list interval) (k : Z) (c : interval) (n : Z) :
  c ∈ getChunks l k → contains c n → covers l n.
Proof.
  unfold getChunks. intros Hc Hn.
  apply list_elem_of_In, in_flat_map in Hc as (i & Hi & Hc).
  apply list_elem_of_In in Hc. apply chunkInterval_sub in Hc as (H1 & H2 & H3).
  apply Exists_exists. exists i. split; [by apply list_elem_of_In|].
  unfold contains in *. destruct (Z_le_gt_dec 1 k); lia.
Qed.



(** ** [setup] *)

Lemma addChunkTasks_tasks (task : Z → Z → HistoricalSyncTask) (chunks : list interval)
    (s : Service) :
  tasks (queue (addChunkTasks task chunks s))
  ≡ₚ tasks (queue s) ++ ((λ c, (task c.1 c.2, MAX_SAFE_INTEGER - c.1)) <$> chunks).
Proof.
  unfold addChunkTasks. revert s. induction chunks as [|c chunks IH]; intros s.
  - simpl. by rewrite app_nil_r.
  - cbn [fold_left]. rewrite IH, queue_addTask_tasks, <- app_assoc. reflexivity.
Qed.





Lemma perform_queue e (s : Service) : queue (perform e s) = queue s.
Proof. by destruct s. Qed.


Lemma logAddedTasks_queue kind chunks required source (s : Service) :
  queue (logAddedTasks kind chunks required source s) = queue s.
Proof. unfold logAddedTasks. case_bool_decide; [apply perform_queue|done]. Qed.


Lemma setTracker_factoryChildAddress id t (s : Service) :
  let s' := setTracker factoryChildAddressProgressTrackers
              set_factoryChildAddressProgressTrackers id t s in
  queue s' = queue s ∧ network s' = network s.
Proof. by destruct s. Qed.

Lemma setTracker_factoryLogFilter id t (s : Service) :
  let s' := setTracker factoryLogFilterProgressTrackers
              set_factoryLogFilterProgressTrackers id t s in
  queue s' = queue s ∧ network s' = network s.
Proof. by destruct s. Qed.


(** ** A run in which a block is dispatched twice *)

(** C1. A factory on blocks 0 to 100 whose creation logs of blocks 51 to 100
    are in the store, and a log filter on blocks 0 to 399, with a block range
    of 200 and one task at a time. [setup] adds FACTORY_LOG_FILTER
    [[51, 100]]; the child-address task [[0, 50]] moves the child-address
    checkpoint from -1 to 100 and adds FACTORY_LOG_FILTER [[0, 100]]. Both
    register a callback for block 100, the second after the BLOCK task of
    block 100 was added, and the run of ten tasks has two BLOCK tasks for
    block 100. *)
Theorem block_100_dispatched_twice :
  taskSummary <$> (fst <$> tasks (queue Example.ready))
  = [("FACTORY_CHILD_ADDRESS", 0, 50); ("LOG_FILTER", 0, 199);
     ("FACTORY_LOG_FILTER", 51, 100); ("LOG_FILTER", 200, 399)]
  ∧ taskSummary <$> Example.ran.1
    = [("FACTORY_CHILD_ADDRESS", 0, 50); ("LOG_FILTER", 0, 199);
       ("FACTORY_LOG_FILTER", 0, 100); ("BLOCK", 50, 1);
       ("FACTORY_LOG_FILTER", 51, 100); ("BLOCK", 100, 1); ("BLOCK", 199, 1);
       ("LOG_FILTER", 200, 399); ("BLOCK", 100, 1); ("BLOCK", 399, 1)]
  ∧ blockNumbersOf Example.ran.1 = [50; 100; 199; 100; 399]
  ∧ ¬ NoDup (blockNumbersOf Example.ran.1)
  ∧ runNextTask Example.halfDiscovered Example.ran.2 = None.
Proof.
  split; [by vm_compute|]. split; [by vm_compute|].
  assert (E : blockNumbersOf Example.ran.1 = [50; 100; 199; 100; 399]) by (by vm_compute).
  split; [done|]. split; [|by vm_compute].
  rewrite E. intros Hnd.
  apply NoDup_cons in Hnd as [_ Hnd]. apply NoDup_cons in Hnd as [Hn _].
  apply Hn. right. by left.
Qed.

(** C6. In the same run, the tracker of pending blocks holds 50, 100 and
    199 after seven tasks; the eighth, LOG_FILTER [[200, 399]], passes 100
    and 399 to [addPendingBlocks], and 100 is not above the pending blocks
    100 and 199. *)
Theorem addPendingBlocks_called_with_earlier_block :
  let before := (runTasks Example.halfDiscovered 7 Example.ready).2 in
  let after := (runTasks Example.halfDiscovered 8 Example.ready).2 in
  pendingBlocks (blockProgressTracker before) = [50; 100; 199]
  ∧ pendingBlocks (blockProgressTracker after)
    = pendingBlocks (blockProgressTracker before) ++ [100; 399]
  ∧ ¬ addPendingBlocks_pre [100; 399] (blockProgressTracker before)
  ∧ pendingBlocks (blockProgressTracker Example.ran.2) = [50; 100; 199; 100; 399].
Proof.
  intros before after.
  assert (E : pendingBlocks (blockProgressTracker before) = [50; 100; 199]) by (by vm_compute).
  split; [done|]. split; [by vm_compute|]. split; [|by vm_compute].
  intros [_ Hpre]. specialize (Hpre 100 100). rewrite E in Hpre.
  assert (100 < 100); [|lia].
  apply Hpre; [right; by left|by left].
Qed.

(** Where every call meets the requirement, the pending blocks stay in
    ascending order. *)
Lemma addPendingBlocks_pre_sorted (blockNumbers : list Z) (t : BlockProgressTracker) :
  StronglySorted Z.lt (pendingBlocks t) → addPendingBlocks_pre blockNumbers t →
  StronglySorted Z.lt (pendingBlocks (addPendingBlocks blockNumbers t)).
Proof.
  intros Hs [Hb Hlt]. simpl. apply StronglySorted_app. split; [|done].
  intros p b Hp Hbn. by apply Hlt.
Qed.

(** Within one call, the blocks passed to [addPendingBlocks] are in
    ascending order. *)
Lemma enqueueBlockTasks_newBlocks_ascending (s : Service) : StronglySorted Z.lt (newBlocks s).
Proof. apply newBlocks_sorted. Qed.

(** ** [onError] *)

(** The queue hands a task whose worker threw to [onError]. *)
Lemma runNextTask_onError (w : World) (s s2 : Service) task priority rest (e : Error) :
  isPaused (queue s) = false →
  tasks (queue s) = (task, priority) :: rest →
  worker w task (set_queue {| tasks := rest; pending := 1; isPaused := false |} s)
    = (inl e, s2) →
  runNextTask w s
  = Some (task, set_queue (set_pending 0 (queue (onError e task s2))) (onError e task s2)).
Proof. intros Hp Ht Hw. unfold runNextTask. by rewrite Hp, Ht, Hw. Qed.

(** The tasks that [setup], the child-address worker and [enqueueBlockTasks]
    add have the priority that [onError] uses. *)
Lemma addChunkTasks_originalPriority (task : Z → Z → HistoricalSyncTask)
    (chunks : list interval) (s : Service) :
  (∀ a b, originalPriority (task a b) = MAX_SAFE_INTEGER - a) →
  Forall (λ x, x.2 = originalPriority x.1) (tasks (queue s)) →
  Forall (λ x, x.2 = originalPriority x.1) (tasks (queue (addChunkTasks task chunks s))).
Proof.
  intros Hk Hq. rewrite addChunkTasks_tasks. apply Forall_app. split; [done|].
  apply Forall_fmap, Forall_forall. intros c _. simpl. by rewrite Hk.
Qed.

Lemma enqueueBlockTasks_originalPriority (s : Service) :
  Forall (λ x, x.2 = originalPriority x.1) (tasks (queue s)) →
  Forall (λ x, x.2 = originalPriority x.1) (tasks (queue (enqueueBlockTasks s))).
Proof.
  intros Hq.
  destruct (js_gt (blockTasksCanBeEnqueuedTo s) (blockTasksEnqueuedCheckpoint s)) eqn:Hgt.
  - destruct (enqueueBlockTasks_enqueues s Hgt) as (Hp & _). rewrite Hp.
    apply Forall_app. split; [done|]. apply Forall_fmap, Forall_forall. by intros n _.
  - by rewrite enqueueBlockTasks_unchanged.
Qed.

(** ** A BLOCK task that fails and is run again *)

Lemma external_eq {A : Type} (call : nat → Error + A) (s : Service) :
  external call s = (call (externalCalls s), set_externalCalls (S (externalCalls s)) s).
Proof.
  unfold external, mbind, M_bind, mret, M_ret, get, modify, throw.
  by destruct (call (externalCalls s)).
Qed.

Lemma set_externalCalls_quiet (n : nat) (s : Service) :
  effects (set_externalCalls n s) = effects s
  ∧ progressOf (set_externalCalls n s) = progressOf s.
Proof. by destruct s. Qed.

Lemma perform_Inserted (i : StoreInsert) (s : Service) :
  insertCount (effects (perform (Inserted i) s)) = S (insertCount (effects s))
  ∧ progressOf (perform (Inserted i) s) = progressOf s.
Proof.
  destruct s as [? ? ? ? ? ? ? ? ? ? ? ? es ?]. simpl. split; [|done].
  unfold insertCount. rewrite List.filter_app, length_app. simpl. lia.
Qed.

Lemma bind_inr {A B : Type} (c : M A) (f : A → M B) (s s' : Service) (b : B) :
  (c ≫= f) s = (inr b, s') → ∃ a s1, c s = (inr a, s1) ∧ f a s1 = (inr b, s').
Proof.
  unfold mbind, M_bind. destruct (c s) as [[e|a] s1]; simpl; [done|].
  intros H. by exists a, s1.
Qed.

Lemma bind_inl {A B : Type} (c : M A) (f : A → M B) (s s' : Service) (e : Error) :
  (c ≫= f) s = (inl e, s') →
  c s = (inl e, s') ∨ ∃ a s1, c s = (inr a, s1) ∧ f a s1 = (inl e, s').
Proof.
  unfold mbind, M_bind. destruct (c s) as [[e'|a] s1]; simpl; intros H.
  - injection H as -> ->. by left.
  - right. by exists a, s1.
Qed.

Lemma receipt_quiet (w : World) (h : string) (s s' : Service) r :
  _eth_getTransactionReceipt w h s = (r, s') →
  effects s' = effects s ∧ progressOf s' = progressOf s.
Proof.
  unfold _eth_getTransactionReceipt, mbind, M_bind. rewrite external_eq.
  destruct (eth_getTransactionReceipt w (externalCalls s) h) as [e|[x|]];
    unfold mret, M_ret, throw; intros [= <- <-]; apply set_externalCalls_quiet.
Qed.

Lemma receipts_quiet (w : World) (hs : list string) (s s' : Service) r :
  mapAll (_eth_getTransactionReceipt w) hs s = (r, s') →
  effects s' = effects s ∧ progressOf s' = progressOf s.
Proof.
  revert s r. induction hs as [|h hs IH]; intros s r; simpl.
  - unfold mret, M_ret. by intros [= <- <-].
  - unfold mbind, M_bind.
    destruct (_eth_getTransactionReceipt w h s) as [[e|x] s1] eqn:E1.
    + intros [= <- <-]. by eapply receipt_quiet.
    + apply receipt_quiet in E1 as [E1 E1'].
      destruct (mapAll (_eth_getTransactionReceipt w) hs s1) as [[e|xs] s2] eqn:E2.
      * intros [= <- <-]. apply IH in E2 as [-> ->]. done.
      * unfold mret, M_ret. intros [= <- <-]. apply IH in E2 as [-> ->]. done.
Qed.

Lemma storeInsert_result (w : World) (i : StoreInsert) (s s' : Service) r :
  storeInsert w i s = (r, s') →
  progressOf s' = progressOf s
  ∧ insertCount (effects s')
    = match r with inr _ => S (insertCount (effects s)) | inl _ => insertCount (effects s) end.
Proof.
  unfold storeInsert, mbind, M_bind. rewrite external_eq.
  destruct (set_externalCalls_quiet (S (externalCalls s)) s) as [He Hp].
  destruct (insertFails w (externalCalls s) i) as [e|].
  - intros [= <- <-]. by rewrite He, Hp.
  - unfold modify. intros [= <- <-].
    destruct (perform_Inserted i (set_externalCalls (S (externalCalls s)) s)) as [-> ->].
    by rewrite He, Hp.
Qed.

(** A callback that returns has made one insert; one that throws has made
    none; neither leaves anything else in the service. *)
Lemma runCallback_result (w : World) (block : HistoricalBlock) (callback : BlockCallback)
    (s s' : Service) r :
  runCallback w block callback s = (r, s') →
  progressOf s' = progressOf s
  ∧ insertCount (effects s')
    = match r with inr _ => S (insertCount (effects s)) | inl _ => insertCount (effects s) end.
Proof.
  assert (Hreceipts : ∀ (b : bool) hs (k : list string → StoreInsert),
    ((if b then mapAll (_eth_getTransactionReceipt w) hs else mret []) ≫=
       (λ rs, storeInsert w (k rs))) s = (r, s') →
    progressOf s' = progressOf s
    ∧ insertCount (effects s')
      = match r with inr _ => S (insertCount (effects s)) | inl _ => insertCount (effects s) end).
  { intros b hs k. unfold mbind, M_bind.
    destruct ((if b then mapAll (_eth_getTransactionReceipt w) hs else mret []) s)
      as [[e|rs] s1] eqn:E1.
    - intros [= <- <-]. destruct b; [|done].
      apply receipts_quiet in E1 as [-> ->]. done.
    - assert (effects s1 = effects s ∧ progressOf s1 = progressOf s) as [He Hp].
      { destruct b; [by eapply receipts_quiet|]. by injection E1 as <- <-. }
      intros H. apply storeInsert_result in H as [H1 H2]. by rewrite H1, H2, He, Hp. }
  destruct callback as [src li|src li|src li|src a b]; simpl.
  - destruct (Source.criteria src); try (unfold throw; by intros [= <- <-]).
    apply Hreceipts.
  - destruct (Source.criteria src); try (unfold throw; by intros [= <- <-]).
    apply storeInsert_result.
  - destruct (Source.criteria src); try (unfold throw; by intros [= <- <-]).
    apply Hreceipts.
  - apply storeInsert_result.
Qed.

Lemma forEach_app {A : Type} (f : A → M unit) (l1 l2 : list A) (s : Service) :
  forEach f (l1 ++ l2) s = (forEach f l1 ;; forEach f l2) s.
Proof.
  revert s. induction l1 as [|x l1 IH]; intros s; simpl.
  - done.
  - unfold mbind, M_bind. destruct (f x s) as [[e|[]] s1]; [done|].
    rewrite IH. done.
Qed.

(** The callbacks that return make one insert each. *)
Lemma forEach_runCallback_ok (w : World) (block : HistoricalBlock)
    (callbacks : list BlockCallback) (s s' : Service) :
  forEach (runCallback w block) callbacks s = (inr tt, s') →
  progressOf s' = progressOf s
  ∧ insertCount (effects s') = (insertCount (effects s) + length callbacks)%nat.
Proof.
  revert s. induction callbacks as [|c callbacks IH]; intros s; simpl.
  - unfold mret, M_ret. intros [= <-]. split; [done|lia].
  - intros H. apply bind_inr in H as (a & s1 & H1 & H2).
    apply runCallback_result in H1 as [Hp Hi]. apply IH in H2 as [-> ->].
    split; [done|]. rewrite Hi. lia.
Qed.

Lemma getBlockByNumber_quiet (w : World) (n : Z) (s s' : Service) r :
  _eth_getBlockByNumber w n s = (r, s') →
  effects s' = effects s ∧ progressOf s' = progressOf s.
Proof.
  unfold _eth_getBlockByNumber, mbind, M_bind. rewrite external_eq.
  destruct (eth_getBlockByNumber w (externalCalls s) n) as [e|[x|]];
    unfold mret, M_ret, throw; intros [= <- <-]; apply set_externalCalls_quiet.
Qed.

Lemma perform_not_Inserted (e : Effect) (s : Service) :
  (∀ i, e ≠ Inserted i) → insertCount (effects (perform e s)) = insertCount (effects s).
Proof.
  intros He. destruct s as [? ? ? ? ? ? ? ? ? ? ? ? es ?]. simpl.
  unfold insertCount. rewrite List.filter_app, length_app. simpl.
  destruct e; simpl; try lia. by destruct (He insert).
Qed.

(** Once the block is fetched and the callbacks have returned, the BLOCK
    worker returns, and makes no further insert. *)
Lemma blockTaskWorker_ok (w : World) (blockNumber : Z) (callbacks : list BlockCallback)
    (block : HistoricalBlock) (r r0 r1 : Service) :
  _eth_getBlockByNumber w blockNumber r = (inr block, r0) →
  forEach (runCallback w block) callbacks r0 = (inr tt, r1) →
  ∃ r', blockTaskWorker w blockNumber callbacks r = (inr tt, r')
        ∧ insertCount (effects r') = insertCount (effects r1).
Proof.
  intros Hb Hc. unfold blockTaskWorker.
  unfold mbind at 1. unfold M_bind at 1. rewrite Hb.
  unfold mbind at 1. unfold M_bind at 1. rewrite Hc.
  unfold mbind, M_bind, get, modify, mret, M_ret.
  destruct (addCompletedBlock blockNumber (timestamp block) (blockProgressTracker r1))
    as [tracker [c|]] eqn:E; eexists; (split; [reflexivity|]).
  - rewrite !perform_not_Inserted by done. by destruct r1.
  - rewrite !perform_not_Inserted by done. by destruct r1.
Qed.

(** C10. A BLOCK task whose callbacks [finished] have returned, each after
    its insert in the sync store, and whose next callback throws: the worker
    throws, the service has recorded nothing of the callbacks that returned,
    and [onError] adds the task again with the same list of callbacks. When
    that task runs and all its callbacks return, the callbacks [finished] are
    run again before the others, and every callback of the list has made an
    insert again. *)
Theorem blockTask_retry_runs_every_callback (w : World) (blockNumber : Z)
    (finished : list BlockCallback) (failing : BlockCallback)
    (remaining : list BlockCallback) (s s0 s1 s2 : Service) (block : HistoricalBlock)
    (e : Error) :
  isShuttingDown s = false →
  _eth_getBlockByNumber w blockNumber s = (inr block, s0) →
  forEach (runCallback w block) finished s0 = (inr tt, s1) →
  runCallback w block failing s1 = (inl e, s2) →
  let callbacks := finished ++ failing :: remaining in
  blockTaskWorker w blockNumber callbacks s = (inl e, s2)
  ∧ worker w (BLOCK blockNumber callbacks) s = (inl e, s2)
  ∧ insertCount (effects s2) = (insertCount (effects s) + length finished)%nat
  ∧ progressOf s2 = progressOf s
  ∧ tasks (queue (onError e (BLOCK blockNumber callbacks) s2))
    = insertByPriority (BLOCK blockNumber callbacks, MAX_SAFE_INTEGER - blockNumber)
        (tasks (queue s))
  ∧ ∀ (r r0 r1 : Service) (block' : HistoricalBlock),
      _eth_getBlockByNumber w blockNumber r = (inr block', r0) →
      forEach (runCallback w block') callbacks r0 = (inr tt, r1) →
      (∃ rm, forEach (runCallback w block') finished r0 = (inr tt, rm)
             ∧ insertCount (effects rm) = (insertCount (effects r) + length finished)%nat)
      ∧ ∃ r', blockTaskWorker w blockNumber callbacks r = (inr tt, r')
              ∧ insertCount (effects r') = (insertCount (effects r) + length callbacks)%nat.
Proof.
  intros Hsd Hb Hfin Hfail callbacks.
  assert (Hworker : blockTaskWorker w blockNumber callbacks s = (inl e, s2)).
  { unfold blockTaskWorker.
    unfold mbind at 1. unfold M_bind at 1. rewrite Hb.
    unfold mbind at 1. unfold M_bind at 1. subst callbacks.
    rewrite forEach_app. unfold mbind at 1. unfold M_bind at 1. rewrite Hfin.
    simpl. unfold mbind at 1. unfold M_bind at 1. by rewrite Hfail. }
  destruct (getBlockByNumber_quiet _ _ _ _ _ Hb) as [He0 Hp0].
  destruct (forEach_runCallback_ok _ _ _ _ _ Hfin) as [Hp1 Hi1].
  destruct (runCallback_result _ _ _ _ _ _ Hfail) as [Hp2 Hi2].
  assert (Hp : progressOf s2 = progressOf s) by (by rewrite Hp2, Hp1, Hp0).
  split; [done|]. split; [|split; [|split; [done|split]]].
  - unfold worker. unfold mbind at 1. unfold M_bind at 1. by rewrite Hworker.
  - by rewrite Hi2, Hi1, He0.
  - assert (isShuttingDown s2 = false ∧ queue s2 = queue s) as [Hsd2 Hq].
    { unfold progressOf in Hp. injection Hp as _ _ _ _ _ _ _ _ -> ->. done. }
    unfold onError. rewrite Hsd2. rewrite <- Hq. by destruct s2.
  - intros r r0 r1 block' Hb' Hall.
    destruct (getBlockByNumber_quiet _ _ _ _ _ Hb') as [He0' _].
    split.
    + subst callbacks. rewrite forEach_app in Hall.
      apply bind_inr in Hall as ([] & rm & Hrm & _).
      exists rm. split; [done|].
      destruct (forEach_runCallback_ok _ _ _ _ _ Hrm) as [_ ->]. by rewrite He0'.
    + destruct (blockTaskWorker_ok _ _ _ _ _ _ _ Hb' Hall) as (r' & Hr' & Hi').
      exists r'. split; [done|].
      destruct (forEach_runCallback_ok _ _ _ _ _ Hall) as [_ Hi]. by rewrite Hi', Hi, He0'.
Qed.

(** ** The theorems at concrete services *)

(** [buildLogIntervals_tiles] on the range [[41, 80]] with logs at blocks 57,
    45 and 57. *)
Lemma buildLogIntervals_tiles_witness :
  let r := buildLogIntervals 41 80 Example.someLogs in
  startBlock <$> head r = Some 41
  ∧ endBlock <$> last r = Some 80
  ∧ (∀ i a b, r !! i = Some a → r !! S i = Some b → startBlock b = endBlock a + 1)
  ∧ (∀ a, a ∈ r →
       startBlock a <= endBlock a
       ∧ logs a = filter (λ l, blockNumber l = endBlock a) Example.someLogs
       ∧ transactionHashes a = list_to_set (transactionHash <$> logs a))
  ∧ (∀ l, l ∈ Example.someLogs → ∃ a, a ∈ r ∧ l ∈ logs a)
  ∧ ((∀ l, l ∈ Example.someLogs → blockNumber l ≠ 80) →
       ∃ a, last r = Some a ∧ logs a = [] ∧ transactionHashes a = ∅).
Proof.
  apply (buildLogIntervals_tiles 41 80 Example.someLogs); [lia|].
  intros l Hl. unfold Example.someLogs in Hl.
  repeat (apply elem_of_cons in Hl as [->|Hl]; [simpl; lia|]).
  by apply elem_of_nil in Hl.
Defined.


(** [enqueueBlockTasks_threshold_done] on [Example.allDone]. *)
Lemma enqueueBlockTasks_threshold_done_witness :
  List.filter hasRequired (allProgressTrackers Example.allDone) = []
  ∧ blockTasksCanBeEnqueuedTo Example.allDone = PInf.
Proof.
  assert (H : List.filter hasRequired (allProgressTrackers Example.allDone) = []).
  { vm_compute. reflexivity. }
  split; [exact H|]. exact (proj1 (enqueueBlockTasks_threshold_done Example.allDone H)).
Defined.


(** [blockTask_retry_runs_every_callback] on a BLOCK task of two callbacks
    whose second insert fails the first time. *)
Lemma blockTask_retry_runs_every_callback_witness :
  let w := Example.failsOnce in
  let s := Example.idle in
  let s0 := (_eth_getBlockByNumber w 7 s).2 in
  let s1 := (forEach (runCallback w (Example.blockAt 7)) [BlockFilterCallback Example.B 6 7] s0).2 in
  let s2 := (runCallback w (Example.blockAt 7) (BlockFilterCallback Example.B 7 7) s1).2 in
  blockTaskWorker w 7 Example.twoCallbacks s = (inl (StoreError "busy"), s2)
  ∧ insertCount (effects s2) = 1%nat
  ∧ tasks (queue (onError (StoreError "busy") (BLOCK 7 Example.twoCallbacks) s2))
    = [(BLOCK 7 Example.twoCallbacks, MAX_SAFE_INTEGER - 7)].
Proof.
  pose proof (blockTask_retry_runs_every_callback Example.failsOnce 7
                [BlockFilterCallback Example.B 6 7] (BlockFilterCallback Example.B 7 7) []
                Example.idle
                (_eth_getBlockByNumber Example.failsOnce 7 Example.idle).2
                (forEach (runCallback Example.failsOnce (Example.blockAt 7))
                   [BlockFilterCallback Example.B 6 7]
                   (_eth_getBlockByNumber Example.failsOnce 7 Example.idle).2).2
                (runCallback Example.failsOnce (Example.blockAt 7)
                   (BlockFilterCallback Example.B 7 7)
                   (forEach (runCallback Example.failsOnce (Example.blockAt 7))
                      [BlockFilterCallback Example.B 6 7]
                      (_eth_getBlockByNumber Example.failsOnce 7 Example.idle).2).2).2
                (Example.blockAt 7) (StoreError "busy")
                eq_refl eq_refl eq_refl eq_refl) as (H1 & _ & H3 & _ & H5 & _).
  split; [exact H1|]. split; [exact H3|exact H5].
Defined.

(** * Further properties *)

(** ** Computations that keep a property of the service *)

Lemma preserves_ret {A : Type} (P : Service → Prop) (a : A) : preserves P (mret a).
Proof. intros s r s' HP. unfold mret, M_ret. by intros [= <- <-]. Qed.

Lemma preserves_throw {A : Type} (P : Service → Prop) (e : Error) :
  preserves P (throw e : M A).
Proof. intros s r s' HP. unfold throw. by intros [= <- <-]. Qed.

Lemma preserves_get (P : Service → Prop) : preserves P get.
Proof. intros s r s' HP. unfold get. by intros [= <- <-]. Qed.

Lemma preserves_modify (P : Service → Prop) (f : Service → Service) :
  (∀ s, P s → P (f s)) → preserves P (modify f).
Proof. intros Hf s r s' HP. unfold modify. intros [= <- <-]. by apply Hf. Qed.

Lemma preserves_bind {A B : Type} (P : Service → Prop) (c : M A) (f : A → M B) :
  preserves P c → (∀ a, preserves P (f a)) → preserves P (c ≫= f).
Proof.
  intros Hc Hf s r s' HP. unfold mbind, M_bind.
  destruct (c s) as [[e|a] s1] eqn:E.
  - intros [= <- <-]. by eapply Hc.
  - intros H. eapply Hf; [|exact H]. by eapply Hc.
Qed.

Lemma preserves_forEach {A : Type} (P : Service → Prop) (f : A → M unit) (l : list A) :
  (∀ x, preserves P (f x)) → preserves P (forEach f l).
Proof.
  intros Hf. induction l as [|x l IH]; simpl.
  - apply preserves_ret.
  - apply preserves_bind; [apply Hf|]. intros _. exact IH.
Qed.

Lemma preserves_mapAll {A B : Type} (P : Service → Prop) (f : A → M B) (l : list A) :
  (∀ x, preserves P (f x)) → preserves P (mapAll f l).
Proof.
  intros Hf. induction l as [|x l IH]; simpl.
  - apply preserves_ret.
  - apply preserves_bind; [apply Hf|]. intros y.
    apply preserves_bind; [exact IH|]. intros ys. apply preserves_ret.
Qed.

Lemma preserves_external {A : Type} (P : Service → Prop) (call : nat → Error + A) :
  (∀ n s, P s → P (set_externalCalls n s)) → preserves P (external call).
Proof.
  intros Hc s r s' HP. rewrite external_eq. intros [= <- <-]. by apply Hc.
Qed.

Section WorkersPreserve.

Variable P : Service → Prop.
Variable w : World.

Hypothesis P_calls : ∀ n s, P s → P (set_externalCalls n s).
Hypothesis P_perform : ∀ e s, e ≠ Emitted_syncComplete → P s → P (perform e s).
Hypothesis P_push : ∀ n callback s, P s → P (pushBlockCallback n callback s).
Hypothesis P_logFilter : ∀ m s, P s → P (set_logFilterProgressTrackers m s).
Hypothesis P_factoryChildAddress :
  ∀ m s, P s → P (set_factoryChildAddressProgressTrackers m s).
Hypothesis P_factoryLogFilter : ∀ m s, P s → P (set_factoryLogFilterProgressTrackers m s).
Hypothesis P_blockFilter : ∀ m s, P s → P (set_blockFilterProgressTrackers m s).
Hypothesis P_blockProgress : ∀ t s, P s → P (set_blockProgressTracker t s).
Hypothesis P_addTask : ∀ task s, P s → P (queue_addTask task (originalPriority task) s).
Hypothesis P_enqueue : ∀ s, P s → P (enqueueBlockTasks s).

Lemma getLogs_preserves address topics fromBlock toBlock :
  preserves P (_eth_getLogs w address topics fromBlock toBlock).
Proof. by apply preserves_external. Qed.

Lemma getBlockByNumber_preserves blockNumber :
  preserves P (_eth_getBlockByNumber w blockNumber).
Proof.
  apply preserves_bind; [by apply preserves_external|].
  intros [b|]; [apply preserves_ret|apply preserves_throw].
Qed.

Lemma getTransactionReceipt_preserves hash :
  preserves P (_eth_getTransactionReceipt w hash).
Proof.
  apply preserves_bind; [by apply preserves_external|].
  intros [b|]; [apply preserves_ret|apply preserves_throw].
Qed.

Lemma storeInsert_preserves i : preserves P (storeInsert w i).
Proof.
  apply preserves_bind; [by apply preserves_external|]. intros _.
  apply preserves_modify. intros s. by apply P_perform.
Qed.

Lemma runCallback_preserves block callback : preserves P (runCallback w block callback).
Proof.
  assert (Hr : ∀ (b : bool) hs, preserves P
            (if b then mapAll (_eth_getTransactionReceipt w) hs else mret [])).
  { intros [] hs; [|apply preserves_ret].
    apply preserves_mapAll. apply getTransactionReceipt_preserves. }
  destruct callback as [src li|src li|src li|src a b]; simpl.
  - destruct (Source.criteria src); try apply preserves_throw.
    apply preserves_bind; [apply Hr|]. intros rs. apply storeInsert_preserves.
  - destruct (Source.criteria src); try apply preserves_throw. apply storeInsert_preserves.
  - destruct (Source.criteria src); try apply preserves_throw.
    apply preserves_bind; [apply Hr|]. intros rs. apply storeInsert_preserves.
  - apply storeInsert_preserves.
Qed.

Lemma markCompleted_preserves trackers set_trackers id i :
  (∀ m s, P s → P (set_trackers m s)) →
  preserves P (markCompleted trackers set_trackers id i).
Proof.
  intros Hset. unfold markCompleted.
  apply preserves_bind; [apply preserves_get|]. intros s0.
  destruct (trackers s0 !! id) as [t|]; [|apply preserves_throw].
  destruct (addCompletedInterval i t) as [t' r].
  apply preserves_bind; [|intros _; apply preserves_ret].
  apply preserves_modify. intros s. apply Hset.
Qed.

Lemma pushCallbacks_preserves (callback : LogInterval → BlockCallback)
    (logIntervals : list LogInterval) :
  preserves P (forEach (λ logInterval,
    modify (pushBlockCallback (endBlock logInterval) (callback logInterval))) logIntervals).
Proof.
  apply preserves_forEach. intros li. apply preserves_modify. intros s. apply P_push.
Qed.

Lemma addChunkTasks_preserved (task : Z → Z → HistoricalSyncTask) chunks s :
  (∀ a b, originalPriority (task a b) = MAX_SAFE_INTEGER - a) →
  P s → P (addChunkTasks task chunks s).
Proof.
  intros Hk. unfold addChunkTasks. revert s.
  induction chunks as [|c chunks IH]; intros s HP; simpl; [done|].
  apply IH. rewrite <- (Hk c.1 c.2). by apply P_addTask.
Qed.

Lemma logFilterTaskWorker_preserves logFilter fromBlock toBlock :
  preserves P (logFilterTaskWorker w logFilter fromBlock toBlock).
Proof.
  unfold logFilterTaskWorker.
  destruct (Source.criteria logFilter); try apply preserves_throw.
  apply preserves_bind; [apply getLogs_preserves|]. intros ls.
  apply preserves_bind; [apply pushCallbacks_preserves|]. intros _.
  apply preserves_bind; [by apply markCompleted_preserves|]. intros _.
  apply preserves_bind; [by apply preserves_modify|]. intros _.
  apply preserves_modify. intros s. by apply P_perform.
Qed.

Lemma factoryLogFilterTaskWorker_preserves factory fromBlock toBlock :
  preserves P (factoryLogFilterTaskWorker w factory fromBlock toBlock).
Proof.
  unfold factoryLogFilterTaskWorker.
  destruct (Source.criteria factory); try apply preserves_throw.
  apply preserves_bind; [by apply preserves_external|]. intros batches.
  apply preserves_bind.
  { apply preserves_mapAll. intros batch. apply getLogs_preserves. }
  intros logss.
  apply preserves_bind; [apply pushCallbacks_preserves|]. intros _.
  apply preserves_bind; [by apply markCompleted_preserves|]. intros _.
  apply preserves_bind; [by apply preserves_modify|]. intros _.
  apply preserves_modify. intros s. by apply P_perform.
Qed.

Lemma factoryChildAddressTaskWorker_preserves factory fromBlock toBlock :
  preserves P (factoryChildAddressTaskWorker w factory fromBlock toBlock).
Proof.
  unfold factoryChildAddressTaskWorker.
  destruct (Source.criteria factory); try apply preserves_throw.
  apply preserves_bind; [apply getLogs_preserves|]. intros ls.
  apply preserves_bind; [apply storeInsert_preserves|]. intros _.
  apply preserves_bind; [apply pushCallbacks_preserves|]. intros _.
  apply preserves_bind; [by apply markCompleted_preserves|]. intros r.
  apply preserves_bind; [|intros _; apply preserves_modify; intros s; by apply P_perform].
  destruct (isUpdated r); [|apply preserves_ret].
  apply preserves_bind; [apply preserves_get|]. intros s0.
  destruct (factoryLogFilterProgressTrackers s0 !! Source.id factory);
    [|apply preserves_throw].
  apply preserves_modify. intros s. by apply addChunkTasks_preserved.
Qed.

Lemma blockFilterWalk_preserves blockFilter prev requiredBlocks :
  preserves P (blockFilterWalk w blockFilter prev requiredBlocks).
Proof.
  revert prev. induction requiredBlocks as [|b bs IH]; intros prev; simpl.
  - apply preserves_ret.
  - apply preserves_bind; [by apply preserves_external|]. intros hasBlock.
    apply preserves_bind; [|intros _; apply IH].
    destruct hasBlock; [apply storeInsert_preserves|].
    apply preserves_modify. intros s. apply P_push.
Qed.

Lemma blockFilterTaskWorker_preserves blockFilter fromBlock toBlock :
  preserves P (blockFilterTaskWorker w blockFilter fromBlock toBlock).
Proof.
  unfold blockFilterTaskWorker.
  destruct (Source.criteria blockFilter); try apply preserves_throw.
  destruct (blockFilterRequiredBlocks _ _ _ _ _); [|apply preserves_throw].
  apply preserves_bind; [apply blockFilterWalk_preserves|]. intros _.
  apply preserves_bind; [by apply markCompleted_preserves|]. intros _.
  apply preserves_bind; [by apply preserves_modify|]. intros _.
  apply preserves_modify. intros s. by apply P_perform.
Qed.

Lemma blockTaskWorker_preserves blockNumber callbacks :
  preserves P (blockTaskWorker w blockNumber callbacks).
Proof.
  unfold blockTaskWorker.
  apply preserves_bind; [apply getBlockByNumber_preserves|]. intros block.
  apply preserves_bind.
  { apply preserves_forEach. intros c. apply runCallback_preserves. }
  intros _. apply preserves_bind; [apply preserves_get|]. intros s0.
  destruct (addCompletedBlock _ _ _) as [tracker c].
  apply preserves_bind; [apply preserves_modify; intros s; apply P_blockProgress|].
  intros _.
  apply preserves_bind; [|intros _; apply preserves_modify; intros s; by apply P_perform].
  destruct c; [|apply preserves_ret].
  apply preserves_modify. intros s. by apply P_perform.
Qed.

(** The part of [worker] that runs a task, before the test for the final
    task, keeps [P]. *)
Lemma taskWorker_preserves (task : HistoricalSyncTask) :
  preserves P
    match task with
    | LOG_FILTER logFilter fromBlock toBlock =>
        logFilterTaskWorker w logFilter fromBlock toBlock
    | FACTORY_CHILD_ADDRESS factory fromBlock toBlock =>
        factoryChildAddressTaskWorker w factory fromBlock toBlock
    | FACTORY_LOG_FILTER factory fromBlock toBlock =>
        factoryLogFilterTaskWorker w factory fromBlock toBlock
    | BLOCK_FILTER blockFilter fromBlock toBlock =>
        blockFilterTaskWorker w blockFilter fromBlock toBlock
    | BLOCK blockNumber callbacks => blockTaskWorker w blockNumber callbacks
    | TRACE_FILTER _ _ _ => mret tt
    end.
Proof.
  destruct task.
  - apply logFilterTaskWorker_preserves.
  - apply factoryChildAddressTaskWorker_preserves.
  - apply factoryLogFilterTaskWorker_preserves.
  - apply blockFilterTaskWorker_preserves.
  - apply preserves_ret.
  - apply blockTaskWorker_preserves.
Qed.

End WorkersPreserve.

(** ** [enqueueBlockTasks]: what it keeps *)

Lemma enqueueBlockTask_callbacks (s : Service) (n : Z) :
  (waitingCallbacks (blockCallbacks (enqueueBlockTask s n))
   + queuedCallbacks (tasks (queue (enqueueBlockTask s n))))%nat
  = (waitingCallbacks (blockCallbacks s) + queuedCallbacks (tasks (queue s)))%nat.
Proof.
  rewrite enqueueBlockTask_blockCallbacks. unfold queuedCallbacks.
  rewrite (enqueueBlockTask_tasks s n), sum_list_with_app. simpl.
  destruct (blockCallbacks s !! n) as [callbacks|] eqn:E; simpl.
  - unfold waitingCallbacks.
    rewrite <- (map_to_list_delete (blockCallbacks s) n callbacks E). simpl. lia.
  - rewrite delete_id by done. lia.
Qed.

Lemma fold_enqueueBlockTask_callbacks (l : list Z) (s : Service) :
  (waitingCallbacks (blockCallbacks (fold_left enqueueBlockTask l s))
   + queuedCallbacks (tasks (queue (fold_left enqueueBlockTask l s))))%nat
  = (waitingCallbacks (blockCallbacks s) + queuedCallbacks (tasks (queue s)))%nat.
Proof.
  revert s. induction l as [|n l IH]; intros s; cbn [fold_left]; [done|].
  rewrite IH. apply enqueueBlockTask_callbacks.
Qed.

Lemma enqueueBlockTask_trackers (s : Service) (n : Z) :
  allProgressTrackers (enqueueBlockTask s n) = allProgressTrackers s.
Proof. by destruct s. Qed.

Lemma fold_enqueueBlockTask_trackers (l : list Z) (s : Service) :
  allProgressTrackers (fold_left enqueueBlockTask l s) = allProgressTrackers s.
Proof.
  revert s. induction l as [|n l IH]; intros s; cbn [fold_left]; [done|].
  by rewrite IH, enqueueBlockTask_trackers.
Qed.

Lemma enqueueBlockTasks_trackers (s : Service) :
  allProgressTrackers (enqueueBlockTasks s) = allProgressTrackers s.
Proof.
  unfold enqueueBlockTasks.
  destruct (js_gt (blockTasksCanBeEnqueuedTo s) (blockTasksEnqueuedCheckpoint s)); [|done].
  set (s1 := set_blockProgressTracker _ s).
  assert (H1 : allProgressTrackers s1 = allProgressTrackers s) by (subst s1; by destruct s).
  rewrite <- H1, <- (fold_enqueueBlockTask_trackers (newBlocks s) s1).
  by destruct (fold_left enqueueBlockTask (newBlocks s) s1).
Qed.

Lemma enqueueBlockTasks_callbacks_sum (s : Service) :
  (waitingCallbacks (blockCallbacks (enqueueBlockTasks s))
   + queuedCallbacks (tasks (queue (enqueueBlockTasks s))))%nat
  = (waitingCallbacks (blockCallbacks s) + queuedCallbacks (tasks (queue s)))%nat.
Proof.
  unfold enqueueBlockTasks.
  destruct (js_gt (blockTasksCanBeEnqueuedTo s) (blockTasksEnqueuedCheckpoint s)); [|done].
  set (s1 := set_blockProgressTracker _ s).
  pose proof (fold_enqueueBlockTask_callbacks (newBlocks s) s1) as H.
  replace (blockCallbacks s1) with (blockCallbacks s) in H by (subst s1; by destruct s).
  replace (queue s1) with (queue s) in H by (subst s1; by destruct s).
  rewrite <- H. by destruct (fold_left enqueueBlockTask (newBlocks s) s1).
Qed.

(** X1. Whatever [enqueueBlockTasks] does, every callback that waited in
    [blockCallbacks] either still waits there or is carried by a BLOCK task
    of the queue: their number is unchanged, and so are the trackers. *)
Theorem enqueueBlockTasks_keeps_callbacks (s : Service) :
  (waitingCallbacks (blockCallbacks (enqueueBlockTasks s))
   + queuedCallbacks (tasks (queue (enqueueBlockTasks s))))%nat
  = (waitingCallbacks (blockCallbacks s) + queuedCallbacks (tasks (queue s)))%nat
  ∧ allProgressTrackers (enqueueBlockTasks s) = allProgressTrackers s.
Proof. split; [apply enqueueBlockTasks_callbacks_sum|apply enqueueBlockTasks_trackers]. Qed.

Lemma js_gt_irrefl (a : jsnum) : js_gt a a = false.
Proof. destruct a; simpl; [|done]. apply bool_decide_eq_false_2. lia. Qed.

Lemma js_gt_leq (a b : jsnum) : js_gt a b = true → js_leq b a.
Proof.
  destruct a, b; simpl; try done. rewrite bool_decide_eq_true. lia.
Qed.

Lemma js_leq_refl (a : jsnum) : js_leq a a.
Proof. destruct a; simpl; [lia|done]. Qed.

Lemma js_leq_trans (a b c : jsnum) : js_leq a b → js_leq b c → js_leq a c.
Proof. destruct a, b, c; simpl; try done. lia. Qed.

(** X2. A second call of [enqueueBlockTasks], with no tracker changed in
    between, does nothing: the threshold is no longer above the checkpoint. *)
Theorem enqueueBlockTasks_twice (s : Service) :
  enqueueBlockTasks (enqueueBlockTasks s) = enqueueBlockTasks s.
Proof.
  apply enqueueBlockTasks_unchanged.
  unfold blockTasksCanBeEnqueuedTo. rewrite enqueueBlockTasks_trackers.
  fold (blockTasksCanBeEnqueuedTo s).
  destruct (js_gt (blockTasksCanBeEnqueuedTo s) (blockTasksEnqueuedCheckpoint s)) eqn:Hgt.
  - destruct (enqueueBlockTasks_enqueues s Hgt) as (_ & _ & _ & ->). apply js_gt_irrefl.
  - by rewrite (enqueueBlockTasks_unchanged s Hgt).
Qed.

(** [enqueueBlockTasks] never lowers [blockTasksEnqueuedCheckpoint], and
    never lets go of a pending block. *)
Lemma enqueueBlockTasks_checkpoint_grows (s : Service) :
  js_leq (blockTasksEnqueuedCheckpoint s) (blockTasksEnqueuedCheckpoint (enqueueBlockTasks s)).
Proof.
  destruct (js_gt (blockTasksCanBeEnqueuedTo s) (blockTasksEnqueuedCheckpoint s)) eqn:Hgt.
  - destruct (enqueueBlockTasks_enqueues s Hgt) as (_ & _ & _ & ->). by apply js_gt_leq.
  - rewrite (enqueueBlockTasks_unchanged s Hgt). apply js_leq_refl.
Qed.

(** ** The blocks of a BLOCK_FILTER task, whatever the offset *)

(** X3. For an interval of at least 1 and [fromBlock <= toBlock], the loop
    that builds [requiredBlocks] in [blockFilterTaskWorker] ends, whatever
    the offset, and [requiredBlocks] is in strictly ascending order, holds
    only blocks of [[fromBlock, toBlock]], and ends with [toBlock]. *)
Theorem blockFilterRequiredBlocks_ascending (every offset fromBlock toBlock : Z) :
  1 <= every → fromBlock <= toBlock →
  ∃ bs, blockFilterRequiredBlocks (blockFilterFuel fromBlock toBlock)
          every offset fromBlock toBlock = Some bs
    ∧ StronglySorted Z.lt bs
    ∧ last bs = Some toBlock
    ∧ ∀ n, n ∈ bs → fromBlock <= n <= toBlock.
Proof.
  intros He Hle. unfold blockFilterRequiredBlocks.
  rewrite (bool_decide_eq_false_2 (every = 0)) by lia.
  set (base := Z.rem (fromBlock - offset) every).
  assert (Hbase : - every < base < every).
  { subst base. pose proof (Z.rem_bound_abs (fromBlock - offset) every ltac:(lia)). lia. }
  set (off := if bool_decide (base = 0) then 0 else every - base).
  assert (Hoff : 0 <= off) by (subst off; case_bool_decide; lia).
  destruct (blockFilterLoop_spec every toBlock (blockFilterFuel fromBlock toBlock)
              (fromBlock + off)) as (bs & Hbs & Hs & Hin).
  { done. } { unfold blockFilterFuel. lia. }
  rewrite Hbs. simpl.
  assert (Hrange : ∀ n, n ∈ bs → fromBlock <= n <= toBlock).
  { intros n Hn. apply Hin in Hn. lia. }
  case_bool_decide as Hto.
  - exists bs. split; [done|]. split; [done|]. split; [|done].
    apply StronglySorted_lt_last; [done|done|]. intros y Hy. apply Hrange in Hy. lia.
  - exists (bs ++ [toBlock]). split; [done|]. split; [|split].
    + apply StronglySorted_lt_snoc; [done|]. intros y Hy.
      assert (y ≠ toBlock) by (intros ->; done). apply Hrange in Hy. lia.
    + apply last_snoc.
    + intros n [Hn|Hn]%elem_of_app; [by apply Hrange|].
      apply list_elem_of_singleton in Hn as ->. lia.
Qed.

(** ** [buildLogIntervals]: no log is lost *)

Lemma filter_by_key_concat (ls : list RpcLog) (ks : list Z) :
  NoDup ks → (∀ l, l ∈ ls → blockNumber l ∈ ks) →
  concat ((λ b, filter (λ l, blockNumber l = b) ls) <$> ks) ≡ₚ ls.
Proof.
  intros Hnd. revert ls. induction Hnd as [|k ks Hk Hnd IH]; intros ls Hall.
  - destruct ls as [|l ls]; [done|].
    specialize (Hall l ltac:(by left)). by apply elem_of_nil in Hall.
  - rewrite fmap_cons. cbn [concat].
    etrans; [|apply (filter_app_complement (λ l, blockNumber l = k) ls)].
    apply Permutation_app_head.
    rewrite <- (IH (filter (λ l, ¬ blockNumber l = k) ls)).
    + assert (E : (λ b, filter (λ l, blockNumber l = b) ls) <$> ks
                  = (λ b, filter (λ l, blockNumber l = b)
                            (filter (λ l, ¬ blockNumber l = k) ls)) <$> ks);
        [|by rewrite E].
      apply list_fmap_ext. intros i b Hb.
      assert (b ≠ k).
      { intros ->. apply Hk. by eapply list_elem_of_lookup_2. }
      rewrite list_filter_filter. apply list_filter_iff. intros l. split; [|tauto].
      intros Hl. split; [done|]. congruence.
    + intros l [Hne Hl]%list_elem_of_filter.
      specialize (Hall l Hl). apply elem_of_cons in Hall as [?|?]; done.
Qed.

Lemma walkRequiredBlocks_logs tx lg (prev : Z) (bs : list Z) :
  logs <$> walkRequiredBlocks tx lg prev bs = (λ b, default [] (lg !! b)) <$> bs.
Proof. revert prev. induction bs as [|b bs IH]; intros prev; simpl; [done|]. by rewrite IH. Qed.

(** X4. Whatever the range and the logs, also logs outside the range, each log
    is in the [logs] of exactly one interval of [buildLogIntervals]: the
    intervals' logs are the given logs in another order. A call without logs
    gives the one interval [[fromBlock, toBlock]]. *)
Theorem buildLogIntervals_keeps_logs (fromBlock toBlock : Z) (ls : list RpcLog) :
  concat (logs <$> buildLogIntervals fromBlock toBlock ls) ≡ₚ ls
  ∧ buildLogIntervals fromBlock toBlock []
    = [{| startBlock := fromBlock; endBlock := toBlock; logs := [];
          transactionHashes := ∅ |}].
Proof.
  split; [|done].
  assert (Hr : buildLogIntervals fromBlock toBlock ls
               = walkRequiredBlocks (groupLogs ls).1 (groupLogs ls).2 fromBlock
                   (logRequiredBlocks toBlock ls)).
  { unfold buildLogIntervals. by destruct (groupLogs ls). }
  rewrite Hr, walkRequiredBlocks_logs.
  assert (Hlg : ∀ b, default [] ((groupLogs ls).2 !! b) = filter (λ l, blockNumber l = b) ls).
  { intros b. unfold groupLogs. rewrite groupLogs_logs_default. simpl.
    by rewrite lookup_empty. }
  rewrite (list_fmap_ext _ (λ b, filter (λ l, blockNumber l = b) ls)
             (logRequiredBlocks toBlock ls)) by (intros; apply Hlg).
  apply filter_by_key_concat.
  - unfold logRequiredBlocks.
    pose proof (StronglySorted_lt_NoDup _ (sortedKeys_sorted (groupLogs ls).1)) as Hnd.
    case_bool_decide as Hin; [done|].
    apply NoDup_app. split; [done|]. split; [|apply NoDup_singleton].
    intros x Hx ->%list_elem_of_singleton. done.
  - intros l Hl. apply logRequiredBlocks_elem_of. right. by exists l.
Qed.

(** ** [setup] and [start] *)

Lemma setTracker_queue trackers set_trackers id t (s : Service) :
  (∀ m x, queue (set_trackers m x) = queue x) →
  queue (setTracker trackers set_trackers id t s) = queue s.
Proof. intros H. unfold setTracker. apply H. Qed.

Lemma setTracker_network trackers set_trackers id t (s : Service) :
  (∀ m x, network (set_trackers m x) = network x) →
  network (setTracker trackers set_trackers id t s) = network s.
Proof. intros H. unfold setTracker. apply H. Qed.


Lemma covers_singleton (i : interval) (n : Z) : covers [i] n ↔ contains i n.
Proof.
  rewrite covers_cons. split; [|by left]. intros [?|?%covers_nil]; done.
Qed.



Section SetupPreserve.

Variable P : Service → Prop.
Variable w : World.
Variables latest finalized : Z.

Hypothesis P_perform : ∀ e s, e ≠ Emitted_syncComplete → P s → P (perform e s).
Hypothesis P_logFilter : ∀ m s, P s → P (set_logFilterProgressTrackers m s).
Hypothesis P_factoryChildAddress :
  ∀ m s, P s → P (set_factoryChildAddressProgressTrackers m s).
Hypothesis P_factoryLogFilter : ∀ m s, P s → P (set_factoryLogFilterProgressTrackers m s).
Hypothesis P_blockFilter : ∀ m s, P s → P (set_blockFilterProgressTrackers m s).
Hypothesis P_traceFilter : ∀ m s, P s → P (set_traceFilterProgressTrackers m s).
Hypothesis P_addTask : ∀ task s, P s → P (queue_addTask task (originalPriority task) s).

Lemma addChunkTasks_kept (task : Z → Z → HistoricalSyncTask) chunks s :
  (∀ a b, originalPriority (task a b) = MAX_SAFE_INTEGER - a) →
  P s → P (addChunkTasks task chunks s).
Proof.
  intros Hk. unfold addChunkTasks. revert s.
  induction chunks as [|c chunks IH]; intros s HP; simpl; [done|].
  apply IH. rewrite <- (Hk c.1 c.2). by apply P_addTask.
Qed.

Lemma logAddedTasks_kept kind chunks required source s :
  P s → P (logAddedTasks kind chunks required source s).
Proof. intros HP. unfold logAddedTasks. case_bool_decide; [by apply P_perform|done]. Qed.

Lemma setupSimple_kept trackers set_trackers completedIntervals task kind maxChunkSize
    source s :
  (∀ m x, P x → P (set_trackers m x)) →
  (∀ a b, originalPriority (task a b) = MAX_SAFE_INTEGER - a) →
  P s →
  P (setupSimple latest finalized trackers set_trackers completedIntervals task kind
       maxChunkSize source s).
Proof.
  intros Hset Hk HP. unfold setupSimple, setTracker.
  destruct (isHistoricalSyncRequired _); cbn [negb]; cbv zeta.
  - apply P_perform; [done|]. apply logAddedTasks_kept, addChunkTasks_kept; [done|].
    by apply Hset.
  - apply P_perform; [done|]. by apply Hset.
Qed.

Lemma setupSource_kept s source : P s → P (setupSource w latest finalized s source).
Proof.
  intros HP. unfold setupSource. destruct (Source.criteria source).
  - by apply setupSimple_kept.
  - unfold setupFactory, setTracker.
    destruct (isHistoricalSyncRequired _); cbn [negb]; cbv zeta.
    + apply P_perform; [done|]. apply logAddedTasks_kept, addChunkTasks_kept; [done|].
      apply P_factoryLogFilter, logAddedTasks_kept, addChunkTasks_kept; [done|].
      by apply P_factoryChildAddress.
    + apply P_perform; [done|]. by apply P_factoryLogFilter, P_factoryChildAddress.
  - by apply setupSimple_kept.
  - by apply setupSimple_kept.
Qed.

Lemma setup_kept s :
  P (set_blockTasksEnqueuedCheckpoint (Fin 0) (set_isShuttingDown false s)) →
  P (setup w latest finalized s).
Proof.
  unfold setup. generalize (set_blockTasksEnqueuedCheckpoint (Fin 0) (set_isShuttingDown false s)).
  intros s2. generalize (sources s2) as srcs. intros srcs. revert s2.
  induction srcs as [|source srcs IH]; intros s2 HP; simpl; [done|].
  apply IH. by apply setupSource_kept.
Qed.

End SetupPreserve.

Lemma syncCompleteCount_perform (e : Effect) (s : Service) :
  syncCompleteCount (effects (perform e s))
  = (syncCompleteCount (effects s)
     + match e with Emitted_syncComplete => 1 | _ => 0 end)%nat.
Proof.
  destruct s as [? ? ? ? ? ? ? ? ? ? ? ? es ?]. simpl.
  unfold syncCompleteCount. rewrite List.filter_app, length_app. by destruct e.
Qed.

(** X6. [setup] starts a service again: it clears the shutdown flag and puts
    [blockTasksEnqueuedCheckpoint] back to 0, whatever they were. It keeps
    the tasks that wait, the callbacks of [blockCallbacks], the pending
    blocks of the block tracker and the paused state of the queue: what an
    earlier run left there is still there. *)
Theorem setup_resets_and_keeps (w : World) (latestBlockNumber finalizedBlockNumber : Z)
    (s : Service) :
  let s' := setup w latestBlockNumber finalizedBlockNumber s in
  isShuttingDown s' = false
  ∧ blockTasksEnqueuedCheckpoint s' = Fin 0
  ∧ blockCallbacks s' = blockCallbacks s
  ∧ blockProgressTracker s' = blockProgressTracker s
  ∧ isPaused (queue s') = isPaused (queue s)
  ∧ (∃ added, tasks (queue s') ≡ₚ tasks (queue s) ++ added)
  ∧ syncCompleteCount (effects s') = syncCompleteCount (effects s).
Proof.
  set (P := λ x : Service,
    isShuttingDown x = false
    ∧ blockTasksEnqueuedCheckpoint x = Fin 0
    ∧ blockCallbacks x = blockCallbacks s
    ∧ blockProgressTracker x = blockProgressTracker s
    ∧ isPaused (queue x) = isPaused (queue s)
    ∧ (∃ added, tasks (queue x) ≡ₚ tasks (queue s) ++ added)
    ∧ syncCompleteCount (effects x) = syncCompleteCount (effects s)).
  apply (setup_kept P); unfold P.
  - intros e x He (H1 & H2 & H3 & H4 & H5 & H6 & H7).
    rewrite syncCompleteCount_perform, <- H7.
    destruct x. simpl in *. repeat (split; [done|]). by destruct e; try lia.
  - intros m x H. by destruct x.
  - intros m x H. by destruct x.
  - intros m x H. by destruct x.
  - intros m x H. by destruct x.
  - intros m x H. by destruct x.
  - intros task x (H1 & H2 & H3 & H4 & H5 & (added & H6) & H7).
    assert (Hq := queue_addTask_tasks task (originalPriority task) x).
    destruct x. simpl in *. repeat (split; [done|]). split; [|done].
    exists (added ++ [(task, originalPriority task)]).
    rewrite Hq, H6. by rewrite <- app_assoc.
  - destruct s. simpl. repeat (split; [done|]). split; [|done].
    exists []. by rewrite app_nil_r.
Qed.

Lemma getChunks_nil (k : Z) : getChunks [] k = [].
Proof. done. Qed.

Lemma intervalDifference_nil (remove : list interval) : intervalDifference [] remove = [].
Proof. unfold intervalDifference. induction remove as [|r remove IH]; simpl; done. Qed.

Lemma setupSource_nothingRequired (w : World) (latest finalized : Z) (source : Source.t)
    (s : Service) :
  nothingRequired w latest finalized source →
  queue (setupSource w latest finalized s source) = queue s.
Proof.
  unfold nothingRequired, setupSource. cbv zeta. intros Hn.
  assert (Hsimple : ∀ trackers set_trackers completedIntervals task kind maxChunkSize,
    (∀ m x, queue (set_trackers m x) = queue x) →
    (isHistoricalSyncRequired
       (validateHistoricalBlockRange (Source.startBlock source) (Source.endBlock source)
          finalized latest) = true →
     getRequired {| target := (validStartBlock (validateHistoricalBlockRange
                      (Source.startBlock source) (Source.endBlock source) finalized latest),
                    validEndBlock (validateHistoricalBlockRange
                      (Source.startBlock source) (Source.endBlock source) finalized latest));
                    completed := completedIntervals |} = []) →
    queue (setupSimple latest finalized trackers set_trackers completedIntervals task kind
             maxChunkSize source s) = queue s).
  { intros trackers set_trackers completedIntervals task kind maxChunkSize Hq Hreq.
    unfold setupSimple.
    destruct (isHistoricalSyncRequired _); cbn [negb]; cbv zeta.
    - rewrite Hreq by done. rewrite getChunks_nil.
      rewrite perform_queue, logAddedTasks_queue. unfold addChunkTasks. simpl.
      by apply setTracker_queue.
    - rewrite perform_queue. by apply setTracker_queue. }
  destruct (Source.criteria source) eqn:Hc.
  - apply Hsimple; [intros ? x; by destruct x|done].
  - unfold setupFactory.
    destruct (isHistoricalSyncRequired _); cbn [negb]; cbv zeta.
    + rewrite Hc. destruct Hn as [-> ->]; [done|].
      rewrite intervalDifference_nil, !getChunks_nil.
      rewrite perform_queue, logAddedTasks_queue. unfold addChunkTasks. simpl.
      rewrite (proj1 (setTracker_factoryLogFilter _ _ _)), logAddedTasks_queue.
      by rewrite (proj1 (setTracker_factoryChildAddress _ _ _)).
    + rewrite perform_queue.
      rewrite (proj1 (setTracker_factoryLogFilter _ _ _)).
      by rewrite (proj1 (setTracker_factoryChildAddress _ _ _)).
  - apply Hsimple; [intros ? x; by destruct x|done].
  - apply Hsimple; [intros ? x; by destruct x|done].
Qed.

Lemma setup_nothingRequired_queue (w : World) (latest finalized : Z) (s : Service) :
  Forall (nothingRequired w latest finalized) (sources s) →
  queue (setup w latest finalized s) = queue s.
Proof.
  unfold setup.
  set (s2 := set_blockTasksEnqueuedCheckpoint (Fin 0) (set_isShuttingDown false s)).
  assert (Hsrc : sources s2 = sources s) by (subst s2; by destruct s).
  assert (Hq : queue s2 = queue s) by (subst s2; by destruct s).
  rewrite Hsrc, <- Hq. clear. generalize s2 as s0. intros s0 Hall. revert s0.
  induction Hall as [|source srcs Hn Hall IH]; intros s0; simpl; [done|].
  by rewrite IH, setupSource_nothingRequired.
Qed.

Lemma start_effects (s : Service) :
  syncCompleteCount (effects (start s))
  = (syncCompleteCount (effects s)
     + if bool_decide (queue_size (queue s) = 0)%nat then 1 else 0)%nat
  ∧ tasks (queue (start s)) = tasks (queue s)
  ∧ isPaused (queue (start s)) = false.
Proof.
  unfold start. case_bool_decide.
  - rewrite <- (syncCompleteCount_perform Emitted_syncComplete).
    destruct s. simpl. split; [|done].
    unfold syncCompleteCount. rewrite !List.filter_app, !length_app. simpl. lia.
  - destruct s. simpl. split; [lia|done].
Qed.

(** X7. When the sync store leaves nothing to fetch for any source, [setup] adds
    no task and [start] itself emits [syncComplete], once; no task is run.
    When [setup] has added a task, [start] emits nothing. *)
Theorem start_completes_cached_sync (w : World) (latestBlockNumber finalizedBlockNumber : Z)
    (network : Network) (sources : list Source.t) :
  let s := setup w latestBlockNumber finalizedBlockNumber (newService network sources) in
  (Forall (nothingRequired w latestBlockNumber finalizedBlockNumber) sources →
   tasks (queue (start s)) = []
   ∧ syncCompleteCount (effects (start s)) = 1%nat
   ∧ runNextTask w (start s) = None)
  ∧ (tasks (queue s) ≠ [] → syncCompleteCount (effects (start s)) = 0%nat).
Proof.
  intros s.
  assert (Hcount : syncCompleteCount (effects s) = 0%nat).
  { apply (setup_kept (λ x, syncCompleteCount (effects x) = 0%nat));
      try (intros ? x H; by destruct x); [|done].
    intros e x He H. rewrite syncCompleteCount_perform, H. by destruct e. }
  destruct (start_effects s) as (He & Ht & Hp). split.
  - intros Hall.
    assert (Hq : queue s = emptyQueue).
    { subst s. by rewrite setup_nothingRequired_queue. }
    assert (Htasks : tasks (queue (start s)) = []) by (by rewrite Ht, Hq).
    split; [done|]. split.
    + rewrite He, Hcount, Hq. done.
    + unfold runNextTask. by rewrite Hp, Htasks.
  - intros Hne. rewrite He, Hcount.
    rewrite bool_decide_eq_false_2; [done|].
    unfold queue_size. destruct (tasks (queue s)); [done|]. simpl. lia.
Qed.

(** ** What every worker and every run keeps *)

Section EnqueuePreserve.

Variable P : Service → Prop.

Hypothesis P_perform : ∀ e s, e ≠ Emitted_syncComplete → P s → P (perform e s).
Hypothesis P_blockProgress : ∀ t s, P s → P (set_blockProgressTracker t s).
Hypothesis P_blockCallbacks : ∀ m s, P s → P (set_blockCallbacks m s).
Hypothesis P_checkpoint : ∀ c s,
  js_leq (blockTasksEnqueuedCheckpoint s) c → P s → P (set_blockTasksEnqueuedCheckpoint c s).
Hypothesis P_addTask : ∀ task s, P s → P (queue_addTask task (originalPriority task) s).

Lemma fold_enqueueBlockTask_checkpoint (l : list Z) (s : Service) :
  blockTasksEnqueuedCheckpoint (fold_left enqueueBlockTask l s)
  = blockTasksEnqueuedCheckpoint s.
Proof.
  revert s. induction l as [|n l IH]; intros s; cbn [fold_left]; [done|].
  rewrite IH. by destruct s.
Qed.

Lemma enqueueBlockTasks_kept (s : Service) : P s → P (enqueueBlockTasks s).
Proof.
  intros HP. unfold enqueueBlockTasks.
  destruct (js_gt (blockTasksCanBeEnqueuedTo s) (blockTasksEnqueuedCheckpoint s)) eqn:Hgt;
    [|done].
  set (s1 := set_blockProgressTracker _ s).
  assert (Hcp : blockTasksEnqueuedCheckpoint s1 = blockTasksEnqueuedCheckpoint s)
    by (subst s1; by destruct s).
  assert (HP1 : P s1) by (by apply P_blockProgress).
  apply P_checkpoint.
  - replace (blockTasksEnqueuedCheckpoint (perform _ _))
      with (blockTasksEnqueuedCheckpoint s).
    + by apply js_gt_leq.
    + rewrite <- Hcp, <- (fold_enqueueBlockTask_checkpoint (newBlocks s) s1).
      by destruct (fold_left enqueueBlockTask (newBlocks s) s1).
  - apply P_perform; [done|].
    generalize (newBlocks s) as l. revert HP1. generalize s1 as s0. clear -P_blockCallbacks P_addTask.
    intros s0 HP l. revert s0 HP. induction l as [|n l IH]; intros s0 HP; cbn [fold_left]; [done|].
    apply IH. unfold enqueueBlockTask. apply P_blockCallbacks.
    by apply (P_addTask (BLOCK n (default [] (blockCallbacks s0 !! n)))).
Qed.

End EnqueuePreserve.

Section RunPreserve.

Variable P : Service → Prop.
Variable w : World.

Hypothesis P_calls : ∀ n s, P s → P (set_externalCalls n s).
Hypothesis P_perform : ∀ e s, P s → P (perform e s).
Hypothesis P_push : ∀ n callback s, P s → P (pushBlockCallback n callback s).
Hypothesis P_logFilter : ∀ m s, P s → P (set_logFilterProgressTrackers m s).
Hypothesis P_factoryChildAddress :
  ∀ m s, P s → P (set_factoryChildAddressProgressTrackers m s).
Hypothesis P_factoryLogFilter : ∀ m s, P s → P (set_factoryLogFilterProgressTrackers m s).
Hypothesis P_blockFilter : ∀ m s, P s → P (set_blockFilterProgressTrackers m s).
Hypothesis P_blockProgress : ∀ t s, P s → P (set_blockProgressTracker t s).
Hypothesis P_addTask : ∀ task s, P s → P (queue_addTask task (originalPriority task) s).
Hypothesis P_enqueue : ∀ s, P s → P (enqueueBlockTasks s).
Hypothesis P_take : ∀ s task priority rest,
  tasks (queue s) = (task, priority) :: rest → P s →
  P (set_queue {| tasks := rest; pending := 1; isPaused := false |} s).
Hypothesis P_pending : ∀ n s, P s → P (set_queue (set_pending n (queue s)) s).

Lemma worker_kept (task : HistoricalSyncTask) : preserves P (worker w task).
Proof.
  unfold worker. apply preserves_bind.
  - apply taskWorker_preserves; auto.
  - intros _. apply preserves_bind; [apply preserves_get|]. intros s0.
    destruct (_ || _); [apply preserves_ret|].
    destruct (isShuttingDown s0); [apply preserves_ret|].
    apply preserves_bind; [apply preserves_modify; intros s; apply P_perform|]. intros _.
    apply preserves_bind; [apply preserves_modify; intros s; apply P_perform|]. intros _.
    apply preserves_modify. intros s. apply P_perform.
Qed.

Lemma onError_kept (e : Error) (task : HistoricalSyncTask) (s : Service) :
  P s → P (onError e task s).
Proof.
  intros HP. unfold onError. destruct (isShuttingDown s); [done|].
  destruct task.
  - by apply (P_addTask (LOG_FILTER _ _ _)), P_perform.
  - by apply (P_addTask (FACTORY_CHILD_ADDRESS _ _ _)), P_perform.
  - by apply (P_addTask (FACTORY_LOG_FILTER _ _ _)), P_perform.
  - by apply (P_addTask (BLOCK_FILTER _ _ _)), P_perform.
  - by apply (P_addTask (TRACE_FILTER _ _ _)), P_perform.
  - by apply (P_addTask (BLOCK _ _)), P_perform.
Qed.

Lemma runNextTask_kept (s s' : Service) (task : HistoricalSyncTask) :
  P s → runNextTask w s = Some (task, s') → P s'.
Proof.
  intros HP. unfold runNextTask.
  destruct (isPaused (queue s)); [done|].
  destruct (tasks (queue s)) as [|[task0 priority] rest] eqn:Ht; [done|].
  destruct (worker w task0 _) as [r s2] eqn:Hw.
  intros [= <- <-]. apply P_pending.
  assert (P s2).
  { eapply worker_kept; [|exact Hw]. by eapply P_take. }
  destruct r; [by apply onError_kept|done].
Qed.

Lemma runTasks_kept (n : nat) (s : Service) : P s → P (runTasks w n s).2.
Proof.
  revert s. induction n as [|n IH]; intros s HP; simpl; [done|].
  destruct (runNextTask w s) as [[task s']|] eqn:E; [|done].
  specialize (IH s' (runNextTask_kept _ _ _ HP E)).
  by destruct (runTasks w n s').
Qed.

End RunPreserve.

Lemma taskWorker_quiet (w : World) (b : bool) (n : nat) (task : HistoricalSyncTask) :
  preserves (λ x, isShuttingDown x = b ∧ syncCompleteCount (effects x) = n)
    match task with
    | LOG_FILTER logFilter fromBlock toBlock =>
        logFilterTaskWorker w logFilter fromBlock toBlock
    | FACTORY_CHILD_ADDRESS factory fromBlock toBlock =>
        factoryChildAddressTaskWorker w factory fromBlock toBlock
    | FACTORY_LOG_FILTER factory fromBlock toBlock =>
        factoryLogFilterTaskWorker w factory fromBlock toBlock
    | BLOCK_FILTER blockFilter fromBlock toBlock =>
        blockFilterTaskWorker w blockFilter fromBlock toBlock
    | BLOCK blockNumber callbacks => blockTaskWorker w blockNumber callbacks
    | TRACE_FILTER _ _ _ => mret tt
    end.
Proof.
  assert (Hperform : ∀ e x, e ≠ Emitted_syncComplete →
            isShuttingDown x = b ∧ syncCompleteCount (effects x) = n →
            isShuttingDown (perform e x) = b
            ∧ syncCompleteCount (effects (perform e x)) = n).
  { intros e x He [H1 H2]. rewrite syncCompleteCount_perform, H2.
    split; [by destruct x|]. destruct e; try lia. done. }
  apply taskWorker_preserves; try (intros ? x H; by destruct x); try done.
  - intros ? ? x H. by destruct x.
  - apply enqueueBlockTasks_kept; try (intros ? x H; by destruct x); done.
Qed.

(** X8. A worker emits [syncComplete], once, exactly when it returns and then no
    task waits, no other task is in flight and the service is not shutting
    down. It emits nothing when it throws, and nothing once [kill] was
    called; and no worker changes the shutdown flag. *)
Theorem worker_syncComplete (w : World) (task : HistoricalSyncTask) (s s' : Service)
    (r : Error + unit) :
  worker w task s = (r, s') →
  let final :=
    match r with inr _ => true | inl _ => false end
    && negb (bool_decide (0 < queue_size (queue s'))%nat
             || bool_decide (1 < pending (queue s'))%nat)
    && negb (isShuttingDown s) in
  isShuttingDown s' = isShuttingDown s
  ∧ syncCompleteCount (effects s')
    = (syncCompleteCount (effects s) + if final then 1 else 0)%nat.
Proof.
  unfold worker. unfold mbind at 1. unfold M_bind at 1.
  match goal with |- context [match ?c s with _ => _ end] =>
    destruct (c s) as [[e|[]] s1] eqn:E end.
  - intros [= <- <-]. simpl.
    destruct (taskWorker_quiet w _ _ task s _ _ (conj eq_refl eq_refl) E) as [-> ->].
    split; [done|lia].
  - destruct (taskWorker_quiet w _ _ task s _ _ (conj eq_refl eq_refl) E) as [Hsd Hn].
    unfold mbind, M_bind, get, modify, mret, M_ret.
    destruct (bool_decide (0 < queue_size (queue s1))%nat
              || bool_decide (1 < pending (queue s1))%nat) eqn:Hq.
    + intros [= <- <-]. rewrite Hq. simpl. split; [done|lia].
    + rewrite <- Hsd. destruct (isShuttingDown s1) eqn:Hs1.
      * intros [= <- <-]. rewrite Hq. simpl. split; [done|lia].
      * intros [= <- <-]. rewrite !syncCompleteCount_perform, Hn.
        destruct s1. simpl in *. rewrite Hq. simpl. split; [done|lia].
Qed.

(** ** The order of the queue *)

Lemma originalPriority_firstBlock (task : HistoricalSyncTask) :
  originalPriority task = MAX_SAFE_INTEGER - firstBlock task.
Proof. by destruct task. Qed.

Lemma insertByPriority_sorted x (l : list (HistoricalSyncTask * Z)) :
  StronglySorted (λ a b, b.2 <= a.2) l →
  StronglySorted (λ a b, b.2 <= a.2) (insertByPriority x l).
Proof.
  induction 1 as [|y l Hs IH Hall]; simpl; [repeat constructor|].
  case_bool_decide as Hlt.
  - constructor; [by constructor|]. constructor; [lia|].
    eapply Forall_impl; [exact Hall|]. simpl. intros; lia.
  - constructor; [done|]. rewrite insertByPriority_perm. constructor; [lia|done].
Qed.

Lemma queue_addTask_inOrder (task : HistoricalSyncTask) (s : Service) :
  queueInOrder s → queueInOrder (queue_addTask task (originalPriority task) s).
Proof.
  intros [Hs Hp]. unfold queueInOrder. destruct s. simpl in *. split.
  - by apply insertByPriority_sorted.
  - rewrite insertByPriority_perm. constructor; [|done].
    apply originalPriority_firstBlock.
Qed.

Lemma runTasks_inOrder (w : World) (n : nat) (s : Service) :
  queueInOrder s → queueInOrder (runTasks w n s).2.
Proof.
  apply runTasks_kept; try (intros ? x H; by destruct x).
  - intros ? ? x H. by destruct x.
  - intros task x. apply queue_addTask_inOrder.
  - apply enqueueBlockTasks_kept; try (intros ? x H; by destruct x).
    intros task x. apply queue_addTask_inOrder.
  - intros x task priority rest Ht [Hs Hp]. rewrite Ht in Hs, Hp.
    apply StronglySorted_inv in Hs as [Hs _]. apply Forall_cons in Hp as [_ Hp].
    unfold queueInOrder. by destruct x.
Qed.

Lemma setup_inOrder (w : World) (latest finalized : Z) (s : Service) :
  queueInOrder s → queueInOrder (setup w latest finalized s).
Proof.
  intros H. apply setup_kept; try (intros ? x Hx; by destruct x).
  - intros task x. apply queue_addTask_inOrder.
  - by destruct s.
Qed.

(** X9. From [setup] and [start] on, through any number of tasks, failed or not,
    the task that the queue runs next has the least first block ([fromBlock],
    or [blockNumber] for a BLOCK task) of all the tasks that wait, and every
    task waits at priority [MAX_SAFE_INTEGER] minus its first block. *)
Theorem next_task_has_least_block (w : World) (latestBlockNumber finalizedBlockNumber : Z)
    (network : Network) (sources : list Source.t) (n : nat) (task : HistoricalSyncTask)
    (s' : Service) :
  let s := (runTasks w n
              (start (setup w latestBlockNumber finalizedBlockNumber
                        (newService network sources)))).2 in
  runNextTask w s = Some (task, s') →
  (∀ x, x ∈ tasks (queue s) →
     firstBlock task <= firstBlock x.1 ∧ x.2 = MAX_SAFE_INTEGER - firstBlock x.1)
  ∧ queueInOrder s'.
Proof.
  intros s Hnext.
  assert (Hs : queueInOrder s).
  { apply runTasks_inOrder.
    assert (H0 : queueInOrder (setup w latestBlockNumber finalizedBlockNumber
                                 (newService network sources))).
    { apply setup_inOrder. split; simpl; constructor. }
    unfold queueInOrder in *. by rewrite (proj1 (proj2 (start_effects _))). }
  split.
  - destruct Hs as [Hsorted Hp]. unfold runNextTask in Hnext.
    destruct (isPaused (queue s)); [done|].
    destruct (tasks (queue s)) as [|[task0 priority] rest] eqn:Ht; [done|].
    destruct (worker w task0 _) as [r s2]. injection Hnext as <- _.
    apply StronglySorted_inv in Hsorted as [_ Hall].
    rewrite Forall_forall in Hp. rewrite Forall_forall in Hall.
    intros x Hx. split; [|by apply Hp].
    pose proof (Hp _ ltac:(by left)) as H0. simpl in H0.
    apply elem_of_cons in Hx as [->|Hx]; [simpl; lia|].
    pose proof (Hp x ltac:(by right)) as Hx2. specialize (Hall x Hx). simpl in Hall. lia.
  - pose proof (runTasks_inOrder w 1 s Hs) as H1. simpl in H1. by rewrite Hnext in H1.
Qed.

(** X10. Through any number of tasks, [blockTasksEnqueuedCheckpoint] never goes
    down and the shutdown flag is never changed. *)
Theorem runTasks_checkpoint_grows (w : World) (n : nat) (s : Service) :
  js_leq (blockTasksEnqueuedCheckpoint s) (blockTasksEnqueuedCheckpoint (runTasks w n s).2)
  ∧ isShuttingDown (runTasks w n s).2 = isShuttingDown s.
Proof.
  set (P := λ x : Service,
    js_leq (blockTasksEnqueuedCheckpoint s) (blockTasksEnqueuedCheckpoint x)
    ∧ isShuttingDown x = isShuttingDown s).
  apply (runTasks_kept P); unfold P; try (intros ? x H; by destruct x).
  - intros ? ? x H. by destruct x.
  - intros x [H1 H2]. split.
    + eapply js_leq_trans; [exact H1|]. apply enqueueBlockTasks_checkpoint_grows.
    + rewrite <- H2.
      apply (enqueueBlockTasks_kept (λ y, isShuttingDown y = isShuttingDown x));
        try (intros ? y H; by destruct y); done.
  - intros x ? ? ? _ H. by destruct x.
  - split; [apply js_leq_refl|done].
Qed.

(** ** [onError] within the queue *)

Lemma enqueueBlockTasks_isShuttingDown (s : Service) :
  isShuttingDown (enqueueBlockTasks s) = isShuttingDown s.
Proof.
  apply (enqueueBlockTasks_kept (λ y, isShuttingDown y = isShuttingDown s));
    try (intros ? y H; by destruct y); done.
Qed.

Lemma worker_isShuttingDown (w : World) (task : HistoricalSyncTask) (s s' : Service)
    (r : Error + unit) :
  worker w task s = (r, s') → isShuttingDown s' = isShuttingDown s.
Proof.
  intros Hw.
  apply (worker_kept (λ x, isShuttingDown x = isShuttingDown s) w) with (task := task)
    (s := s) (r := r);
    try (intros ? x H; by destruct x); try (intros ? ? x H; by destruct x); try done.
  intros x H. by rewrite enqueueBlockTasks_isShuttingDown.
Qed.

Lemma setup_start_run_isShuttingDown (w : World) (latest finalized : Z) (network : Network)
    (sources : list Source.t) (n : nat) :
  isShuttingDown
    (runTasks w n (start (setup w latest finalized (newService network sources)))).2 = false.
Proof.
  apply (runTasks_kept (λ x, isShuttingDown x = false) w);
    try (intros ? x H; by destruct x); try (intros ? ? x H; by destruct x).
  - intros x H. by rewrite enqueueBlockTasks_isShuttingDown.
  - intros x ? ? ? _ H. by destruct x.
  - assert (Hsetup : isShuttingDown (setup w latest finalized (newService network sources))
                     = false).
    { apply (setup_kept (λ x, isShuttingDown x = false));
        try (intros ? x H; by destruct x); try (intros ? x ? H; by destruct x); done. }
    cbv beta. unfold start. case_bool_decide; by destruct (setup _ _ _ _).
Qed.

Lemma setup_start_run_inOrder (w : World) (latest finalized : Z) (network : Network)
    (sources : list Source.t) (n : nat) :
  queueInOrder
    (runTasks w n (start (setup w latest finalized (newService network sources)))).2.
Proof.
  apply runTasks_inOrder.
  assert (H0 : queueInOrder (setup w latest finalized (newService network sources)))
    by (apply setup_inOrder; split; simpl; constructor).
  unfold queueInOrder in *. by rewrite (proj1 (proj2 (start_effects _))).
Qed.

(** C9. A task whose worker throws is handed to [onError] by the queue.
    When the service is not shutting down, the task is in the queue again
    afterwards, with the same callbacks or range, at
    [MAX_SAFE_INTEGER - fromBlock] ([MAX_SAFE_INTEGER - blockNumber] for a
    BLOCK task), one task more than the worker left, and one warning is
    logged; in a run that began with [setup] and [start] this is the
    priority the task was taken from the queue with, and the service is not
    shutting down. When the service is shutting down, no task is added and
    nothing is logged; [kill] sets the flag, also while the task is in
    flight, and [onError] then leaves the service as [kill] left it. For
    every kind of task and every service, the queue and the log after
    [onError] are as said. *)
Theorem onError_retries (w : World) (s s2 : Service) (task : HistoricalSyncTask)
    (priority : Z) (rest : list (HistoricalSyncTask * Z)) (e : Error) :
  isPaused (queue s) = false →
  tasks (queue s) = (task, priority) :: rest →
  worker w task (set_queue {| tasks := rest; pending := 1; isPaused := false |} s)
    = (inl e, s2) →
  let retryPriority (failed : HistoricalSyncTask) :=
    MAX_SAFE_INTEGER
    - match failed with
      | BLOCK blockNumber _ => blockNumber
      | LOG_FILTER _ fromBlock _ | FACTORY_CHILD_ADDRESS _ fromBlock _
      | FACTORY_LOG_FILTER _ fromBlock _ | BLOCK_FILTER _ fromBlock _
      | TRACE_FILTER _ fromBlock _ => fromBlock
      end in
  ∃ s', runNextTask w s = Some (task, s')
    ∧ (isShuttingDown s = false →
         tasks (queue s') = insertByPriority (task, retryPriority task) (tasks (queue s2))
         ∧ (task, retryPriority task) ∈ tasks (queue s')
         ∧ length (tasks (queue s')) = S (length (tasks (queue s2)))
         ∧ effects s' = effects s2 ++ [Logged warn_ (TaskFailedRetrying task e)])
    ∧ (isShuttingDown s = true →
         tasks (queue s') = tasks (queue s2) ∧ effects s' = effects s2)
    ∧ (∀ latestBlockNumber finalizedBlockNumber network sources n,
         s = (runTasks w n (start (setup w latestBlockNumber finalizedBlockNumber
                                     (newService network sources)))).2 →
         priority = retryPriority task ∧ isShuttingDown s = false)
    ∧ isShuttingDown (kill s2) = true
    ∧ onError e task (kill s2) = kill s2
    ∧ (∀ (failed : HistoricalSyncTask) (x : Service),
         tasks (queue (onError e failed x))
         = (if isShuttingDown x then tasks (queue x)
            else insertByPriority (failed, retryPriority failed) (tasks (queue x)))
         ∧ effects (onError e failed x)
           = (if isShuttingDown x then effects x
              else effects x ++ [Logged warn_ (TaskFailedRetrying failed e)])).
Proof.
  intros Hpaused Htasks Hw retryPriority.
  assert (Hretry : ∀ failed, retryPriority failed = originalPriority failed)
    by (intros failed; by destruct failed).
  assert (Hon : ∀ failed x, isShuttingDown x = false →
                onError e failed x
                = queue_addTask failed (retryPriority failed)
                    (perform (Logged warn_ (TaskFailedRetrying failed e)) x)).
  { intros failed x Hsd. unfold onError. rewrite Hsd. subst retryPriority. by destruct failed. }
  pose proof (worker_isShuttingDown _ _ _ _ _ Hw) as Hflag.
  replace (isShuttingDown (set_queue _ s)) with (isShuttingDown s) in Hflag by (by destruct s).
  exists (set_queue (set_pending 0 (queue (onError e task s2))) (onError e task s2)).
  split; [by apply runNextTask_onError with (priority := priority) (rest := rest)|].
  split; [|split; [|split; [|split; [|split]]]].
  - intros Hsd. rewrite (Hon task s2) by (by rewrite Hflag).
    assert (Ht : tasks (queue (set_queue
                   (set_pending 0 (queue (queue_addTask task (retryPriority task)
                      (perform (Logged warn_ (TaskFailedRetrying task e)) s2))))
                   (queue_addTask task (retryPriority task)
                      (perform (Logged warn_ (TaskFailedRetrying task e)) s2))))
                 = insertByPriority (task, retryPriority task) (tasks (queue s2)))
      by (by destruct s2).
    split; [done|]. split; [|split].
    + rewrite Ht, insertByPriority_perm. by left.
    + by rewrite Ht, insertByPriority_perm.
    + by destruct s2.
  - intros Hsd. unfold onError. rewrite Hflag, Hsd. by destruct s2.
  - intros latest finalized network sources n ->.
    pose proof (setup_start_run_inOrder w latest finalized network sources n) as [_ Hp].
    rewrite Htasks in Hp. apply Forall_cons in Hp as [Hp _]. simpl in Hp.
    split; [by rewrite Hretry, originalPriority_firstBlock|].
    apply setup_start_run_isShuttingDown.
  - by destruct s2.
  - unfold onError. by destruct s2.
  - intros failed x. destruct (isShuttingDown x) eqn:Hsd.
    + unfold onError. by rewrite Hsd.
    + rewrite (Hon failed x Hsd). by destruct x.
Qed.

(** ** A BLOCK task whose block the RPC does not have *)

(** X11. When [eth_getBlockByNumber] answers [null], the BLOCK worker throws
    [BlockNotFoundError] before any callback runs: nothing is inserted, the
    block is not marked completed, and the queue logs a warning and puts the
    task back with its callbacks at priority [MAX_SAFE_INTEGER -
    blockNumber]. *)
Theorem blockTask_block_not_found (w : World) (s : Service) (blockNumber : Z)
    (callbacks : list BlockCallback) (priority : Z)
    (rest : list (HistoricalSyncTask * Z)) :
  isPaused (queue s) = false →
  isShuttingDown s = false →
  tasks (queue s) = (BLOCK blockNumber callbacks, priority) :: rest →
  eth_getBlockByNumber w (externalCalls s) blockNumber = inr None →
  ∃ s', runNextTask w s = Some (BLOCK blockNumber callbacks, s')
    ∧ tasks (queue s')
      = insertByPriority (BLOCK blockNumber callbacks, MAX_SAFE_INTEGER - blockNumber) rest
    ∧ effects s'
      = effects s ++ [Logged warn_ (TaskFailedRetrying (BLOCK blockNumber callbacks)
                                      (BlockNotFoundError blockNumber))]
    ∧ blockProgressTracker s' = blockProgressTracker s
    ∧ blockCallbacks s' = blockCallbacks s
    ∧ allProgressTrackers s' = allProgressTrackers s.
Proof.
  intros Hp Hsd Ht Hnone. unfold runNextTask. rewrite Hp, Ht.
  unfold worker, blockTaskWorker, _eth_getBlockByNumber.
  unfold mbind at 1. unfold M_bind at 1.
  unfold mbind at 1. unfold M_bind at 1.
  unfold mbind at 1. unfold M_bind at 1.
  rewrite external_eq.
  destruct s as [? ? ? ? ? ? ? ? ? ? q sd es calls]. simpl in *.
  rewrite Hnone. unfold throw. subst sd. simpl.
  eexists. split; [reflexivity|]. repeat split; reflexivity.
Qed.

(** ** Receipts *)

Lemma mapAll_receipts (w : World) (hs : list string) (s s' : Service) (rs : list string) :
  mapAll (_eth_getTransactionReceipt w) hs s = (inr rs, s') →
  Forall2 (λ h r, ∃ t, eth_getTransactionReceipt w t h = inr (Some r)) hs rs.
Proof.
  revert s s' rs. induction hs as [|h hs IH]; intros s s' rs; simpl.
  - unfold mret, M_ret. intros [= <- _]. constructor.
  - intros H. apply bind_inr in H as (r & s1 & H1 & H2).
    apply bind_inr in H2 as (rs' & s2 & H2 & H3).
    unfold mret, M_ret in H3. injection H3 as <- _.
    constructor; [|by eapply IH].
    unfold _eth_getTransactionReceipt, mbind, M_bind in H1. rewrite external_eq in H1.
    destruct (eth_getTransactionReceipt w (externalCalls s) h) as [e|[x|]] eqn:E;
      unfold mret, M_ret, throw in H1; try done.
    injection H1 as <- _. by exists (externalCalls s).
Qed.

Lemma storeInsert_effects (w : World) (i : StoreInsert) (s s' : Service) r :
  storeInsert w i s = (r, s') →
  effects s' = match r with inr _ => effects s ++ [Inserted i] | inl _ => effects s end.
Proof.
  unfold storeInsert, mbind, M_bind. rewrite external_eq.
  destruct (insertFails w (externalCalls s) i) as [e|].
  - intros [= <- <-]. by destruct s.
  - unfold modify. intros [= <- <-]. by destruct s.
Qed.

(** X12. A log-filter callback inserts its interval only once every receipt it
    needs is there. When it returns it has made one insert, of the block's
    transactions whose hash is among the interval's, with one receipt per
    such transaction, each the RPC's answer for it, if the source includes
    receipts, and with no receipt otherwise. When it throws, for a receipt
    that is [null] for instance, it has inserted nothing. *)
Theorem logFilterCallback_receipts (w : World) (block : HistoricalBlock)
    (logFilter : Source.t) (logInterval : LogInterval) (address topics : list string)
    (includeTransactionReceipts : bool) (s s' : Service) (r : Error + unit) :
  Source.criteria logFilter = LogFilterCriteria address topics includeTransactionReceipts →
  runCallback w block (LogFilterCallback logFilter logInterval) s = (r, s') →
  match r with
  | inr _ =>
      ∃ receipts,
        effects s'
        = effects s
          ++ [Inserted (insertLogFilterInterval (Source.chainId logFilter)
                (Source.criteria logFilter) block
                (transactionsIn block (transactionHashes logInterval)) receipts
                (logs logInterval) (startBlock logInterval, endBlock logInterval))]
        ∧ if includeTransactionReceipts
          then Forall2 (λ h receipt, ∃ t, eth_getTransactionReceipt w t h = inr (Some receipt))
                 (transactionsIn block (transactionHashes logInterval)) receipts
          else receipts = []
  | inl _ => effects s' = effects s
  end.
Proof.
  intros Hc. simpl. rewrite Hc. unfold mbind at 1. unfold M_bind at 1.
  destruct includeTransactionReceipts.
  - destruct (mapAll _ _ s) as [[e|rs] s1] eqn:E1.
    + intros [= <- <-]. by apply receipts_quiet in E1 as [-> _].
    + intros H. pose proof (storeInsert_effects _ _ _ _ _ H) as He.
      destruct (receipts_quiet _ _ _ _ _ E1) as [He1 _]. rewrite He1 in He.
      destruct r; [done|]. exists rs. split; [done|]. by eapply mapAll_receipts.
  - unfold mret at 1. unfold M_ret at 1.
    intros H. pose proof (storeInsert_effects _ _ _ _ _ H) as He.
    destruct r; [done|]. by exists [].
Qed.

(** ** Tasks whose request fails *)

Lemma forEach_modify {A : Type} (f : A → Service → Service) (l : list A) (s : Service) :
  forEach (λ x, modify (f x)) l s = (inr tt, fold_left (λ s x, f x s) l s).
Proof.
  revert s. induction l as [|x l IH]; intros s; simpl; [done|].
  unfold mbind, M_bind, modify at 1. by rewrite IH.
Qed.

Lemma fold_pushBlockCallback (callback : LogInterval → BlockCallback) (l : list LogInterval)
    (s : Service) :
  ∃ m, fold_left (λ s li, pushBlockCallback (endBlock li) (callback li) s) l s
       = set_blockCallbacks m s.
Proof.
  revert s. induction l as [|li l IH]; intros s; simpl.
  - exists (blockCallbacks s). by destruct s.
  - destruct (IH (pushBlockCallback (endBlock li) (callback li) s)) as [m ->].
    exists m. by destruct s.
Qed.

Lemma external_quiet {A : Type} (call : nat → Error + A) (s s' : Service) r :
  external call s = (r, s') → progressOf s' = progressOf s ∧ effects s' = effects s.
Proof. rewrite external_eq. intros [= <- <-]. by destruct s. Qed.

Lemma getLogs_quiet (w : World) address topics fromBlock toBlock (s s' : Service) r :
  _eth_getLogs w address topics fromBlock toBlock s = (r, s') →
  progressOf s' = progressOf s ∧ effects s' = effects s.
Proof. apply external_quiet. Qed.

Lemma mapAll_getLogs_quiet (w : World) (topics : list string) (fromBlock toBlock : Z)
    (batches : list (list string)) (s s' : Service) r :
  mapAll (λ batch, _eth_getLogs w batch topics fromBlock toBlock) batches s = (r, s') →
  progressOf s' = progressOf s ∧ effects s' = effects s.
Proof.
  apply (preserves_mapAll (λ x, progressOf x = progressOf s ∧ effects x = effects s));
    [|done].
  intros batch. apply preserves_external. intros n x H. by destruct x.
Qed.

(** The end of the FACTORY_CHILD_ADDRESS worker, from the registration of
    the callbacks on: it returns when the factory has its two trackers, marks
    the interval completed and, if the checkpoint moved, adds the chunks of
    what the log-filter tracker requires between the two checkpoints. *)
Lemma childAddress_end (w : World) (factory : Source.t) (fromBlock toBlock : Z)
    (logIntervals : list LogInterval) (tc tl : ProgressTracker) (s : Service) :
  factoryChildAddressProgressTrackers s !! Source.id factory = Some tc →
  factoryLogFilterProgressTrackers s !! Source.id factory = Some tl →
  let r := (addCompletedInterval (fromBlock, toBlock) tc).2 in
  let chunks :=
    if isUpdated r
    then getChunks (intervalIntersection [(prevCheckpoint r + 1, newCheckpoint r)]
                      (getRequired tl)) (maxChunkSizeOf factory s)
    else [] in
  ∃ m,
    (forEach (λ logInterval,
       modify (pushBlockCallback (endBlock logInterval)
                 (FactoryChildAddressCallback factory logInterval))) logIntervals;;
     r ← markCompleted factoryChildAddressProgressTrackers
            set_factoryChildAddressProgressTrackers (Source.id factory)
            (fromBlock, toBlock);
     (if isUpdated r then
        s ← get;
        match factoryLogFilterProgressTrackers s !! Source.id factory with
        | None => throw (TypeError "undefined tracker")
        | Some t =>
            let requiredIntervals :=
              intervalIntersection [(prevCheckpoint r + 1, newCheckpoint r)] (getRequired t) in
            let factoryLogFilterChunks :=
              getChunks requiredIntervals (maxChunkSizeOf factory s) in
            modify (addChunkTasks (FACTORY_LOG_FILTER factory) factoryLogFilterChunks)
        end
      else mret tt);;
     modify (perform (Logged trace_
               (CompletedTask (FACTORY_CHILD_ADDRESS factory fromBlock toBlock))))) s
    = (inr tt,
       perform (Logged trace_
                  (CompletedTask (FACTORY_CHILD_ADDRESS factory fromBlock toBlock)))
         (addChunkTasks (FACTORY_LOG_FILTER factory) chunks
            (set_factoryChildAddressProgressTrackers
               (<[Source.id factory := (addCompletedInterval (fromBlock, toBlock) tc).1]>
                  (factoryChildAddressProgressTrackers s))
               (set_blockCallbacks m s)))).
Proof.
  intros Htc Htl r chunks. subst r chunks.
  unfold mbind at 1. unfold M_bind at 1. rewrite forEach_modify.
  destruct (fold_pushBlockCallback (FactoryChildAddressCallback factory) logIntervals s)
    as [m ->].
  exists m.
  assert (H1 : factoryChildAddressProgressTrackers (set_blockCallbacks m s)
               = factoryChildAddressProgressTrackers s) by (by destruct s).
  unfold markCompleted, mbind, M_bind, get, modify, mret, M_ret, throw.
  rewrite H1, Htc.
  destruct (addCompletedInterval (fromBlock, toBlock) tc) as [t' r]. cbv beta iota.
  cbn [fst snd].
  destruct (isUpdated r); cbv beta iota.
  - assert (H2 : ∀ n, factoryLogFilterProgressTrackers
                        (set_factoryChildAddressProgressTrackers n (set_blockCallbacks m s))
                      = factoryLogFilterProgressTrackers s) by (intros; by destruct s).
    assert (H3 : ∀ n, maxChunkSizeOf factory
                        (set_factoryChildAddressProgressTrackers n (set_blockCallbacks m s))
                      = maxChunkSizeOf factory s) by (intros; by destruct s).
    rewrite H2, Htl. cbv beta iota zeta. by rewrite H3.
  - done.
Qed.

Lemma mapAll_getLogs_fails (w : World) (topics : list string) (fromBlock toBlock : Z)
    (answered : list (list string)) (batch : list string) (rest : list (list string))
    (s : Service) (e : Error) :
  (∀ (j : nat) b, answered !! j = Some b →
     ∃ ls, eth_getLogs w (externalCalls s + j) b topics fromBlock toBlock = inr ls) →
  eth_getLogs w (externalCalls s + length answered) batch topics fromBlock toBlock = inl e →
  ∃ s', mapAll (λ b, _eth_getLogs w b topics fromBlock toBlock)
          (answered ++ batch :: rest) s = (inl e, s').
Proof.
  revert s. induction answered as [|b0 answered IH]; intros s Hok Hfail; simpl.
  - unfold mbind at 1. unfold M_bind at 1. unfold _eth_getLogs. rewrite external_eq.
    simpl in Hfail. rewrite Nat.add_0_r in Hfail. rewrite Hfail. by eexists.
  - unfold mbind at 1. unfold M_bind at 1. unfold _eth_getLogs at 1. rewrite external_eq.
    destruct (Hok 0%nat b0 eq_refl) as [ls Hls]. rewrite Nat.add_0_r in Hls. rewrite Hls.
    set (s1 := set_externalCalls _ s).
    assert (Hc : externalCalls s1 = S (externalCalls s)) by (subst s1; by destruct s).
    destruct (IH s1) as [s' Hs'].
    + intros j b Hb. destruct (Hok (S j) b Hb) as [ls' Hls']. exists ls'.
      rewrite Hc. by replace (S (externalCalls s) + j)%nat with (externalCalls s + S j)%nat by lia.
    + rewrite Hc. simpl in Hfail.
      by replace (S (externalCalls s) + length answered)%nat
        with (externalCalls s + S (length answered))%nat by lia.
    + exists s'. unfold mbind, M_bind in *. by rewrite Hs'.
Qed.

Lemma worker_throws (w : World) (task : HistoricalSyncTask) (s s' : Service) (e : Error) :
  match task with
  | LOG_FILTER logFilter fromBlock toBlock =>
      logFilterTaskWorker w logFilter fromBlock toBlock
  | FACTORY_CHILD_ADDRESS factory fromBlock toBlock =>
      factoryChildAddressTaskWorker w factory fromBlock toBlock
  | FACTORY_LOG_FILTER factory fromBlock toBlock =>
      factoryLogFilterTaskWorker w factory fromBlock toBlock
  | BLOCK_FILTER blockFilter fromBlock toBlock =>
      blockFilterTaskWorker w blockFilter fromBlock toBlock
  | BLOCK blockNumber callbacks => blockTaskWorker w blockNumber callbacks
  | TRACE_FILTER _ _ _ => mret tt
  end s = (inl e, s') →
  worker w task s = (inl e, s').
Proof. intros H. unfold worker, mbind, M_bind. by rewrite H. Qed.

(** X13. A LOG_FILTER, FACTORY_CHILD_ADDRESS or FACTORY_LOG_FILTER task makes
    its requests before it changes the service. When the [eth_getLogs]
    request of a LOG_FILTER task fails; when the [eth_getLogs] request of a
    FACTORY_CHILD_ADDRESS task fails, or the insert of the child-address logs
    that follows it; when [getFactoryChildAddresses] fails for a
    FACTORY_LOG_FILTER task, or the [eth_getLogs] request for one of the
    batches of addresses after those for the batches before it were
    answered: the worker throws that error, and no callback was registered,
    no tracker moved, no task was added, nothing was inserted or logged. *)
Theorem log_tasks_fail_without_trace (w : World) (s : Service) (e : Error) :
  (∀ logFilter fromBlock toBlock address topics includeTransactionReceipts,
     Source.criteria logFilter = LogFilterCriteria address topics includeTransactionReceipts →
     eth_getLogs w (externalCalls s) address topics fromBlock toBlock = inl e →
     ∃ s', worker w (LOG_FILTER logFilter fromBlock toBlock) s = (inl e, s')
       ∧ progressOf s' = progressOf s ∧ effects s' = effects s)
  ∧ (∀ factory fromBlock toBlock address eventSelector topics includeTransactionReceipts,
       Source.criteria factory
       = FactoryCriteria address eventSelector topics includeTransactionReceipts →
       eth_getLogs w (externalCalls s) [address] [eventSelector] fromBlock toBlock = inl e
       ∨ (∃ ls, eth_getLogs w (externalCalls s) [address] [eventSelector] fromBlock toBlock
                = inr ls
                ∧ insertFails w (S (externalCalls s))
                    (insertFactoryChildAddressLogs (Source.chainId factory) ls) = Some e) →
       ∃ s', worker w (FACTORY_CHILD_ADDRESS factory fromBlock toBlock) s = (inl e, s')
         ∧ progressOf s' = progressOf s ∧ effects s' = effects s)
  ∧ (∀ factory fromBlock toBlock address eventSelector topics includeTransactionReceipts,
       Source.criteria factory
       = FactoryCriteria address eventSelector topics includeTransactionReceipts →
       getFactoryChildAddresses w (externalCalls s) (Source.chainId factory)
         (Source.criteria factory) (Source.startBlock factory) toBlock = inl e
       ∨ (∃ answered batch rest,
            getFactoryChildAddresses w (externalCalls s) (Source.chainId factory)
              (Source.criteria factory) (Source.startBlock factory) toBlock
            = inr (answered ++ batch :: rest)
            ∧ (∀ (j : nat) b, answered !! j = Some b →
                 ∃ ls, eth_getLogs w (S (externalCalls s) + j) b topics fromBlock toBlock
                       = inr ls)
            ∧ eth_getLogs w (S (externalCalls s) + length answered) batch topics
                fromBlock toBlock = inl e) →
       ∃ s', worker w (FACTORY_LOG_FILTER factory fromBlock toBlock) s = (inl e, s')
         ∧ progressOf s' = progressOf s ∧ effects s' = effects s).
Proof.
  assert (Hcalls : ∀ n, progressOf (set_externalCalls n s) = progressOf s
                        ∧ effects (set_externalCalls n s) = effects s
                        ∧ externalCalls (set_externalCalls n s) = n)
    by (intros n; by destruct s).
  split; [|split].
  - intros logFilter fromBlock toBlock address topics incl Hc Hfail.
    exists (set_externalCalls (S (externalCalls s)) s).
    split; [|by destruct (Hcalls (S (externalCalls s))) as (? & ? & _)].
    apply worker_throws. unfold logFilterTaskWorker. rewrite Hc.
    unfold mbind at 1. unfold M_bind at 1. unfold _eth_getLogs.
    by rewrite external_eq, Hfail.
  - intros factory fromBlock toBlock address eventSelector topics incl Hc [Hfail|Hfail].
    + exists (set_externalCalls (S (externalCalls s)) s).
      split; [|by destruct (Hcalls (S (externalCalls s))) as (? & ? & _)].
      apply worker_throws. unfold factoryChildAddressTaskWorker. rewrite Hc.
      unfold mbind at 1. unfold M_bind at 1. unfold _eth_getLogs.
      by rewrite external_eq, Hfail.
    + destruct Hfail as (ls & Hls & Hins).
      destruct (Hcalls (S (externalCalls s))) as (Hp1 & He1 & Hc1).
      exists (set_externalCalls (S (S (externalCalls s))) (set_externalCalls (S (externalCalls s)) s)).
      split.
      * apply worker_throws. unfold factoryChildAddressTaskWorker. rewrite Hc.
        unfold mbind at 1. unfold M_bind at 1. unfold _eth_getLogs.
        rewrite external_eq, Hls.
        unfold mbind at 1. unfold M_bind at 1. unfold storeInsert.
        unfold mbind at 1. unfold M_bind at 1.
        rewrite external_eq, Hc1, Hins. done.
      * rewrite <- Hp1, <- He1. by destruct (set_externalCalls (S (externalCalls s)) s).
  - intros factory fromBlock toBlock address eventSelector topics incl Hc [Hfail|Hfail].
    + exists (set_externalCalls (S (externalCalls s)) s).
      split; [|by destruct (Hcalls (S (externalCalls s))) as (? & ? & _)].
      apply worker_throws. unfold factoryLogFilterTaskWorker. rewrite Hc. rewrite <- Hc.
      unfold mbind at 1. unfold M_bind at 1.
      by rewrite external_eq, Hfail.
    + destruct Hfail as (answered & batch & rest & Hget & Hok & Hbad).
      destruct (Hcalls (S (externalCalls s))) as (Hp1 & He1 & Hc1).
      destruct (mapAll_getLogs_fails w topics fromBlock toBlock answered batch rest
                  (set_externalCalls (S (externalCalls s)) s) e) as [s' Hs'].
      { intros j b Hb. rewrite Hc1. by apply Hok. }
      { by rewrite Hc1. }
      exists s'. split.
      * apply worker_throws. unfold factoryLogFilterTaskWorker. rewrite Hc. rewrite <- Hc.
        unfold mbind at 1. unfold M_bind at 1. rewrite external_eq, Hget.
        unfold mbind at 1. unfold M_bind at 1. by rewrite Hs'.
      * destruct (mapAll_getLogs_quiet _ _ _ _ _ _ _ _ Hs') as [-> ->]. done.
Qed.

(** ** From child addresses to log-filter tasks *)

Lemma covers_intervalIntersection (a b : list interval) (n : Z) :
  covers (intervalIntersection a b) n ↔ covers a n ∧ covers b n.
Proof.
  unfold intervalIntersection.
  assert (Hcap : ∀ i r, covers (capOne i r) n ↔ contains i n ∧ contains r n).
  { intros [i1 i2] [r1 r2]. unfold capOne, contains. simpl. case_bool_decide.
    - rewrite covers_singleton. unfold contains. simpl. lia.
    - split; [by intros ?%covers_nil|lia]. }
  assert (Hrow : ∀ i, covers (flat_map (λ r, capOne i r) b) n ↔ contains i n ∧ covers b n).
  { intros i. induction b as [|r b IH]; simpl.
    - split; [by intros ?%covers_nil|by intros [_ ?%covers_nil]].
    - rewrite covers_app, covers_cons, Hcap, IH. tauto. }
  induction a as [|i a IH]; simpl.
  - split; [by intros ?%covers_nil|by intros [?%covers_nil _]].
  - rewrite covers_app, covers_cons, Hrow, IH. tauto.
Qed.

(** X14. A FACTORY_CHILD_ADDRESS task that returns marks its range completed in
    the child-address tracker and adds FACTORY_LOG_FILTER tasks only if the
    child-address checkpoint moved: one task per chunk of what the log-filter
    tracker still requires between the old checkpoint (excluded) and the new
    one (included). No log-filter task is added for a block above the new
    checkpoint, and the log-filter tracker is not touched. *)
Theorem factoryChildAddress_enqueues (w : World) (factory : Source.t)
    (fromBlock toBlock : Z) (s s' : Service) (tc tl : ProgressTracker) :
  factoryChildAddressProgressTrackers s !! Source.id factory = Some tc →
  factoryLogFilterProgressTrackers s !! Source.id factory = Some tl →
  factoryChildAddressTaskWorker w factory fromBlock toBlock s = (inr tt, s') →
  let r := (addCompletedInterval (fromBlock, toBlock) tc).2 in
  let chunks :=
    if isUpdated r
    then getChunks (intervalIntersection [(prevCheckpoint r + 1, newCheckpoint r)]
                      (getRequired tl)) (maxChunkSizeOf factory s)
    else [] in
  tasks (queue s')
  ≡ₚ tasks (queue s)
     ++ ((λ c, (FACTORY_LOG_FILTER factory c.1 c.2, MAX_SAFE_INTEGER - c.1)) <$> chunks)
  ∧ (∀ c n, c ∈ chunks → contains c n →
       prevCheckpoint r < n <= newCheckpoint r ∧ covers (getRequired tl) n)
  ∧ factoryChildAddressProgressTrackers s' !! Source.id factory
    = Some (addCompletedInterval (fromBlock, toBlock) tc).1
  ∧ factoryLogFilterProgressTrackers s' = factoryLogFilterProgressTrackers s.
Proof.
  intros Htc Htl Hw r chunks.
  unfold factoryChildAddressTaskWorker in Hw.
  destruct (Source.criteria factory); try done.
  apply bind_inr in Hw as (ls & s1 & H1 & Hw).
  apply bind_inr in Hw as ([] & s2 & H2 & Hw).
  assert (Hkeep : network s2 = network s ∧ progressOf s2 = progressOf s).
  { set (P := λ x : Service, network x = network s ∧ progressOf x = progressOf s).
    assert (Hcalls : ∀ n x, P x → P (set_externalCalls n x))
      by (intros ? x H; by destruct x).
    assert (Hperform : ∀ e x, e ≠ Emitted_syncComplete → P x → P (perform e x))
      by (intros ? x _ H; by destruct x).
    pose proof (getLogs_preserves P w Hcalls _ _ _ _ s _ _ (conj eq_refl eq_refl) H1) as Hk1.
    exact (storeInsert_preserves P w Hcalls Hperform _ s1 _ _ Hk1 H2). }
  destruct Hkeep as [Hnet Hp].
  assert (Hproj : factoryChildAddressProgressTrackers s2
                  = factoryChildAddressProgressTrackers s
                ∧ factoryLogFilterProgressTrackers s2 = factoryLogFilterProgressTrackers s
                ∧ queue s2 = queue s).
  { unfold progressOf in Hp. by injection Hp. }
  destruct Hproj as (Hc & Hl & Hq).
  rewrite <- Hc in Htc. rewrite <- Hl in Htl.
  destruct (childAddress_end w factory fromBlock toBlock (buildLogIntervals fromBlock toBlock ls)
              tc tl s2 Htc Htl) as [m Hm].
  pose proof (eq_trans (eq_sym Hm) Hw) as Hs'. injection Hs' as Hs'.
  assert (Hsize : maxChunkSizeOf factory s2 = maxChunkSizeOf factory s)
    by (unfold maxChunkSizeOf; by rewrite Hnet).
  rewrite Hsize in Hs'. fold r in Hs'. fold chunks in Hs'.
  split; [|split; [|split]].
  - rewrite <- Hs', perform_queue, addChunkTasks_tasks, <- Hq. by destruct s2.
  - intros c n Hcin Hn. subst chunks. destruct (isUpdated r); [|by apply elem_of_nil in Hcin].
    apply (getChunks_sub _ _ _ _ Hcin), covers_intervalIntersection in Hn as [Hn1 Hn2].
    apply covers_singleton in Hn1. unfold contains in Hn1. cbn [fst snd] in Hn1.
    split; [|done]. lia.
  - rewrite <- Hs'.
    assert (Hx : ∀ x e, factoryChildAddressProgressTrackers
                          (perform e (addChunkTasks (FACTORY_LOG_FILTER factory) chunks x))
                        = factoryChildAddressProgressTrackers x).
    { intros x e. unfold addChunkTasks. generalize chunks as l. intros l. revert x.
      induction l as [|c l IH]; intros x; simpl; [by destruct x|].
      rewrite IH. by destruct x. }
    rewrite Hx. destruct s2. simpl. apply lookup_insert_eq.
  - rewrite <- Hs', <- Hl.
    assert (Hx : ∀ x e, factoryLogFilterProgressTrackers
                          (perform e (addChunkTasks (FACTORY_LOG_FILTER factory) chunks x))
                        = factoryLogFilterProgressTrackers x).
    { intros x e. unfold addChunkTasks. generalize chunks as l. intros l. revert x.
      induction l as [|c l IH]; intros x; simpl; [by destruct x|].
      rewrite IH. by destruct x. }
    rewrite Hx. by destruct s2.
Qed.

(** ** The callbacks a LOG_FILTER task registers *)

Lemma waitingCallbacks_push (n : Z) (callback : BlockCallback) (s : Service) :
  waitingCallbacks (blockCallbacks (pushBlockCallback n callback s))
  = S (waitingCallbacks (blockCallbacks s)).
Proof.
  assert (Hm : ∀ m : gmap Z (list BlockCallback),
            waitingCallbacks (<[n := default [] (m !! n) ++ [callback]]> m)
            = S (waitingCallbacks m)).
  { intros m. unfold waitingCallbacks. destruct (m !! n) as [old|] eqn:E; simpl.
    - rewrite <- (insert_delete_eq m n).
      rewrite map_to_list_insert by apply lookup_delete_eq.
      rewrite <- (map_to_list_delete m n old E). simpl. rewrite length_app. simpl. lia.
    - rewrite map_to_list_insert by done. simpl. lia. }
  destruct s. simpl. apply Hm.
Qed.




(** ** The walk of a BLOCK_FILTER task *)

(** The loop adds no task and moves no tracker, and makes at most one insert
    or callback per required block: exactly one when it returns. *)
Lemma blockFilterWalk_counts (w : World) (blockFilter : Source.t)
    (prevBlockNumber : Z) (requiredBlocks : list Z) (s s' : Service) (r : Error + unit) :
  blockFilterWalk w blockFilter prevBlockNumber requiredBlocks s = (r, s') →
  queue s' = queue s
  ∧ allProgressTrackers s' = allProgressTrackers s
  ∧ (insertCount (effects s') + waitingCallbacks (blockCallbacks s')
     <= insertCount (effects s) + waitingCallbacks (blockCallbacks s)
        + length requiredBlocks)%nat
  ∧ match r with
    | inr _ =>
        (insertCount (effects s') + waitingCallbacks (blockCallbacks s'))%nat
        = (insertCount (effects s) + waitingCallbacks (blockCallbacks s)
           + length requiredBlocks)%nat
    | inl _ => True
    end.
Proof.
  revert prevBlockNumber s. induction requiredBlocks as [|b bs IH]; intros prev s; simpl.
  - unfold mret, M_ret. intros [= <- <-]. repeat split; lia.
  - unfold mbind at 1. unfold M_bind at 1. rewrite external_eq.
    set (s1 := set_externalCalls _ s).
    assert (H1 : queue s1 = queue s ∧ allProgressTrackers s1 = allProgressTrackers s
                 ∧ effects s1 = effects s ∧ blockCallbacks s1 = blockCallbacks s)
      by (subst s1; by destruct s).
    destruct H1 as (Hq1 & Ht1 & He1 & Hb1).
    destruct (getBlock w (externalCalls s) (Source.chainId blockFilter) b) as [e|hasBlock].
    { intros [= <- <-]. rewrite Hq1, Ht1, He1, Hb1. repeat split; lia. }
    unfold mbind at 1. unfold M_bind at 1. destruct hasBlock.
    + destruct (storeInsert w _ s1) as [[e|[]] s2] eqn:E2.
      * intros [= <- <-]. destruct (storeInsert_result _ _ _ _ _ E2) as [Hp Hi].
        assert (queue s2 = queue s1 ∧ allProgressTrackers s2 = allProgressTrackers s1
                ∧ blockCallbacks s2 = blockCallbacks s1) as (-> & -> & ->).
        { unfold progressOf in Hp. injection Hp as ? ? ? ? ? ? ? ? ? ?.
          unfold allProgressTrackers. by repeat match goal with H : _ = _ |- _ => rewrite H end. }
        rewrite Hi, Hq1, Ht1, He1, Hb1. repeat split; lia.
      * intros H. destruct (IH _ _ H) as (Hq & Ht & Hle & Hr).
        destruct (storeInsert_result _ _ _ _ _ E2) as [Hp Hi].
        assert (queue s2 = queue s1 ∧ allProgressTrackers s2 = allProgressTrackers s1
                ∧ blockCallbacks s2 = blockCallbacks s1) as (Hq2 & Ht2 & Hb2).
        { unfold progressOf in Hp. injection Hp as ? ? ? ? ? ? ? ? ? ?.
          unfold allProgressTrackers. by repeat match goal with H : _ = _ |- _ => rewrite H end. }
        rewrite Hq, Ht, Hq2, Ht2, Hq1, Ht1. rewrite Hi, Hb2, He1, Hb1 in Hle, Hr.
        split; [done|]. split; [done|]. split; [lia|]. destruct r; [done|lia].
    + unfold modify at 1. intros H. destruct (IH _ _ H) as (Hq & Ht & Hle & Hr).
      rewrite waitingCallbacks_push in Hle, Hr.
      assert (queue (pushBlockCallback b (BlockFilterCallback blockFilter prev b) s1) = queue s1
              ∧ allProgressTrackers (pushBlockCallback b (BlockFilterCallback blockFilter prev b) s1)
                = allProgressTrackers s1
              ∧ effects (pushBlockCallback b (BlockFilterCallback blockFilter prev b) s1)
                = effects s1) as (Hq2 & Ht2 & He2) by (by destruct s1).
      rewrite Hq, Ht, Hq2, Ht2, Hq1, Ht1. rewrite He2, He1, Hb1 in Hle, Hr.
      split; [done|]. split; [done|]. split; [lia|]. destruct r; [done|lia].
Qed.

Lemma storeInsert_returns (w : World) (i : StoreInsert) (s s' : Service) :
  storeInsert w i s = (inr tt, s') →
  s' = perform (Inserted i) (set_externalCalls (S (externalCalls s)) s).
Proof.
  unfold storeInsert, mbind, M_bind. rewrite external_eq.
  destruct (insertFails w (externalCalls s) i) as [e|]; [done|].
  unfold modify. by intros [= <-].
Qed.

Lemma blockFilterWalk_returns (w : World) (blockFilter : Source.t) (prev : Z)
    (bs : list Z) (s s' : Service) :
  blockFilterWalk w blockFilter prev bs s = (inr tt, s') →
  ∃ stored : list bool,
    length stored = length bs
    ∧ (∀ (i : nat) b d, bs !! i = Some b → stored !! i = Some d →
         getBlock w (externalCalls s + i + length (filter (λ x, x = true) (take i stored)))
           (Source.chainId blockFilter) b = inr d)
    ∧ let handled := zip (zip (prev :: ((λ b, b + 1) <$> bs)) bs) stored in
      effects s'
      = effects s
        ++ ((λ x, Inserted (insertBlockFilterInterval (Source.chainId blockFilter)
                    (Source.criteria blockFilter) None x.1))
              <$> filter (λ x, x.2 = true) handled)
      ∧ ∀ n,
          let new := (λ x, BlockFilterCallback blockFilter x.1.1 x.1.2)
                       <$> filter (λ x, x.2 = false ∧ x.1.2 = n) handled in
          default [] (blockCallbacks s' !! n) = default [] (blockCallbacks s !! n) ++ new
          ∧ (new = [] → blockCallbacks s' !! n = blockCallbacks s !! n).
Proof.
  revert prev s. induction bs as [|b bs IH]; intros prev s; simpl.
  - unfold mret, M_ret. intros [= <-]. exists []. split; [done|]. split; [done|].
    split; [by rewrite app_nil_r|]. intros n. split; [by rewrite app_nil_r|done].
  - unfold mbind at 1. unfold M_bind at 1. rewrite external_eq.
    set (s1 := set_externalCalls _ s).
    assert (H1 : effects s1 = effects s ∧ blockCallbacks s1 = blockCallbacks s
                 ∧ externalCalls s1 = S (externalCalls s)) by (subst s1; by destruct s).
    destruct H1 as (He1 & Hb1 & Hc1).
    destruct (getBlock w (externalCalls s) (Source.chainId blockFilter) b)
      as [e|hasBlock] eqn:Hget; [done|].
    unfold mbind at 1. unfold M_bind at 1. destruct hasBlock.
    + destruct (storeInsert w _ s1) as [[e|[]] s2] eqn:E2; [done|].
      intros H. destruct (IH _ _ H) as (stored & Hlen & Hidx & Heff & Hcb).
      apply storeInsert_returns in E2.
      assert (H2 : effects s2
                   = effects s ++ [Inserted (insertBlockFilterInterval
                       (Source.chainId blockFilter) (Source.criteria blockFilter) None (prev, b))]
                   ∧ blockCallbacks s2 = blockCallbacks s
                   ∧ externalCalls s2 = S (S (externalCalls s))).
      { rewrite E2, <- He1, <- Hb1, <- Hc1. by destruct s1. }
      destruct H2 as (He2 & Hb2 & Hc2).
      exists (true :: stored). split; [simpl; by rewrite Hlen|]. split; [|split].
      * intros [|i] b' d.
        -- simpl. intros [= <-] [= <-]. by rewrite !Nat.add_0_r.
        -- intros Hb' Hd. simpl in Hb', Hd. rewrite firstn_cons, filter_cons_True by done.
           rewrite <- (Hidx i b' d Hb' Hd). f_equal. rewrite Hc2. simpl. lia.
      * cbn [zip zip_with]. rewrite filter_cons_True by done. rewrite fmap_cons. simpl.
        rewrite Heff, He2, <- app_assoc. done.
      * intros n. cbn [zip zip_with]. rewrite filter_cons_False by (by intros [? _]).
        specialize (Hcb n). rewrite Hb2 in Hcb. exact Hcb.
    + unfold modify at 1. intros H.
      destruct (IH _ _ H) as (stored & Hlen & Hidx & Heff & Hcb).
      set (s2 := pushBlockCallback b (BlockFilterCallback blockFilter prev b) s1) in *.
      assert (H2 : effects s2 = effects s
                   ∧ blockCallbacks s2
                     = <[b := default [] (blockCallbacks s !! b)
                              ++ [BlockFilterCallback blockFilter prev b]]> (blockCallbacks s)
                   ∧ externalCalls s2 = S (externalCalls s)).
      { subst s2. rewrite <- He1, <- Hb1, <- Hc1. by destruct s1. }
      destruct H2 as (He2 & Hb2 & Hc2).
      exists (false :: stored). split; [simpl; by rewrite Hlen|]. split; [|split].
      * intros [|i] b' d.
        -- simpl. intros [= <-] [= <-]. by rewrite !Nat.add_0_r.
        -- intros Hb' Hd. simpl in Hb', Hd. rewrite firstn_cons, filter_cons_False by done.
           rewrite <- (Hidx i b' d Hb' Hd). f_equal. rewrite Hc2. lia.
      * cbn [zip zip_with]. rewrite filter_cons_False by done. by rewrite Heff, He2.
      * intros n. cbn [zip zip_with]. specialize (Hcb n). rewrite Hb2 in Hcb.
        destruct (decide (b = n)) as [->|Hne].
        -- rewrite filter_cons_True by done. rewrite fmap_cons. simpl.
           rewrite lookup_insert_eq in Hcb. simpl in Hcb.
           destruct Hcb as [Hcb _]. split; [|done].
           by rewrite Hcb, <- app_assoc.
        -- rewrite filter_cons_False by (intros [_ ?]; done).
           by rewrite lookup_insert_ne in Hcb.
Qed.

Lemma walk_intervals_not_empty (prev : Z) (bs : list Z) :
  StronglySorted Z.lt bs → (∀ b, b ∈ bs → prev <= b) →
  ∀ iv, iv ∈ zip (prev :: ((λ b, b + 1) <$> bs)) bs → iv.1 <= iv.2.
Proof.
  intros Hs. revert prev. induction Hs as [|b bs Hs IH Hall]; intros prev Hle iv Hiv.
  - by apply elem_of_nil in Hiv.
  - cbn [fmap list_fmap zip zip_with] in Hiv. apply elem_of_cons in Hiv as [->|Hiv].
    + simpl. apply Hle. by left.
    + apply (IH (b + 1)); [|done]. intros b' Hb'.
      rewrite Forall_forall in Hall. specialize (Hall b' Hb'). lia.
Qed.

(** X16. When the loop over [requiredBlocks] returns, every required block was
    dealt with once, in order, with the interval from [prevBlockNumber] (for
    the first block) or from the block after the one before, to the block
    itself. The store was asked for each block in turn: where it had the
    block, [insertBlockFilterInterval] was called at once with this interval
    and no block; where it had not, one callback with this interval was
    added under the block's number, after the callbacks that waited there.
    Nothing else was inserted and no other entry of [blockCallbacks] was
    touched. If the required blocks are in ascending order and none is below
    [prevBlockNumber], no interval is empty. Whether the loop returns or
    throws, it adds no task, moves no tracker, and makes at most one insert
    or callback per required block. *)
Theorem blockFilterWalk_handles_each_block (w : World) (blockFilter : Source.t)
    (prevBlockNumber : Z) (requiredBlocks : list Z) (s s' : Service) (r : Error + unit) :
  blockFilterWalk w blockFilter prevBlockNumber requiredBlocks s = (r, s') →
  let intervals :=
    zip (prevBlockNumber :: ((λ b, b + 1) <$> requiredBlocks)) requiredBlocks in
  queue s' = queue s
  ∧ allProgressTrackers s' = allProgressTrackers s
  ∧ (insertCount (effects s') + waitingCallbacks (blockCallbacks s')
     <= insertCount (effects s) + waitingCallbacks (blockCallbacks s)
        + length requiredBlocks)%nat
  ∧ (StronglySorted Z.lt requiredBlocks →
     (∀ b, b ∈ requiredBlocks → prevBlockNumber <= b) →
     ∀ iv, iv ∈ intervals → iv.1 <= iv.2)
  ∧ match r with
    | inr _ =>
        ∃ stored : list bool,
          length stored = length requiredBlocks
          ∧ (∀ (i : nat) b d, requiredBlocks !! i = Some b → stored !! i = Some d →
               getBlock w
                 (externalCalls s + i + length (filter (λ x, x = true) (take i stored)))
                 (Source.chainId blockFilter) b = inr d)
          ∧ effects s'
            = effects s
              ++ ((λ x, Inserted (insertBlockFilterInterval (Source.chainId blockFilter)
                          (Source.criteria blockFilter) None x.1))
                    <$> filter (λ x, x.2 = true) (zip intervals stored))
          ∧ ∀ n,
              let new := (λ x, BlockFilterCallback blockFilter x.1.1 x.1.2)
                           <$> filter (λ x, x.2 = false ∧ x.1.2 = n) (zip intervals stored) in
              default [] (blockCallbacks s' !! n) = default [] (blockCallbacks s !! n) ++ new
              ∧ (new = [] → blockCallbacks s' !! n = blockCallbacks s !! n)
    | inl _ => True
    end.
Proof.
  intros H intervals.
  destruct (blockFilterWalk_counts _ _ _ _ _ _ _ H) as (Hq & Ht & Hle & _).
  split; [done|]. split; [done|]. split; [done|]. split.
  - apply walk_intervals_not_empty.
  - destruct r as [e|[]]; [done|].
    destruct (blockFilterWalk_returns _ _ _ _ _ _ H) as (stored & Hlen & Hidx & Heff & Hcb).
    exists stored. split; [done|]. split; [done|]. split; [done|]. exact Hcb.
Qed.

(** ** The further theorems at concrete services *)

Lemma blockFilterRequiredBlocks_ascending_witness :
  ∃ bs, blockFilterRequiredBlocks (blockFilterFuel 0 30) 10 3 0 30 = Some bs
    ∧ StronglySorted Z.lt bs
    ∧ last bs = Some 30
    ∧ ∀ n, n ∈ bs → 0 <= n <= 30.
Proof. apply (blockFilterRequiredBlocks_ascending 10 3 0 30); lia. Defined.


Lemma start_completes_cached_sync_witness :
  let s := start (setup Cases.cached 1010 1000 (newService Example.mainnet [Example.X])) in
  tasks (queue s) = []
  ∧ syncCompleteCount (effects s) = 1%nat
  ∧ runNextTask Cases.cached s = None.
Proof.
  apply (proj1 (start_completes_cached_sync Cases.cached 1010 1000 Example.mainnet
                  [Example.X])).
  constructor; [|constructor]. intros _. vm_compute. reflexivity.
Defined.

Lemma worker_syncComplete_witness :
  let result := worker Example.emptyStore (TRACE_FILTER Example.T 0 100)
                  Cases.lastTaskInFlight in
  result.1 = inr tt
  ∧ syncCompleteCount (effects result.2)
    = (syncCompleteCount (effects Cases.lastTaskInFlight) + 1)%nat.
Proof.
  split; [reflexivity|].
  exact (proj2 (worker_syncComplete Example.emptyStore (TRACE_FILTER Example.T 0 100)
                  Cases.lastTaskInFlight
                  (worker Example.emptyStore (TRACE_FILTER Example.T 0 100)
                     Cases.lastTaskInFlight).2
                  (inr tt) eq_refl)).
Defined.

Lemma next_task_has_least_block_witness :
  Forall (λ x, 0 <= firstBlock x.1 ∧ x.2 = MAX_SAFE_INTEGER - firstBlock x.1)
    (tasks (queue Example.ready)).
Proof.
  apply Forall_forall.
  exact (proj1 (next_task_has_least_block Example.halfDiscovered 1010 1000 Example.mainnet
                  [Example.F; Example.X] 0 (FACTORY_CHILD_ADDRESS Example.F 0 50)
                  match runNextTask Example.halfDiscovered Example.ready with
                  | Some (_, s') => s'
                  | None => Example.ready
                  end eq_refl)).
Defined.

Lemma blockTask_block_not_found_witness :
  ∃ s', runNextTask Cases.noBlock Cases.oneBlockTask = Some (BLOCK 7 Example.twoCallbacks, s')
    ∧ tasks (queue s') = [(BLOCK 7 Example.twoCallbacks, MAX_SAFE_INTEGER - 7)]
    ∧ insertCount (effects s') = 0%nat.
Proof.
  destruct (blockTask_block_not_found Cases.noBlock Cases.oneBlockTask 7 Example.twoCallbacks
              (MAX_SAFE_INTEGER - 7) [] eq_refl eq_refl eq_refl eq_refl)
    as (s' & H1 & H2 & H3 & _).
  exists s'. split; [exact H1|]. split; [exact H2|]. rewrite H3. reflexivity.
Defined.

Lemma logFilterCallback_receipts_witness :
  let result := runCallback Example.emptyStore (Example.blockAt 7)
                  (LogFilterCallback Example.X Cases.emptyInterval) Example.idle in
  result.1 = inr tt
  ∧ ∃ receipts,
      effects result.2
      = effects Example.idle
        ++ [Inserted (insertLogFilterInterval 1 (Source.criteria Example.X) (Example.blockAt 7)
              [] receipts [] (0, 7))]
      ∧ receipts = [].
Proof.
  split; [reflexivity|].
  exact (logFilterCallback_receipts Example.emptyStore (Example.blockAt 7) Example.X
           Cases.emptyInterval ["0xa"] [] false Example.idle
           (runCallback Example.emptyStore (Example.blockAt 7)
              (LogFilterCallback Example.X Cases.emptyInterval) Example.idle).2
           (inr tt) eq_refl eq_refl).
Defined.

Lemma log_tasks_fail_without_trace_witness :
  ∃ s', worker Cases.rpcDown (LOG_FILTER Example.X 0 199) Cases.logOnly
        = (inl (RpcError "timeout"), s')
    ∧ progressOf s' = progressOf Cases.logOnly
    ∧ effects s' = effects Cases.logOnly.
Proof.
  exact (proj1 (log_tasks_fail_without_trace Cases.rpcDown Cases.logOnly
                  (RpcError "timeout"))
           Example.X 0 199 ["0xa"] [] false eq_refl eq_refl).
Defined.

Lemma factoryChildAddress_enqueues_witness :
  let s' := (factoryChildAddressTaskWorker Example.halfDiscovered Example.F 0 50
               Example.ready).2 in
  tasks (queue s')
  ≡ₚ tasks (queue Example.ready)
     ++ ((λ c, (FACTORY_LOG_FILTER Example.F c.1 c.2, MAX_SAFE_INTEGER - c.1))
           <$> [(0, 100)]).
Proof.
  exact (proj1 (factoryChildAddress_enqueues Example.halfDiscovered Example.F 0 50
                  Example.ready
                  (factoryChildAddressTaskWorker Example.halfDiscovered Example.F 0 50
                     Example.ready).2
                  {| target := (0, 100); completed := [(51, 100)] |}
                  {| target := (0, 100); completed := [] |}
                  eq_refl eq_refl eq_refl)).
Defined.


Lemma blockFilterWalk_handles_each_block_witness :
  let result := blockFilterWalk Example.emptyStore Example.B 0 [3; 13] Example.idle in
  result.1 = inr tt
  ∧ blockCallbacks result.2 !! 3 = Some [BlockFilterCallback Example.B 0 3]
  ∧ blockCallbacks result.2 !! 13 = Some [BlockFilterCallback Example.B 4 13]
  ∧ queue result.2 = queue Example.idle
  ∧ ∃ stored : list bool,
      length stored = 2%nat
      ∧ effects result.2
        = effects Example.idle
          ++ ((λ x, Inserted (insertBlockFilterInterval (Source.chainId Example.B)
                      (Source.criteria Example.B) None x.1))
                <$> filter (λ x, x.2 = true) (zip [(0, 3); (4, 13)] stored)).
Proof.
  intros result.
  assert (Hr : result.1 = inr tt) by (vm_compute; reflexivity).
  assert (H : blockFilterWalk Example.emptyStore Example.B 0 [3; 13] Example.idle
              = (inr tt, result.2)).
  { apply injective_projections.
    - exact Hr.
    - reflexivity. }
  destruct (blockFilterWalk_handles_each_block _ _ _ _ _ _ _ H)
    as (Hq & _ & _ & _ & stored & Hlen & _ & Heff & _).
  split; [exact Hr|]. split; [vm_compute; reflexivity|]. split; [vm_compute; reflexivity|].
  split; [exact Hq|]. exists stored. split; [exact Hlen|]. exact Heff.
Defined.

Lemma onError_retries_witness :
  ∃ s', runNextTask Cases.rpcDown Cases.retried = Some (LOG_FILTER Example.X 0 199, s')
    ∧ tasks (queue Cases.retried)
      = [(LOG_FILTER Example.X 0 199, MAX_SAFE_INTEGER - 0);
         (LOG_FILTER Example.X 200 399, MAX_SAFE_INTEGER - 200)]
    ∧ (LOG_FILTER Example.X 0 199, MAX_SAFE_INTEGER - 0) ∈ tasks (queue s')
    ∧ length (tasks (queue s')) = 2%nat.
Proof.
  assert (Hp : isPaused (queue Cases.retried) = false) by (vm_compute; reflexivity).
  assert (Ht : tasks (queue Cases.retried)
               = [(LOG_FILTER Example.X 0 199, MAX_SAFE_INTEGER - 0);
                  (LOG_FILTER Example.X 200 399, MAX_SAFE_INTEGER - 200)])
    by (vm_compute; reflexivity).
  assert (Hsd : isShuttingDown Cases.retried = false) by (vm_compute; reflexivity).
  set (s1 := set_queue {| tasks := [(LOG_FILTER Example.X 200 399, MAX_SAFE_INTEGER - 200)];
                          pending := 1; isPaused := false |} Cases.retried).
  assert (Hw : worker Cases.rpcDown (LOG_FILTER Example.X 0 199) s1
               = (inl (RpcError "timeout"),
                  (worker Cases.rpcDown (LOG_FILTER Example.X 0 199) s1).2)).
  { apply injective_projections.
    - vm_compute. reflexivity.
    - reflexivity. }
  assert (Hl : length (tasks (queue (worker Cases.rpcDown (LOG_FILTER Example.X 0 199) s1).2))
               = 1%nat) by (vm_compute; reflexivity).
  destruct (onError_retries Cases.rpcDown Cases.retried _ _ _ _ _ Hp Ht Hw)
    as (s' & Hrun & Hadd & _).
  destruct (Hadd Hsd) as (_ & Hin & Hlen & _).
  exists s'. split; [exact Hrun|]. split; [exact Ht|]. split; [exact Hin|].
  etrans; [exact Hlen|]. f_equal; exact Hl.
Defined.
